(** * Quizzy: the session engine of [server/src/index.ts]

    A shallow embedding of the socket.io server of the quiz game: the
    registry [activeGames], the handlers registered on every socket
    ([createGame], [joinGame], [submitAnswer], [nextQuestion],
    [startCountdown], [disconnect]), the helper [startQuestionTimer] and
    the three [setTimeout] callbacks it and [startCountdown] schedule.

    Modelling choices.
    - A JavaScript [Map] keeps its keys in insertion order, and the order
      is observable ([Array.from(game.players.values())] is sent to the
      clients), so maps are association lists with [Map]'s update rule:
      [set] on a present key replaces the value in place, on a new key
      appends.
    - Game objects are mutable and are captured by timer closures, so
      they live in a store ([heap]) and [activeGames] maps a code to a
      reference; a closure keeps its reference whatever [activeGames]
      says later.
    - A closure passed to [setTimeout] is a [Callback] value holding what
      the closure captures.  Pending timeouts are a list; [Fire h] runs
      the callback of the pending timeout [h].  Which pending timeout
      fires next is left to the environment; the delay is recorded.
    - [Math.random().toString(36).substring(2, 8)] is an input of
      [createGame]: the string drawn.
    - JavaScript numbers are integers here ([Z]; [nat] for
      [currentQuestion], which starts at 0 and is only incremented).
    - A handler either returns or throws a [TypeError] (reading a
      property of [undefined]); what it wrote before throwing stays
      written. *)

From Stdlib Require Import ZArith List Bool Lia Permutation Sorted.
From stdpp Require Import base list strings relations pretty.
Import ListNotations.

Local Open Scope string_scope.
Local Open Scope list_scope.

(** ** JavaScript [Map] with string keys *)

Module JsMap.

Definition t (V : Type) : Type := list (string * V).

Section Ops.
Context {V : Type}.

Fixpoint get (m : t V) (k : string) : option V :=
  match m with
  | [] => None
  | (k', v) :: m' => if String.eqb k' k then Some v else get m' k
  end.

Definition has (m : t V) (k : string) : bool :=
  match get m k with Some _ => true | None => false end.

Fixpoint set (m : t V) (k : string) (v : V) : t V :=
  match m with
  | [] => [(k, v)]
  | (k', v') :: m' =>
      if String.eqb k' k then (k, v) :: m' else (k', v') :: set m' k v
  end.

Fixpoint delete (m : t V) (k : string) : t V :=
  match m with
  | [] => []
  | (k', v') :: m' =>
      if String.eqb k' k then delete m' k else (k', v') :: delete m' k
  end.

Definition entries (m : t V) : list (string * V) := m.
Definition keys (m : t V) : list string := map fst m.
Definition values (m : t V) : list V := map snd m.
Definition clear (m : t V) : t V := [].
Definition empty : t V := [].

End Ops.

End JsMap.

(** ** Data model (the interfaces of index.ts) *)

Record Player := mkPlayer {
  player_id : string;
  username : string;
  score : Z
}.

Record Question := mkQuestion {
  question_id : string;
  text : string;
  options : list string;
  correctAnswer : Z;
  timeLimit : Z
}.

Record Quiz := mkQuiz {
  quiz_id : string;
  title : string;
  questions : list Question
}.

(** The value type of [activeGames]; [timer] holds a timeout handle. *)
Record Game := mkGame {
  players : JsMap.t Player;
  currentQuestion : nat;
  quiz : Quiz;
  answers : JsMap.t Z;
  timer : option nat
}.

Definition set_players (g : Game) (p : JsMap.t Player) : Game :=
  mkGame p (currentQuestion g) (quiz g) (answers g) (timer g).
Definition set_currentQuestion (g : Game) (n : nat) : Game :=
  mkGame (players g) n (quiz g) (answers g) (timer g).
Definition set_answers (g : Game) (a : JsMap.t Z) : Game :=
  mkGame (players g) (currentQuestion g) (quiz g) a (timer g).
Definition set_timer (g : Game) (h : option nat) : Game :=
  mkGame (players g) (currentQuestion g) (quiz g) (answers g) h.

(** ** Timers *)

(** The three closures handed to [setTimeout], with what they capture:
    - [QuestionTimeout]: the outer callback of [startQuestionTimer]
      (captures [gameId], [game], [question]);
    - [RevealPause]: the inner 3000 ms callback (captures [gameId], [game]);
    - [CountdownDone]: the 5000 ms callback of [startCountdown]. *)
Inductive Callback :=
| QuestionTimeout (gameId : string) (game : nat) (question : Question)
| RevealPause (gameId : string) (game : nat)
| CountdownDone (gameId : string) (game : nat).

Record Timeout := mkTimeout {
  handle : nat;
  delay : Z;
  callback : Callback
}.

(** ** Server state *)

Record Server := mkServer {
  heap : list Game;              (* the game objects, by reference *)
  activeGames : JsMap.t nat;     (* code -> reference *)
  timeouts : list Timeout;       (* scheduled and not yet fired or cleared *)
  nextHandle : nat;
  rooms : list (string * string) (* (room, socket id): socket.join *)
}.

Definition set_heap (s : Server) (h : list Game) : Server :=
  mkServer h (activeGames s) (timeouts s) (nextHandle s) (rooms s).
Definition set_activeGames (s : Server) (a : JsMap.t nat) : Server :=
  mkServer (heap s) a (timeouts s) (nextHandle s) (rooms s).
Definition set_timeouts (s : Server) (t : list Timeout) : Server :=
  mkServer (heap s) (activeGames s) t (nextHandle s) (rooms s).
Definition set_rooms (s : Server) (r : list (string * string)) : Server :=
  mkServer (heap s) (activeGames s) (timeouts s) (nextHandle s) r.

Definition initial : Server := mkServer [] JsMap.empty [] 0 [].

(** ** Emitted events *)

Inductive Event :=
| GameCreated (gameId : string)
| ErrorMsg (message : string)
| PlayerJoined (player : Player)
| PlayerLeft (playerId : string)
| ScoreUpdate (playerId : string) (newScore : Z)
| StartCountdown
| NewQuestion (question : Question) (limit : Z)
| RevealAnswer (correct : Z) (correctPlayers : list string)
               (updatedPlayers : list Player)
| GameOver (finalPlayers : list Player).

(** [io.to(gameId).emit] and [socket.emit]. *)
Inductive Target :=
| ToRoom (gameId : string)
| ToSocket (socketId : string).

Definition Emit : Type := Target * Event.

Inductive Completion := Returned | TypeError.

Definition Outcome : Type := Server * list Emit * Completion.

(** ** Primitives *)

(** [activeGames.get(gameId)]: the reference and the object behind it. *)
Definition getGame (s : Server) (gameId : string) : option (nat * Game) :=
  match JsMap.get (activeGames s) gameId with
  | Some r => match heap s !! r with
              | Some g => Some (r, g)
              | None => None
              end
  | None => None
  end.

(** Writing a field of the object at reference [r]. *)
Definition putGame (s : Server) (r : nat) (g : Game) : Server :=
  set_heap s (<[r := g]> (heap s)).

Definition setTimeout (s : Server) (cb : Callback) (ms : Z) : nat * Server :=
  (nextHandle s,
   mkServer (heap s) (activeGames s)
            (timeouts s ++ [mkTimeout (nextHandle s) ms cb])
            (S (nextHandle s)) (rooms s)).

Definition clearTimeout (s : Server) (h : nat) : Server :=
  set_timeouts s (filter (fun t => handle t ≠ h) (timeouts s)).

Definition socket_join (s : Server) (socketId room : string) : Server :=
  set_rooms s (rooms s ++ [(room, socketId)]).

(** The [filter]/[map] chain over [game.answers.entries()]. *)
Definition correctPlayersOf (a : JsMap.t Z) (question : Question) : list string :=
  map fst
    (List.filter (fun e => Z.eqb (snd e) (correctAnswer question))
                 (JsMap.entries a)).

(** ** startQuestionTimer *)

Definition startQuestionTimer (s : Server) (gameId : string) : Server :=
  match getGame s gameId with
  | None => s
  | Some (r, game) =>
      match questions (quiz game) !! currentQuestion game with
      | None => s
      | Some question =>
          let s1 := match timer game with
                    | Some h => clearTimeout s h
                    | None => s
                    end in
          let '(h, s2) := setTimeout s1 (QuestionTimeout gameId r question)
                                     (timeLimit question * 1000) in
          putGame s2 r (set_timer game (Some h))
      end
  end.

(** ** The socket handlers *)

(** The object literal of [createGame]. *)
Definition newGame (qz : Quiz) : Game :=
  mkGame JsMap.empty 0 qz JsMap.empty None.

Definition createGame (s : Server) (socketId random : string) (qz : Quiz)
  : Outcome :=
  let gameId := random in
  let r := length (heap s) in
  let s1 := set_heap s (heap s ++ [newGame qz]) in
  let s2 := set_activeGames s1 (JsMap.set (activeGames s1) gameId r) in
  let s3 := socket_join s2 socketId gameId in
  (s3, [(ToSocket socketId, GameCreated gameId)], Returned).

Definition joinGame (s : Server) (socketId gameId name : string) : Outcome :=
  match getGame s gameId with
  | None => (s, [(ToSocket socketId, ErrorMsg "Game not found")], Returned)
  | Some (r, game) =>
      let player := mkPlayer socketId name 0 in
      let s1 := putGame s r
                  (set_players game (JsMap.set (players game) socketId player)) in
      let s2 := socket_join s1 socketId gameId in
      (s2, [(ToRoom gameId, PlayerJoined (mkPlayer socketId name 0))], Returned)
  end.

Definition submitAnswer (s : Server) (socketId gameId : string)
  (answerIndex : Z) : Outcome :=
  match getGame s gameId with
  | None => (s, [], Returned)
  | Some (r, game) =>
      match JsMap.get (players game) socketId with
      | None => (s, [], Returned)
      | Some player =>
          if JsMap.has (answers game) socketId then (s, [], Returned)
          else
            let game1 :=
              set_answers game (JsMap.set (answers game) socketId answerIndex) in
            match questions (quiz game1) !! currentQuestion game1 with
            | None =>
                (* currentQuestion.correctAnswer on undefined *)
                (putGame s r game1, [], TypeError)
            | Some current =>
                if Z.eqb answerIndex (correctAnswer current) then
                  let player' :=
                    mkPlayer (player_id player) (username player)
                             (score player + 1000) in
                  let game2 :=
                    set_players game1
                      (JsMap.set (players game1) socketId player') in
                  (putGame s r game2,
                   [(ToRoom gameId, ScoreUpdate socketId (score player'))],
                   Returned)
                else (putGame s r game1, [], Returned)
            end
      end
  end.

Definition nextQuestion (s : Server) (gameId : string) : Outcome :=
  match getGame s gameId with
  | None => (s, [], Returned)
  | Some (r, game) =>
      (* reveal, guarded by currentQuestion < questions.length *)
      let '(game1, out1) :=
        match questions (quiz game) !! currentQuestion game with
        | Some current =>
            (set_answers game (JsMap.clear (answers game)),
             [(ToRoom gameId,
               RevealAnswer (correctAnswer current)
                            (correctPlayersOf (answers game) current)
                            (JsMap.values (players game)))])
        | None => (game, [])
        end in
      let game2 := set_currentQuestion game1 (S (currentQuestion game1)) in
      let s2 := putGame s r game2 in
      match questions (quiz game2) !! currentQuestion game2 with
      | None =>
          (s2, out1 ++ [(ToRoom gameId, GameOver (JsMap.values (players game2)))],
           Returned)
      | Some question =>
          (startQuestionTimer s2 gameId,
           out1 ++ [(ToRoom gameId, NewQuestion question (timeLimit question))],
           Returned)
      end
  end.

Definition startCountdown (s : Server) (gameId : string) : Outcome :=
  match getGame s gameId with
  | None => (s, [], Returned)
  | Some (r, game) =>
      let '(_, s1) := setTimeout s (CountdownDone gameId r) 5000 in
      (s1, [(ToRoom gameId, StartCountdown)], Returned)
  end.

(** One round of [activeGames.forEach] in the [disconnect] handler. *)
Definition disconnectGame (socketId : string)
  (acc : list Game * list Emit) (entry : string * nat)
  : list Game * list Emit :=
  match acc.1 !! entry.2 with
  | Some game =>
      if JsMap.has (players game) socketId then
        (<[entry.2 := set_players game (JsMap.delete (players game) socketId)]>
           acc.1,
         acc.2 ++ [(ToRoom entry.1, PlayerLeft socketId)])
      else acc
  | None => acc
  end.

(** The transport has taken the socket out of its rooms before the
    handler runs. *)
Definition disconnect (s : Server) (socketId : string) : Outcome :=
  let s0 := set_rooms s
              (filter (fun e => e.2 ≠ socketId) (rooms s)) in
  let acc := fold_left (disconnectGame socketId)
                       (JsMap.entries (activeGames s0)) (heap s0, []) in
  (set_heap s0 acc.1, acc.2, Returned).

(** ** The timer callbacks *)

Definition runCallback (s : Server) (cb : Callback) : Outcome :=
  match cb with
  | QuestionTimeout gameId r question =>
      match heap s !! r with
      | None => (s, [], Returned)
      | Some game =>
          let out :=
            [(ToRoom gameId,
              RevealAnswer (correctAnswer question)
                           (correctPlayersOf (answers game) question)
                           (JsMap.values (players game)))] in
          let s1 := putGame s r (set_answers game (JsMap.clear (answers game))) in
          let '(_, s2) := setTimeout s1 (RevealPause gameId r) 3000 in
          (s2, out, Returned)
      end
  | RevealPause gameId r =>
      match heap s !! r with
      | None => (s, [], Returned)
      | Some game =>
          let game1 := set_currentQuestion game (S (currentQuestion game)) in
          let s1 := putGame s r game1 in
          match questions (quiz game1) !! currentQuestion game1 with
          | None =>
              (s1, [(ToRoom gameId, GameOver (JsMap.values (players game1)))],
               Returned)
          | Some next =>
              (startQuestionTimer s1 gameId,
               [(ToRoom gameId, NewQuestion next (timeLimit next))],
               Returned)
          end
      end
  | CountdownDone gameId r =>
      match heap s !! r with
      | None => (s, [], Returned)
      | Some game =>
          match questions (quiz game) !! currentQuestion game with
          | None => (s, [], Returned)
          | Some question =>
              (startQuestionTimer s gameId,
               [(ToRoom gameId, NewQuestion question (timeLimit question))],
               Returned)
          end
      end
  end.

(** A pending timeout fires: it leaves the pending list and its callback
    runs.  A handle that is not pending does nothing. *)
Definition fire (s : Server) (h : nat) : Outcome :=
  match List.find (fun t => Nat.eqb (handle t) h) (timeouts s) with
  | None => (s, [], Returned)
  | Some t => runCallback (clearTimeout s h) (callback t)
  end.

(** ** Inputs and runs *)

Inductive Command :=
| CreateGame (random : string) (qz : Quiz)
| JoinGame (gameId name : string)
| SubmitAnswer (gameId : string) (answerIndex : Z)
| NextQuestion (gameId : string)
| StartCountdownCmd (gameId : string)
| Disconnect.

Inductive Input :=
| Cmd (socketId : string) (c : Command)
| Fire (h : nat).

Definition step (s : Server) (i : Input) : Outcome :=
  match i with
  | Cmd socketId (CreateGame random qz) => createGame s socketId random qz
  | Cmd socketId (JoinGame gameId name) => joinGame s socketId gameId name
  | Cmd socketId (SubmitAnswer gameId a) => submitAnswer s socketId gameId a
  | Cmd _ (NextQuestion gameId) => nextQuestion s gameId
  | Cmd _ (StartCountdownCmd gameId) => startCountdown s gameId
  | Cmd socketId Disconnect => disconnect s socketId
  | Fire h => fire s h
  end.

Definition state_of (o : Outcome) : Server := o.1.1.
Definition emitted (o : Outcome) : list Emit := o.1.2.
Definition completion (o : Outcome) : Completion := o.2.

(** A run feeds inputs one after the other and collects what is emitted.
    It goes on after a [TypeError]; a process that dies there has seen a
    prefix of the run. *)
Fixpoint run (s : Server) (tr : list Input) : Server * list Emit :=
  match tr with
  | [] => (s, [])
  | i :: tr' =>
      let o := step s i in
      let r := run (state_of o) tr' in
      (r.1, emitted o ++ r.2)
  end.

(** ** Observations on emitted events *)

Definition isReveal (e : Emit) : bool :=
  match e.2 with RevealAnswer _ _ _ => true | _ => false end.

Definition isGameOver (e : Emit) : bool :=
  match e.2 with GameOver _ => true | _ => false end.

Definition reveals (out : list Emit) : nat := length (List.filter isReveal out).
Definition gameOvers (out : list Emit) : nat := length (List.filter isGameOver out).

(** Two game objects that differ at most in their [timer] field. *)
Definition sameButTimer (g g' : Game) : Prop :=
  players g' = players g ∧ currentQuestion g' = currentQuestion g ∧
  quiz g' = quiz g ∧ answers g' = answers g.

(** Every object of the store [h'] was already in [h], at the same
    reference and with the same player map, and its answer record is
    the same or has been cleared. *)
Definition playersKept (h h' : list Game) : Prop :=
  ∀ r g', h' !! r = Some g' →
    ∃ g, h !! r = Some g ∧ players g' = players g ∧
         (answers g' = answers g ∨ answers g' = []).

(** How one step may change one game object. *)
Inductive objStep : Input → Game → Game → Prop :=
| objKept i g g' :
    players g' = players g →
    answers g' = answers g ∨ answers g' = [] →
    objStep i g g'
| objJoin socketId gameId name g g' :
    players g' = JsMap.set (players g) socketId (mkPlayer socketId name 0) →
    answers g' = answers g →
    objStep (Cmd socketId (JoinGame gameId name)) g g'
| objSubmit socketId gameId a player g g' :
    JsMap.get (players g) socketId = Some player →
    players g' = players g ∨
    players g' = JsMap.set (players g) socketId
                   (mkPlayer (player_id player) (username player)
                             (score player + 1000)) →
    answers g' = JsMap.set (answers g) socketId a →
    objStep (Cmd socketId (SubmitAnswer gameId a)) g g'
| objLeave socketId g g' :
    players g' = JsMap.delete (players g) socketId →
    answers g' = answers g →
    objStep (Cmd socketId Disconnect) g g'.

(** The score on record under player id [p] in the game object [r]. *)
Definition scoreOf (s : Server) (r : nat) (p : string) : option Z :=
  match heap s !! r with
  | Some g => match JsMap.get (players g) p with
              | Some player => Some (score player)
              | None => None
              end
  | None => None
  end.

(** [i] is a [joinGame] sent by connection [p]. *)
Definition isJoinOf (p : string) (i : Input) : bool :=
  match i with
  | Cmd socketId (JoinGame _ _) => String.eqb socketId p
  | _ => false
  end.

(** The ids in the player map of the session bound to code [c]. *)
Definition members (s : Server) (c : string) : list string :=
  match getGame s c with
  | Some (_, g) => JsMap.keys (players g)
  | None => []
  end.

(** In the history [tr], connection [p] has sent a [joinGame] for code
    [c] that found a session, and since then [p] has not disconnected
    and no [createGame] has drawn [c] again. *)
Definition joinedAndPresent (tr : list Input) (c p : string) : Prop :=
  ∃ tr1 name tr2,
    tr = tr1 ++ Cmd p (JoinGame c name) :: tr2 ∧
    is_Some (getGame (run initial tr1).1 c) ∧
    ¬ In (Cmd p Disconnect) tr2 ∧
    ∀ socketId qz, ¬ In (Cmd socketId (CreateGame c qz)) tr2.

(** The event names player id [h]: as the player of [playerJoined],
    [playerLeft] or [scoreUpdate], among the correct players or in a
    roster. *)
Definition mentions (h : string) (e : Event) : Prop :=
  match e with
  | PlayerJoined player => player_id player = h
  | PlayerLeft playerId => playerId = h
  | ScoreUpdate playerId _ => playerId = h
  | RevealAnswer _ correctPlayers updatedPlayers =>
      In h correctPlayers ∨ In h (map player_id updatedPlayers)
  | GameOver finalPlayers => In h (map player_id finalPlayers)
  | _ => False
  end.

(** The registry refers to objects of the store, one per code. *)
Definition registryOk (s : Server) : Prop :=
  (∀ c r, JsMap.get (activeGames s) c = Some r → r < length (heap s)) ∧
  (∀ c c' r, JsMap.get (activeGames s) c = Some r →
             JsMap.get (activeGames s) c' = Some r → c = c').

(** Player id [h] is no key of the player map or of the answer record
    of [g], and no player on record carries it. *)
Definition stranger (h : string) (g : Game) : Prop :=
  (∀ k player, In (k, player) (players g) → k ≠ h ∧ player_id player ≠ h) ∧
  (∀ k a, In (k, a) (answers g) → k ≠ h).

Definition strangerToAll (h : string) (s : Server) : Prop :=
  ∀ r g, heap s !! r = Some g → stranger h g.

(** ** Sample sessions

    The quiz of one question of the specification's scenario A, a quiz
    of two questions, and the runs used below as concrete instances. *)

Definition q1 : Question :=
  mkQuestion "q1" "2 + 2 ?" ["1"; "2"; "3"; "4"] 3 5.
Definition q2 : Question :=
  mkQuestion "q2" "3 * 3 ?" ["9"; "6"; "3"; "1"] 0 10.

Definition quizA : Quiz := mkQuiz "A" "one question" [q1].
Definition quizB : Quiz := mkQuiz "B" "two questions" [q1; q2].

(** Host creates the game, a player joins, the host starts the countdown
    and the countdown timeout (handle 0) fires: question 0 is shown and
    its timeout (handle 1) is pending. *)
Definition opening (qz : Quiz) : list Input :=
  [Cmd "host" (CreateGame "k3x9ab" qz);
   Cmd "p1" (JoinGame "k3x9ab" "alice");
   Cmd "host" (StartCountdownCmd "k3x9ab");
   Fire 0].

Definition shownA : Server := (run initial (opening quizA)).1.
Definition shownB : Server := (run initial (opening quizB)).1.

(** The host forces the advance while question 0 of [quizA] is shown:
    the index passes the last question. *)
Definition overA : Server :=
  (run shownA [Cmd "host" (NextQuestion "k3x9ab")]).1.

(** Question 0 of [quizB] is shown and the player has answered it
    correctly. *)
Definition answeredB : Server :=
  (run shownB [Cmd "p1" (SubmitAnswer "k3x9ab" 3)]).1.

(** A whole game of [quizA]: the player answers, the host forces the
    advance, and the player leaves. *)
Definition gameA : list Input :=
  opening quizA ++
  [Cmd "p1" (SubmitAnswer "k3x9ab" 3);
   Cmd "host" (NextQuestion "k3x9ab");
   Cmd "p2" (JoinGame "k3x9ab" "bob");
   Cmd "p1" Disconnect].

(** ** The field writes of the handlers

    Every assignment the handlers and callbacks make to a game object:
    [players.set] of a joining player, [players.set] after
    [score += 1000], [players.delete], [answers.set], [answers.clear],
    [currentQuestion++] and the assignment of [game.timer]. *)
Inductive update : Game → Game → Prop :=
| updJoin g socketId name :
    update g (set_players g
                (JsMap.set (players g) socketId (mkPlayer socketId name 0)))
| updScore g socketId player :
    JsMap.get (players g) socketId = Some player →
    update g (set_players g
                (JsMap.set (players g) socketId
                   (mkPlayer (player_id player) (username player)
                             (score player + 1000))))
| updLeave g socketId :
    update g (set_players g (JsMap.delete (players g) socketId))
| updAnswer g socketId a :
    update g (set_answers g (JsMap.set (answers g) socketId a))
| updClear g :
    update g (set_answers g (JsMap.clear (answers g)))
| updNext g :
    update g (set_currentQuestion g (S (currentQuestion g)))
| updTimer g h :
    update g (set_timer g (Some h)).

(** Every object of [h'] is an object of [h] after some field writes. *)
Definition heapUpdates (h h' : list Game) : Prop :=
  ∀ r g', h' !! r = Some g' → ∃ g, h !! r = Some g ∧ rtc update g g'.

(** The player map and the answer record of [g] have each key once, and
    every player on record carries the key it is stored under as id. *)
Definition mapsOk (g : Game) : Prop :=
  List.NoDup (JsMap.keys (players g)) ∧
  List.NoDup (JsMap.keys (answers g)) ∧
  ∀ k player, In (k, player) (players g) → player_id player = k.

(** Every score on record in [g] is [1000 * n] for a natural [n]. *)
Definition scoresOk (g : Game) : Prop :=
  ∀ k player, In (k, player) (players g) →
    ∃ n : nat, score player = (1000 * Z.of_nat n)%Z.

(** The timer bookkeeping of a store [h], a list [ts] of pending
    timeouts and a next handle [next]: pending handles are below [next]
    and pairwise distinct, the handles kept in [game.timer] are below
    [next], and every pending question timeout of a game object is the
    one whose handle that object keeps in [game.timer]. *)
Definition timersOkOn (h : list Game) (ts : list Timeout) (next : nat) : Prop :=
  (∀ t, In t ts → handle t < next) ∧
  List.NoDup (map handle ts) ∧
  (∀ r g x, h !! r = Some g → timer g = Some x → x < next) ∧
  (∀ t gameId r question,
     In t ts → callback t = QuestionTimeout gameId r question →
     ∃ g, h !! r = Some g ∧ timer g = Some (handle t)).

Definition timersOk (s : Server) : Prop :=
  timersOkOn (heap s) (timeouts s) (nextHandle s).

Definition isQuestionTimeout (cb : Callback) : bool :=
  match cb with QuestionTimeout _ _ _ => true | _ => false end.

(** [game.players.has(socketId)] for the session bound to code [c]. *)
Definition isMember (s : Server) (c socketId : string) : bool :=
  match getGame s c with
  | Some (_, g) => JsMap.has (players g) socketId
  | None => false
  end.

(** The registry has each code once and each reference once, and its
    references are objects of the store. *)
Definition registryDistinct (s : Server) : Prop :=
  List.NoDup (JsMap.keys (activeGames s)) ∧
  List.NoDup (map snd (activeGames s)) ∧
  ∀ c r, In (c, r) (activeGames s) → r < length (heap s).

(** What one visit of the [forEach] emits, read on the store the loop
    started from. *)
Definition leftEvent (socketId : string) (h : list Game) (entry : string * nat)
  : list Emit :=
  match h !! entry.2 with
  | Some game =>
      if JsMap.has (players game) socketId
      then [(ToRoom entry.1, PlayerLeft socketId)] else []
  | None => []
  end.

(** The three early returns of [submitAnswer]. *)
Definition submitIgnored (s : Server) (socketId gameId : string) : Prop :=
  match getGame s gameId with
  | None => True
  | Some (_, game) =>
      JsMap.get (players game) socketId = None ∨
      JsMap.has (answers game) socketId = true
  end.

(** A game has been created and a player has joined; nothing else has
    happened. *)
Definition lobbyB : Server :=
  (run initial [Cmd "host" (CreateGame "k3x9ab" quizB);
                Cmd "p1" (JoinGame "k3x9ab" "alice")]).1.

(** ** The client: the player list of MainApp (client/src/App.tsx)

    The listeners MainApp registers on its socket update the React
    state [players] with functional updates; on the player list they
    are this reducer.  [newQuestion], [revealAnswer] and
    [startCountdown] set other pieces of state and leave [players]
    alone. *)
Definition onEvent (prev : list Player) (e : Event) : list Player :=
  match e with
  | PlayerJoined player => prev ++ [player]
  | PlayerLeft playerId =>
      List.filter (fun p => negb (String.eqb (player_id p) playerId)) prev
  | ScoreUpdate playerId newScore =>
      map (fun p => if String.eqb (player_id p) playerId
                    then mkPlayer (player_id p) (username p) newScore
                    else p) prev
  | GameOver finalPlayers => finalPlayers
  | _ => prev
  end.

(** The player list after the listeners have run on [evs], in order. *)
Definition clientPlayers (view : list Player) (evs : list Event) : list Player :=
  fold_left onEvent evs view.

(** The events sent to room [c], in emission order. *)
Definition roomEvents (c : string) (out : list Emit) : list Event :=
  flat_map (fun e => match e.1 with
                     | ToRoom c' => if String.eqb c' c then [e.2] else []
                     | ToSocket _ => []
                     end) out.

(** The roster of the session bound to [c]; empty when there is none. *)
Definition rosterOf (s : Server) (c : string) : list Player :=
  match getGame s c with
  | Some (_, g) => JsMap.values (players g)
  | None => []
  end.

Definition hasSession (s : Server) (c : string) : bool :=
  match getGame s c with Some _ => true | None => false end.

(** What a timer closure captures. *)
Definition callbackGameId (cb : Callback) : string :=
  match cb with
  | QuestionTimeout gameId _ _ => gameId
  | RevealPause gameId _ => gameId
  | CountdownDone gameId _ => gameId
  end.

Definition callbackGame (cb : Callback) : nat :=
  match cb with
  | QuestionTimeout _ r _ => r
  | RevealPause _ r => r
  | CountdownDone _ r => r
  end.

(** Every pending timeout that emits to room [c] works on the game
    object bound to [c]. *)
Definition timersBound (s : Server) (c : string) : Prop :=
  ∀ t, In t (timeouts s) → callbackGameId (callback t) = c →
       JsMap.get (activeGames s) c = Some (callbackGame (callback t)).

Definition viewInv (s : Server) (c : string) : Prop :=
  registryOk s ∧ registryDistinct s ∧
  (∀ r g, heap s !! r = Some g → mapsOk g) ∧
  timersBound s c.

(** The input does not draw code [c] while [c] has a session, and is
    not a [joinGame] for [c] from a connection already in its player
    map. *)
Definition calmInput (s : Server) (c : string) (i : Input) : bool :=
  match i with
  | Cmd _ (CreateGame random _) => negb (String.eqb random c && hasSession s c)
  | Cmd socketId (JoinGame gameId _) =>
      negb (String.eqb gameId c && isMember s c socketId)
  | _ => true
  end.

Fixpoint calm (s : Server) (c : string) (tr : list Input) : bool :=
  match tr with
  | [] => true
  | i :: tr' => calmInput s c i && calm (state_of (step s i)) c tr'
  end.

(** [players.sort((a, b) => b.score - a.score)] in the render of
    MainApp.  [Array.prototype.sort] is stable and sorts the array it
    is called on in place, so a render leaves the state [players]
    itself ordered by decreasing score, players of equal score in the
    order they had.  The stable result is computed here by insertion
    from the right. *)
Fixpoint insertByScore (p : Player) (l : list Player) : list Player :=
  match l with
  | [] => [p]
  | q :: l' =>
      if Z.ltb (score p) (score q) then q :: insertByScore p l'
      else p :: q :: l'
  end.

Definition sortByScore (l : list Player) : list Player :=
  fold_right insertByScore [] l.

(** What happens to the state [players] of a client: a listener runs on
    an event, or the component renders. *)
Inductive ClientAct :=
| Listen (e : Event)
| Render.

Definition clientAct (view : list Player) (a : ClientAct) : list Player :=
  match a with
  | Listen e => onEvent view e
  | Render => sortByScore view
  end.

Definition clientRun (view : list Player) (acts : list ClientAct) : list Player :=
  fold_left clientAct acts view.

(** The events the client has listened to, in order. *)
Definition heard (acts : list ClientAct) : list Event :=
  flat_map (fun a => match a with Listen e => [e] | Render => [] end) acts.

(** ** The client: the question form of CreateGame (client/src/App.tsx)

    The state [questions] is a list of [Partial<Question>]; the four
    updaters are the functional updates passed to [setQuestions], and
    [formQuiz] is the quiz [createGame] builds from the form when the
    JSON box is empty.  Numbers typed into the form are integers
    here. *)
Record PartialQuestion := mkPartial {
  p_id : option string;
  p_text : option string;
  p_options : option (list string);
  p_correctAnswer : option Z;
  p_timeLimit : option Z
}.

Definition blankQuestion : PartialQuestion :=
  mkPartial None (Some "") (Some [""; ""; ""; ""]) (Some 0%Z) (Some 30%Z).

Definition initialForm : list PartialQuestion := [blankQuestion].

(** The [field]/[value] pairs the inputs pass to [handleQuestionChange]. *)
Inductive FieldValue :=
| TextValue (v : string)
| CorrectAnswerValue (v : Z)
| TimeLimitValue (v : Z).

Definition setField (q : PartialQuestion) (fv : FieldValue) : PartialQuestion :=
  match fv with
  | TextValue v =>
      mkPartial (p_id q) (Some v) (p_options q) (p_correctAnswer q) (p_timeLimit q)
  | CorrectAnswerValue v =>
      mkPartial (p_id q) (p_text q) (p_options q) (Some v) (p_timeLimit q)
  | TimeLimitValue v =>
      mkPartial (p_id q) (p_text q) (p_options q) (p_correctAnswer q) (Some v)
  end.

Definition handleQuestionChange (idx : nat) (fv : FieldValue)
  (prev : list PartialQuestion) : list PartialQuestion :=
  imap (fun i q => if Nat.eqb i idx then setField q fv else q) prev.

Definition handleOptionChange (qIdx optIdx : nat) (value : string)
  (prev : list PartialQuestion) : list PartialQuestion :=
  imap (fun i q =>
          if Nat.eqb i qIdx then
            mkPartial (p_id q) (p_text q)
              (option_map
                 (imap (fun oi o => if Nat.eqb oi optIdx then value else o))
                 (p_options q))
              (p_correctAnswer q) (p_timeLimit q)
          else q) prev.

Definition addQuestion (prev : list PartialQuestion) : list PartialQuestion :=
  prev ++ [blankQuestion].

(** [prev.filter((_, i) => keep(i))], the first element having index [n]. *)
Fixpoint filterIndexed {A : Type} (keep : nat → bool) (n : nat) (l : list A)
  : list A :=
  match l with
  | [] => []
  | x :: l' =>
      if keep n then x :: filterIndexed keep (S n) l'
      else filterIndexed keep (S n) l'
  end.

Definition removeQuestion (idx : nat) (prev : list PartialQuestion)
  : list PartialQuestion :=
  if Nat.ltb 1 (length prev)
  then filterIndexed (fun i => negb (Nat.eqb i idx)) 0 prev
  else prev.

(** The [questions.map] of [createGame] with its defaults; [||] on a
    string takes the default for [undefined] and for the empty string,
    which is the default itself. *)
Definition formQuestions (form : list PartialQuestion) : list Question :=
  imap (fun idx q =>
          mkQuestion (pretty (idx + 1))
                     (default "" (p_text q))
                     (default [""; ""; ""; ""] (p_options q))
                     (default 0%Z (p_correctAnswer q))
                     (default 30%Z (p_timeLimit q))) form.

Definition formQuiz (form : list PartialQuestion) : Quiz :=
  mkQuiz "1" "Custom Quiz" (formQuestions form).

Inductive FormAct :=
| ChangeField (idx : nat) (fv : FieldValue)
| ChangeOption (qIdx optIdx : nat) (value : string)
| AddQuestion
| RemoveQuestion (idx : nat).

Definition formAct (form : list PartialQuestion) (a : FormAct)
  : list PartialQuestion :=
  match a with
  | ChangeField idx fv => handleQuestionChange idx fv form
  | ChangeOption qIdx optIdx value => handleOptionChange qIdx optIdx value form
  | AddQuestion => addQuestion form
  | RemoveQuestion idx => removeQuestion idx form
  end.

(** A question of the form with its four option strings and its text,
    correct index and time limit all set. *)
Definition filledIn (q : PartialQuestion) : Prop :=
  (∃ opts, p_options q = Some opts ∧ length opts = 4) ∧
  is_Some (p_text q) ∧ is_Some (p_correctAnswer q) ∧ is_Some (p_timeLimit q).

(** * Properties *)

(** ** Facts about [JsMap] *)

Section JsMapFacts.
Context {V : Type}.
Implicit Types (m : JsMap.t V) (k : string) (v : V).

Lemma get_set_eq m k v : JsMap.get (JsMap.set m k v) k = Some v.
Proof.
  induction m as [|[k' v'] m IH]; simpl.
  - now rewrite String.eqb_refl.
  - destruct (String.eqb k' k) eqn:E; simpl.
    + now rewrite String.eqb_refl.
    + now rewrite E.
Qed.

Lemma get_set_ne m k k0 v : k ≠ k0 → JsMap.get (JsMap.set m k v) k0 = JsMap.get m k0.
Proof.
  intros Hne. induction m as [|[k' v'] m IH]; simpl.
  - apply String.eqb_neq in Hne. now rewrite Hne.
  - destruct (String.eqb k' k) eqn:E; simpl.
    + apply String.eqb_eq in E. subst k'.
      apply String.eqb_neq in Hne. now rewrite Hne.
    + destruct (String.eqb k' k0); [reflexivity | exact IH].
Qed.

Lemma has_true m k : JsMap.has m k = true ↔ ∃ v, JsMap.get m k = Some v.
Proof.
  unfold JsMap.has. destruct (JsMap.get m k).
  - split; eauto.
  - split; [discriminate | intros [? ?]; discriminate].
Qed.

Lemma has_false m k : JsMap.has m k = false ↔ JsMap.get m k = None.
Proof.
  unfold JsMap.has. destruct (JsMap.get m k); split; congruence.
Qed.

Lemma get_Some_In m k v : JsMap.get m k = Some v → In (k, v) m.
Proof.
  induction m as [|[k' v'] m IH]; simpl; [discriminate|].
  destruct (String.eqb k' k) eqn:E.
  - apply String.eqb_eq in E. intros [= ->]. subst. now left.
  - intros H. right. auto.
Qed.

Lemma get_Some_keys m k : (∃ v, JsMap.get m k = Some v) ↔ In k (JsMap.keys m).
Proof.
  induction m as [|[k' v'] m IH]; simpl.
  - split; [intros [? ?]; discriminate | tauto].
  - destruct (String.eqb k' k) eqn:E.
    + apply String.eqb_eq in E. split; eauto.
    + apply String.eqb_neq in E. rewrite IH. tauto.
Qed.

Lemma In_set m k v e : In e (JsMap.set m k v) → e = (k, v) ∨ In e m.
Proof.
  induction m as [|[k' v'] m IH]; simpl.
  - intros [<-|[]]. now left.
  - destruct (String.eqb k' k); simpl; intros [<-|H]; auto.
    destruct (IH H); auto.
Qed.

Lemma keys_set m k v k0 :
  In k0 (JsMap.keys (JsMap.set m k v)) ↔ k0 = k ∨ In k0 (JsMap.keys m).
Proof.
  induction m as [|[k' v'] m IH]; simpl.
  - intuition.
  - destruct (String.eqb k' k) eqn:E; simpl.
    + apply String.eqb_eq in E. subst. intuition.
    + rewrite IH. intuition.
Qed.

Lemma keys_set_present m k v :
  In k (JsMap.keys m) → JsMap.keys (JsMap.set m k v) = JsMap.keys m.
Proof.
  induction m as [|[k' v'] m IH]; simpl; [tauto|].
  destruct (String.eqb k' k) eqn:E; simpl.
  - apply String.eqb_eq in E. now subst.
  - apply String.eqb_neq in E. intros [H|H]; [congruence|].
    now rewrite IH.
Qed.

Lemma In_delete m k e : In e (JsMap.delete m k) → In e m ∧ e.1 ≠ k.
Proof.
  induction m as [|[k' v'] m IH]; simpl; [tauto|].
  destruct (String.eqb k' k) eqn:E.
  - intros H. destruct (IH H). auto.
  - apply String.eqb_neq in E. intros [<-|H]; simpl; auto.
    destruct (IH H). auto.
Qed.

Lemma keys_delete m k k0 :
  In k0 (JsMap.keys (JsMap.delete m k)) ↔ In k0 (JsMap.keys m) ∧ k0 ≠ k.
Proof.
  induction m as [|[k' v'] m IH]; simpl; [tauto|].
  destruct (String.eqb k' k) eqn:E.
  - apply String.eqb_eq in E. subst. rewrite IH. intuition. congruence.
  - apply String.eqb_neq in E. simpl. rewrite IH. intuition. congruence.
Qed.

Lemma get_delete_ne m k k0 :
  k ≠ k0 → JsMap.get (JsMap.delete m k) k0 = JsMap.get m k0.
Proof.
  intros Hne. induction m as [|[k' v'] m IH]; simpl; [reflexivity|].
  destruct (String.eqb k' k) eqn:E; simpl.
  - apply String.eqb_eq in E. subst k'.
    apply String.eqb_neq in Hne. now rewrite Hne.
  - now rewrite IH.
Qed.

Lemma get_delete_eq m k : JsMap.get (JsMap.delete m k) k = None.
Proof.
  induction m as [|[k' v'] m IH]; simpl; [reflexivity|].
  destruct (String.eqb k' k) eqn:E; simpl; [exact IH|]. now rewrite E.
Qed.
End JsMapFacts.

(** ** Reading the store after a write *)

Lemma getGame_heap s gameId r g :
  getGame s gameId = Some (r, g) →
  JsMap.get (activeGames s) gameId = Some r ∧ heap s !! r = Some g.
Proof.
  unfold getGame. destruct (JsMap.get (activeGames s) gameId) as [r'|]; [|discriminate].
  destruct (heap s !! r') as [g'|] eqn:E; [|discriminate].
  now intros [= <- <-].
Qed.

Lemma getGame_putGame s gameId r g g' :
  getGame s gameId = Some (r, g) →
  getGame (putGame s r g') gameId = Some (r, g').
Proof.
  intros H. apply getGame_heap in H as [Ha Hh].
  unfold getGame, putGame. simpl. rewrite Ha.
  rewrite list_lookup_insert_eq; [reflexivity|].
  eapply lookup_lt_Some; eauto.
Qed.

(** ** startQuestionTimer writes the [timer] field only *)

Lemma startQuestionTimer_heap (s : Server) (gameId : string) :
  heap (startQuestionTimer s gameId) = heap s ∨
  ∃ r g h, heap s !! r = Some g ∧
           heap (startQuestionTimer s gameId)
             = <[r := set_timer g (Some h)]> (heap s).
Proof.
  unfold startQuestionTimer.
  destruct (getGame s gameId) as [[r g]|] eqn:Hg; [|now left].
  destruct (questions (quiz g) !! currentQuestion g); [|now left].
  apply getGame_heap in Hg as [_ Hh].
  right. exists r, g. destruct (timer g); simpl; eauto.
Qed.

Lemma startQuestionTimer_activeGames (s : Server) (gameId : string) :
  activeGames (startQuestionTimer s gameId) = activeGames s.
Proof.
  unfold startQuestionTimer.
  destruct (getGame s gameId) as [[r g]|]; [|reflexivity].
  destruct (questions (quiz g) !! currentQuestion g); [|reflexivity].
  now destruct (timer g).
Qed.

Lemma startQuestionTimer_lookup (s : Server) (gameId : string) (r : nat) (g : Game) :
  heap s !! r = Some g →
  ∃ g', heap (startQuestionTimer s gameId) !! r = Some g' ∧ sameButTimer g g'.
Proof.
  intros Hr.
  destruct (startQuestionTimer_heap s gameId) as [->|(r0 & g0 & h & H0 & ->)].
  - exists g. repeat split; auto.
  - destruct (decide (r0 = r)) as [->|Hne].
    + rewrite list_lookup_insert_eq by (eapply lookup_lt_Some; eauto).
      assert (g0 = g) by congruence. subst g0.
      eexists. split; [reflexivity|]. repeat split.
    + rewrite list_lookup_insert_ne by exact Hne.
      exists g. repeat split; auto.
Qed.

Lemma startQuestionTimer_lookup_inv (s : Server) (gameId : string) (r : nat) (g' : Game) :
  heap (startQuestionTimer s gameId) !! r = Some g' →
  ∃ g, heap s !! r = Some g ∧ sameButTimer g g'.
Proof.
  intros Hr.
  destruct (heap s !! r) as [g|] eqn:E.
  - destruct (startQuestionTimer_lookup s gameId r g E) as (g1 & H1 & Hs).
    exists g. split; [reflexivity|]. congruence.
  - exfalso.
    destruct (startQuestionTimer_heap s gameId) as [Heq|(r0 & g0 & h & H0 & Heq)];
      rewrite Heq in Hr.
    + congruence.
    + apply lookup_lt_Some in Hr. rewrite length_insert in Hr.
      apply lookup_ge_None in E. lia.
Qed.

Lemma fire_pending (s : Server) (h : nat) (t : Timeout) :
  List.find (fun t => Nat.eqb (handle t) h) (timeouts s) = Some t →
  fire s h = runCallback (clearTimeout s h) (callback t).
Proof. intros H. unfold fire. now rewrite H. Qed.

(** ** submitAnswer *)

(** C3 (counterexample).  The handler does not test "first answer of
    the round" but "no answer on record", and the record is cleared at
    reveal only, not when a question is shown.
    - Question 0 times out and is revealed; during the 3000 ms pause the
      player sends index 1 (wrong, no points); the pause ends and
      question 1 is shown.  The player's first answer to question 1,
      its correct index 0, is then ignored: state unchanged, nothing
      emitted, score still 0.
    - The same after an answer sent before the game has started: the
      player's first answer to question 0 once it is shown, its correct
      index 3, is ignored. *)
Lemma submitAnswer_first_of_round_counterexample :
  let paused := run initial (opening quizB ++
                             [Fire 1; Cmd "p1" (SubmitAnswer "k3x9ab" 1); Fire 2]) in
  let lobby := run initial [Cmd "host" (CreateGame "k3x9ab" quizB);
                            Cmd "p1" (JoinGame "k3x9ab" "alice");
                            Cmd "p1" (SubmitAnswer "k3x9ab" 1);
                            Cmd "host" (StartCountdownCmd "k3x9ab");
                            Fire 0] in
  (paused.2
   = [(ToSocket "host", GameCreated "k3x9ab");
      (ToRoom "k3x9ab", PlayerJoined (mkPlayer "p1" "alice" 0));
      (ToRoom "k3x9ab", StartCountdown);
      (ToRoom "k3x9ab", NewQuestion q1 5);
      (ToRoom "k3x9ab", RevealAnswer 3 [] [mkPlayer "p1" "alice" 0]);
      (ToRoom "k3x9ab", NewQuestion q2 10)] ∧
   getGame paused.1 "k3x9ab"
   = Some (0, mkGame [("p1", mkPlayer "p1" "alice" 0)] 1 quizB
                     [("p1", 1%Z)] (Some 3)) ∧
   questions quizB !! 1 = Some q2 ∧ correctAnswer q2 = 0%Z ∧
   step paused.1 (Cmd "p1" (SubmitAnswer "k3x9ab" 0)) = (paused.1, [], Returned) ∧
   scoreOf paused.1 0 "p1" = Some 0%Z) ∧
  (lobby.2
   = [(ToSocket "host", GameCreated "k3x9ab");
      (ToRoom "k3x9ab", PlayerJoined (mkPlayer "p1" "alice" 0));
      (ToRoom "k3x9ab", StartCountdown);
      (ToRoom "k3x9ab", NewQuestion q1 5)] ∧
   getGame lobby.1 "k3x9ab"
   = Some (0, mkGame [("p1", mkPlayer "p1" "alice" 0)] 0 quizB
                     [("p1", 1%Z)] (Some 1)) ∧
   questions quizB !! 0 = Some q1 ∧ correctAnswer q1 = 3%Z ∧
   step lobby.1 (Cmd "p1" (SubmitAnswer "k3x9ab" 3)) = (lobby.1, [], Returned) ∧
   scoreOf lobby.1 0 "p1" = Some 0%Z).
Proof.
  split; split_and!; reflexivity.
Qed.

(** C3 (amended).  A [submitAnswer] by a known player who has no answer
    on record (the record is write-once and is cleared at each reveal),
    on a session whose current question exists, records the answer;
    when the index is the question's [correctAnswer] the player's score
    grows by exactly 1000 and one [scoreUpdate] with the player's id and
    the new score goes to the room; when it is not, the player map is
    unchanged and nothing is emitted.  Nothing but the session's own
    object is written. *)
Theorem submitAnswer_first_valid
  (s : Server) (socketId gameId : string) (a : Z)
  (r : nat) (game : Game) (player : Player) (current : Question) :
  getGame s gameId = Some (r, game) →
  JsMap.get (players game) socketId = Some player →
  JsMap.has (answers game) socketId = false →
  questions (quiz game) !! currentQuestion game = Some current →
  let o := step s (Cmd socketId (SubmitAnswer gameId a)) in
  completion o = Returned ∧
  ∃ game',
    state_of o = putGame s r game' ∧
    getGame (state_of o) gameId = Some (r, game') ∧
    JsMap.get (answers game') socketId = Some a ∧
    (a = correctAnswer current →
       JsMap.get (players game') socketId
         = Some (mkPlayer (player_id player) (username player)
                          (score player + 1000)) ∧
       (∀ k, k ≠ socketId →
             JsMap.get (players game') k = JsMap.get (players game) k) ∧
       emitted o = [(ToRoom gameId, ScoreUpdate socketId (score player + 1000))]) ∧
    (a ≠ correctAnswer current →
       players game' = players game ∧ emitted o = []).
Proof.
  intros Hg Hp Ha Hq o. subst o. simpl. unfold submitAnswer.
  rewrite Hg, Hp, Ha. simpl. rewrite Hq.
  destruct (Z.eqb_spec a (correctAnswer current)) as [E|E].
  - split; [reflexivity|]. eexists. split; [reflexivity|].
    split; [now apply getGame_putGame with (g := game)|].
    split; [apply get_set_eq|]. split; [|congruence].
    intros _. simpl. split; [apply get_set_eq|].
    split; [|reflexivity]. intros k Hk. apply get_set_ne. congruence.
  - split; [reflexivity|]. eexists. split; [reflexivity|].
    split; [now apply getGame_putGame with (g := game)|].
    split; [apply get_set_eq|]. split; [congruence|].
    intros _. split; reflexivity.
Qed.

Lemma submitAnswer_first_valid_witness :
  (∃ game',
     getGame (state_of (step shownA (Cmd "p1" (SubmitAnswer "k3x9ab" 3))))
             "k3x9ab" = Some (0, game') ∧
     JsMap.get (players game') "p1" = Some (mkPlayer "p1" "alice" 1000)) ∧
  emitted (step shownA (Cmd "p1" (SubmitAnswer "k3x9ab" 3)))
    = [(ToRoom "k3x9ab", ScoreUpdate "p1" 1000)].
Proof.
  destruct (submitAnswer_first_valid shownA "p1" "k3x9ab" 3 0
              (mkGame [("p1", mkPlayer "p1" "alice" 0)] 0 quizA [] (Some 1))
              (mkPlayer "p1" "alice" 0) q1
              eq_refl eq_refl eq_refl eq_refl)
    as (_ & game' & _ & Hg & _ & Hyes & _).
  destruct (Hyes eq_refl) as (Hp & _ & He).
  split; [exists game'; split; [exact Hg | exact Hp] | exact He].
Defined.

Lemma submitAnswer_answered_noop
  (s : Server) (socketId gameId : string) (a : Z) (r : nat) (game : Game) :
  getGame s gameId = Some (r, game) →
  JsMap.has (answers game) socketId = true →
  submitAnswer s socketId gameId a = (s, [], Returned).
Proof.
  intros Hg Ha. unfold submitAnswer. rewrite Hg, Ha.
  now destruct (JsMap.get (players game) socketId).
Qed.

Lemma submitAnswer_records
  (s : Server) (socketId gameId : string) (a : Z)
  (r : nat) (game : Game) (player : Player) :
  getGame s gameId = Some (r, game) →
  JsMap.get (players game) socketId = Some player →
  JsMap.has (answers game) socketId = false →
  ∃ game1,
    getGame (state_of (submitAnswer s socketId gameId a)) gameId
      = Some (r, game1) ∧
    answers game1 = JsMap.set (answers game) socketId a.
Proof.
  intros Hg Hp Ha. unfold submitAnswer. rewrite Hg, Hp, Ha. simpl.
  destruct (questions (quiz game) !! currentQuestion game) as [cur|].
  - destruct (Z.eqb a (correctAnswer cur)); eexists;
      (split; [now apply getGame_putGame with (g := game) | reflexivity]).
  - eexists. split; [now apply getGame_putGame with (g := game) | reflexivity].
Qed.



(** C5 (what the handler does where the claim asks for a silent
    no-op).  With no question at the current index (the index has
    passed the last question), a [submitAnswer] of a known player who
    has no answer on record first writes the answer into the record and
    then throws a [TypeError] reading [correctAnswer] of [undefined]:
    the state has changed and the handler has not returned. *)
Theorem submitAnswer_no_question_throws
  (s : Server) (socketId gameId : string) (a : Z)
  (r : nat) (game : Game) (player : Player) :
  getGame s gameId = Some (r, game) →
  JsMap.get (players game) socketId = Some player →
  JsMap.has (answers game) socketId = false →
  questions (quiz game) !! currentQuestion game = None →
  let o := step s (Cmd socketId (SubmitAnswer gameId a)) in
  completion o = TypeError ∧
  emitted o = [] ∧
  state_of o
    = putGame s r (set_answers game (JsMap.set (answers game) socketId a)) ∧
  state_of o ≠ s.
Proof.
  intros Hg Hp Ha Hq o. subst o. simpl. unfold submitAnswer.
  rewrite Hg, Hp, Ha. simpl. rewrite Hq. simpl.
  repeat split. intros Heq. unfold state_of in Heq. simpl in Heq.
  pose proof (getGame_putGame s gameId r game
                (set_answers game (JsMap.set (answers game) socketId a)) Hg) as H1.
  rewrite Heq, Hg in H1. injection H1 as H1.
  apply (f_equal answers) in H1. simpl in H1.
  apply has_false in Ha. rewrite H1, get_set_eq in Ha. discriminate.
Qed.

Lemma submitAnswer_no_question_throws_witness :
  currentQuestion (mkGame [("p1", mkPlayer "p1" "alice" 0)] 1 quizA [] (Some 1))
    = length (questions quizA) ∧
  completion (step overA (Cmd "p1" (SubmitAnswer "k3x9ab" 3))) = TypeError ∧
  state_of (step overA (Cmd "p1" (SubmitAnswer "k3x9ab" 3))) ≠ overA.
Proof.
  split; [reflexivity|].
  destruct (submitAnswer_no_question_throws overA "p1" "k3x9ab" 3 0
              (mkGame [("p1", mkPlayer "p1" "alice" 0)] 1 quizA [] (Some 1))
              (mkPlayer "p1" "alice" 0) eq_refl eq_refl eq_refl eq_refl)
    as (Hc & _ & _ & Hs).
  split; [exact Hc | exact Hs].
Defined.

(** ** joinGame *)

(** C9. A [joinGame] on an existing session from a connection whose id
    is already a key of the player map is not rejected: the entry is
    replaced, where it stands, by a fresh player with the new username
    and score 0, the other entries are untouched, and [playerJoined]
    with that fresh player goes to the room again. *)
Theorem joinGame_again_resets
  (s : Server) (socketId gameId name : string)
  (r : nat) (game : Game) (old : Player) :
  getGame s gameId = Some (r, game) →
  JsMap.get (players game) socketId = Some old →
  let o := step s (Cmd socketId (JoinGame gameId name)) in
  completion o = Returned ∧
  emitted o = [(ToRoom gameId, PlayerJoined (mkPlayer socketId name 0))] ∧
  ∃ game',
    getGame (state_of o) gameId = Some (r, game') ∧
    JsMap.get (players game') socketId = Some (mkPlayer socketId name 0) ∧
    JsMap.keys (players game') = JsMap.keys (players game) ∧
    (∀ k, k ≠ socketId →
          JsMap.get (players game') k = JsMap.get (players game) k) ∧
    answers game' = answers game ∧
    currentQuestion game' = currentQuestion game.
Proof.
  intros Hg Hp o. subst o. simpl. unfold joinGame. rewrite Hg. simpl.
  repeat split. eexists. split.
  - unfold socket_join, getGame. simpl.
    apply getGame_heap in Hg as [Ha Hh]. rewrite Ha.
    rewrite list_lookup_insert_eq; [reflexivity|].
    eapply lookup_lt_Some; eauto.
  - simpl. split; [apply get_set_eq|]. split.
    + apply keys_set_present. apply get_Some_keys. eauto.
    + split; [|split; reflexivity].
      intros k Hk. apply get_set_ne. congruence.
Qed.

Lemma joinGame_again_resets_witness :
  let s := state_of (step shownA (Cmd "p1" (SubmitAnswer "k3x9ab" 3))) in
  (∃ g, getGame s "k3x9ab" = Some (0, g) ∧
        JsMap.get (players g) "p1" = Some (mkPlayer "p1" "alice" 1000)) ∧
  ∃ g', getGame (state_of (step s (Cmd "p1" (JoinGame "k3x9ab" "alice2"))))
                "k3x9ab" = Some (0, g') ∧
        JsMap.get (players g') "p1" = Some (mkPlayer "p1" "alice2" 0).
Proof.
  intros s. split; [eexists; split; reflexivity|].
  destruct (joinGame_again_resets s "p1" "k3x9ab" "alice2" 0
              (mkGame [("p1", mkPlayer "p1" "alice" 1000)] 0 quizA
                      [("p1", 3%Z)] (Some 1))
              (mkPlayer "p1" "alice" 1000) eq_refl eq_refl)
    as (_ & _ & g' & Hg & Hp & _).
  exists g'. split; [exact Hg | exact Hp].
Defined.

(** ** createGame *)

(** C7 (counterexample).  The code drawn is not compared with the codes
    in use: when the draw equals the code of a session that has a
    player, that code is bound to the new, empty game and the session
    that was there can no longer be reached by its code. *)
Lemma createGame_collision_counterexample :
  let s := (run initial [Cmd "host" (CreateGame "k3x9ab" quizA);
                         Cmd "p1" (JoinGame "k3x9ab" "alice")]).1 in
  let o := step s (Cmd "host2" (CreateGame "k3x9ab" quizB)) in
  JsMap.has (activeGames s) "k3x9ab" = true ∧
  getGame s "k3x9ab"
    = Some (0, mkGame [("p1", mkPlayer "p1" "alice" 0)] 0 quizA [] None) ∧
  getGame (state_of o) "k3x9ab" = Some (1, mkGame [] 0 quizB [] None) ∧
  getGame (state_of o) "k3x9ab" ≠ getGame s "k3x9ab".
Proof.
  repeat split. discriminate.
Qed.

(** C7 (amended).  [createGame] takes the drawn code as it is, returns,
    and answers [gameCreated] with it to the caller.  The code is bound
    to a new game with an empty player map, an empty answer record, no
    timer and [currentQuestion = 0], the index of the first question.
    Every other code keeps its binding, every game object already in the
    store is left as it was, and no timeout is touched; so an existing
    session is lost exactly when the draw equals its code. *)
Theorem createGame_binds_new_game
  (s : Server) (socketId random : string) (qz : Quiz) :
  let o := step s (Cmd socketId (CreateGame random qz)) in
  completion o = Returned ∧
  emitted o = [(ToSocket socketId, GameCreated random)] ∧
  getGame (state_of o) random
    = Some (length (heap s), mkGame JsMap.empty 0 qz JsMap.empty None) ∧
  (∀ c, c ≠ random →
        JsMap.get (activeGames (state_of o)) c = JsMap.get (activeGames s) c) ∧
  (∀ r g, heap s !! r = Some g → heap (state_of o) !! r = Some g) ∧
  timeouts (state_of o) = timeouts s.
Proof.
  simpl. unfold createGame, state_of, emitted, completion. simpl.
  repeat split.
  - unfold getGame. simpl. rewrite get_set_eq.
    rewrite lookup_app_r by lia. now rewrite Nat.sub_diag.
  - intros c Hc. apply get_set_ne. congruence.
  - intros r g Hr. rewrite lookup_app_l; [exact Hr|].
    eapply lookup_lt_Some; eauto.
Qed.

(** ** startCountdown *)

(** C8 (counterexample).  On a game that has started (question 0 is
    shown and its timeout is pending) [startCountdown] is not ignored:
    the room gets [startCountdown], a timeout is added, and when it
    fires the room gets [newQuestion] for question 0 again and the
    question timeout is replaced by a new one. *)
Lemma startCountdown_started_counterexample :
  let o := step shownB (Cmd "host" (StartCountdownCmd "k3x9ab")) in
  let o' := step (state_of o) (Fire 2) in
  getGame shownB "k3x9ab"
    = Some (0, mkGame [("p1", mkPlayer "p1" "alice" 0)] 0 quizB [] (Some 1)) ∧
  map handle (timeouts shownB) = [1] ∧
  emitted o = [(ToRoom "k3x9ab", StartCountdown)] ∧
  map handle (timeouts (state_of o)) = [1; 2] ∧
  state_of o ≠ shownB ∧
  emitted o' = [(ToRoom "k3x9ab", NewQuestion q1 5)] ∧
  map handle (timeouts (state_of o')) = [3].
Proof.
  repeat split. discriminate.
Qed.

(** C8 (amended).  [startCountdown] does not look at the progress of
    the game.  For a code with no session it does nothing.  For any
    existing session it returns after emitting [startCountdown] to the
    room and scheduling one 5000 ms timeout, with games and bindings
    untouched.  When that timeout's callback runs, it emits
    [newQuestion] for the question at the current index and restarts the
    question timer if the index is inside the quiz, and does nothing if
    the index has passed the last question. *)
Theorem startCountdown_any_progress
  (s : Server) (socketId gameId : string) :
  let o := step s (Cmd socketId (StartCountdownCmd gameId)) in
  match getGame s gameId with
  | None => o = (s, [], Returned)
  | Some (r, game) =>
      completion o = Returned ∧
      emitted o = [(ToRoom gameId, StartCountdown)] ∧
      heap (state_of o) = heap s ∧
      activeGames (state_of o) = activeGames s ∧
      timeouts (state_of o)
        = timeouts s ++ [mkTimeout (nextHandle s) 5000 (CountdownDone gameId r)] ∧
      ∀ s' game', heap s' !! r = Some game' →
        match questions (quiz game') !! currentQuestion game' with
        | None => runCallback s' (CountdownDone gameId r) = (s', [], Returned)
        | Some question =>
            runCallback s' (CountdownDone gameId r)
              = (startQuestionTimer s' gameId,
                 [(ToRoom gameId, NewQuestion question (timeLimit question))],
                 Returned)
        end
  end.
Proof.
  simpl. unfold startCountdown.
  destruct (getGame s gameId) as [[r game]|]; [|reflexivity].
  simpl. repeat split.
  intros s' game' Hh. simpl. rewrite Hh.
  now destruct (questions (quiz game') !! currentQuestion game').
Qed.

Lemma startCountdown_any_progress_witness :
  emitted (step shownB (Cmd "host" (StartCountdownCmd "k3x9ab")))
    = [(ToRoom "k3x9ab", StartCountdown)] ∧
  runCallback overA (CountdownDone "k3x9ab" 0) = (overA, [], Returned).
Proof.
  pose proof (startCountdown_any_progress shownB "host" "k3x9ab") as H.
  change (getGame shownB "k3x9ab")
    with (Some (0, mkGame [("p1", mkPlayer "p1" "alice" 0)] 0 quizB []
                          (Some 1))) in H.
  destruct H as (_ & He & _ & _ & _ & Hcb).
  split; [exact He|].
  exact (Hcb overA (mkGame [("p1", mkPlayer "p1" "alice" 0)] 1 quizA []
                           (Some 1)) eq_refl).
Defined.

(** ** The question timer under forced advances *)

(** C1 (what the code does).  One question, shown, its timeout (handle
    1) pending.  The host sends one [nextQuestion] before it fires: one
    [revealAnswer] and [gameOver] are emitted, and the handler returns
    at [gameOver] without clearing the timeout, which stays pending.
    When it fires, a second [revealAnswer] is emitted, and its 3000 ms
    follow-up emits a second [gameOver]: one forced advance, two
    reveals.  With two questions, a [nextQuestion] sent during the
    reveal pause leaves two timeouts pending at once, the untracked
    pause timeout and the new question timeout. *)
Theorem forced_advance_stale_timer :
  let forced := run shownA [Cmd "host" (NextQuestion "k3x9ab")] in
  let later := run forced.1 [Fire 1; Fire 2] in
  let paused := run shownB [Fire 1; Cmd "host" (NextQuestion "k3x9ab")] in
  map handle (timeouts shownA) = [1] ∧
  reveals forced.2 = 1 ∧ gameOvers forced.2 = 1 ∧
  map callback (timeouts forced.1) = [QuestionTimeout "k3x9ab" 0 q1] ∧
  reveals (forced.2 ++ later.2) = 2 ∧ gameOvers (forced.2 ++ later.2) = 2 ∧
  map callback (timeouts paused.1)
    = [RevealPause "k3x9ab" 0; QuestionTimeout "k3x9ab" 0 q2].
Proof.
  repeat split.
Qed.

Lemma correctPlayersOf_spec (a : JsMap.t Z) (question : Question) (p : string) :
  In p (correctPlayersOf a question)
  ↔ In (p, correctAnswer question) (JsMap.entries a).
Proof.
  unfold correctPlayersOf, JsMap.entries. rewrite in_map_iff. split.
  - intros ([k v] & <- & Hin). apply filter_In in Hin as [Hin Hv].
    simpl in *. apply Z.eqb_eq in Hv. now subst.
  - intros Hin. exists (p, correctAnswer question). split; [reflexivity|].
    apply filter_In. split; [exact Hin | apply Z.eqb_refl].
Qed.

(** The object just written, read back after [startQuestionTimer]. *)
Ltac after_restart g' Hg' Hp Hc Han :=
  match goal with
  | |- context [startQuestionTimer (putGame ?s0 ?r0 ?g0) ?gid] =>
      destruct (startQuestionTimer_lookup (putGame s0 r0 g0) gid r0 g0)
        as (g' & Hg' & Hp & Hc & _ & Han);
      [unfold putGame; simpl; apply list_lookup_insert_eq; assumption|]
  end.

(** C2. An advance on a session whose current question exists.
    The correct players listed are the ids whose entry in the answer
    record carries the question's [correctAnswer].
    - A [nextQuestion] command emits one [revealAnswer] with that
      index, those ids and the whole player map, then [gameOver] with
      the player map if the incremented index has passed the last
      question and [newQuestion] with the next question and its time
      limit otherwise; the answer record is left empty, the index is
      incremented and the player map is as it was.
    - The question timeout of the current question, when it fires,
      emits the same single [revealAnswer], empties the answer record
      and schedules the 3000 ms pause; that pause, when it fires,
      increments the index and emits [gameOver] or [newQuestion] in the
      same way. *)
Theorem advance_reveals_then_moves_on
  (s : Server) (gameId : string) (r : nat) (game : Game) (current : Question) :
  heap s !! r = Some game →
  questions (quiz game) !! currentQuestion game = Some current →
  let reveal :=
    (ToRoom gameId,
     RevealAnswer (correctAnswer current)
                  (correctPlayersOf (answers game) current)
                  (JsMap.values (players game))) in
  let moveOn (g : Game) :=
    (ToRoom gameId,
     match questions (quiz g) !! S (currentQuestion g) with
     | None => GameOver (JsMap.values (players g))
     | Some next => NewQuestion next (timeLimit next)
     end) in
  (∀ p, In p (correctPlayersOf (answers game) current)
        ↔ In (p, correctAnswer current) (JsMap.entries (answers game))) ∧
  (∀ socketId,
     JsMap.get (activeGames s) gameId = Some r →
     let o := step s (Cmd socketId (NextQuestion gameId)) in
     completion o = Returned ∧
     emitted o = [reveal; moveOn game] ∧
     ∃ game', heap (state_of o) !! r = Some game' ∧
              answers game' = [] ∧
              currentQuestion game' = S (currentQuestion game) ∧
              players game' = players game) ∧
  (∀ h t,
     List.find (fun t => Nat.eqb (handle t) h) (timeouts s) = Some t →
     callback t = QuestionTimeout gameId r current →
     let o := step s (Fire h) in
     completion o = Returned ∧
     emitted o = [reveal] ∧
     heap (state_of o)
       = <[r := set_answers game (JsMap.clear (answers game))]> (heap s) ∧
     timeouts (state_of o)
       = filter (fun t => handle t ≠ h) (timeouts s)
         ++ [mkTimeout (nextHandle s) 3000 (RevealPause gameId r)] ∧
     ∀ s' h' t' game1,
       List.find (fun t => Nat.eqb (handle t) h') (timeouts s') = Some t' →
       callback t' = RevealPause gameId r →
       heap s' !! r = Some game1 →
       let o' := step s' (Fire h') in
       completion o' = Returned ∧
       emitted o' = [moveOn game1] ∧
       ∃ game2, heap (state_of o') !! r = Some game2 ∧
                currentQuestion game2 = S (currentQuestion game1) ∧
                players game2 = players game1 ∧
                answers game2 = answers game1).
Proof.
  intros Hh Hq reveal moveOn.
  assert (Hlt : r < length (heap s)) by (eapply lookup_lt_Some; eauto).
  split; [intros p; apply correctPlayersOf_spec|]. split.
  - intros socketId Ha. simpl. unfold nextQuestion, getGame.
    rewrite Ha, Hh, Hq. simpl. subst reveal moveOn. simpl.
    destruct (questions (quiz game) !! S (currentQuestion game)) as [next|] eqn:En.
    + split; [reflexivity|]. split; [reflexivity|].
      after_restart g' Hg' Hp Hc Han.
      exists g'. split; [exact Hg'|]. rewrite Han, Hc, Hp. repeat split.
    + split; [reflexivity|]. split; [reflexivity|].
      eexists. split.
      { unfold state_of, putGame. simpl. apply list_lookup_insert_eq. exact Hlt. }
      repeat split.
  - intros h t Hf Hcb. simpl. rewrite (fire_pending _ _ _ Hf), Hcb. simpl.
    rewrite Hh. simpl. do 4 (split; [reflexivity|]).
    intros s' h' t' game1 Hf' Hcb' Hh'. simpl.
    rewrite (fire_pending _ _ _ Hf'), Hcb'. simpl. rewrite Hh'. simpl.
    assert (Hlt' : r < length (heap s')) by (eapply lookup_lt_Some; eauto).
    subst moveOn. simpl.
    destruct (questions (quiz game1) !! S (currentQuestion game1)) as [next|] eqn:En.
    + split; [reflexivity|]. split; [reflexivity|].
      after_restart g' Hg' Hp Hc Han.
      exists g'. split; [exact Hg'|]. rewrite Han, Hc, Hp. repeat split.
    + split; [reflexivity|]. split; [reflexivity|].
      eexists. split.
      { unfold state_of, putGame. simpl. apply list_lookup_insert_eq. exact Hlt'. }
      repeat split.
Qed.

Lemma advance_reveals_then_moves_on_witness :
  emitted (step answeredB (Cmd "host" (NextQuestion "k3x9ab")))
    = [(ToRoom "k3x9ab",
        RevealAnswer 3 ["p1"] [mkPlayer "p1" "alice" 1000]);
       (ToRoom "k3x9ab", NewQuestion q2 10)] ∧
  emitted (step answeredB (Fire 1))
    = [(ToRoom "k3x9ab",
        RevealAnswer 3 ["p1"] [mkPlayer "p1" "alice" 1000])].
Proof.
  destruct (advance_reveals_then_moves_on answeredB "k3x9ab" 0
              (mkGame [("p1", mkPlayer "p1" "alice" 1000)] 0 quizB
                      [("p1", 3%Z)] (Some 1))
              q1 eq_refl eq_refl)
    as (_ & Hcmd & Htimer).
  split.
  - exact (proj1 (proj2 (Hcmd "host" eq_refl))).
  - exact (proj1 (proj2 (Htimer 1 (mkTimeout 1 5000 (QuestionTimeout "k3x9ab" 0 q1))
                           eq_refl eq_refl))).
Defined.

(** ** What a step does to the game objects and to the registry *)

Lemma playersKept_refl (h : list Game) : playersKept h h.
Proof. intros r g' H. eauto. Qed.

Lemma playersKept_trans (h1 h2 h3 : list Game) :
  playersKept h1 h2 → playersKept h2 h3 → playersKept h1 h3.
Proof.
  intros H12 H23 r g3 H3.
  destruct (H23 r g3 H3) as (g2 & H2 & E2 & A2).
  destruct (H12 r g2 H2) as (g1 & H1 & E1 & A1).
  exists g1. split; [exact H1|]. split; [congruence|].
  destruct A2 as [A2|A2]; [|now right].
  rewrite A2. exact A1.
Qed.

Lemma playersKept_insert (h : list Game) (r : nat) (g g2 : Game) :
  h !! r = Some g → players g2 = players g →
  answers g2 = answers g ∨ answers g2 = [] →
  playersKept h (<[r := g2]> h).
Proof.
  intros Hr Hp Ha r' g' H'.
  apply list_lookup_insert_Some in H' as [(-> & <- & _)|[_ H']]; eauto.
Qed.

Lemma playersKept_startQuestionTimer (s : Server) (gameId : string) :
  playersKept (heap s) (heap (startQuestionTimer s gameId)).
Proof.
  intros r g' H'.
  destruct (startQuestionTimer_lookup_inv s gameId r g' H')
    as (g & Hg & Hp & _ & _ & Ha).
  eauto.
Qed.

Lemma startQuestionTimer_length (s : Server) (gameId : string) :
  length (heap (startQuestionTimer s gameId)) = length (heap s).
Proof.
  destruct (startQuestionTimer_heap s gameId) as [->|(r & g & h & _ & ->)];
    [reflexivity | apply length_insert].
Qed.

Lemma nextQuestion_effect (s : Server) (gameId : string) :
  let s' := state_of (nextQuestion s gameId) in
  activeGames s' = activeGames s ∧
  length (heap s') = length (heap s) ∧
  playersKept (heap s) (heap s').
Proof.
  simpl. unfold nextQuestion.
  destruct (getGame s gameId) as [[r game]|] eqn:Hg;
    [|repeat split; apply playersKept_refl].
  apply getGame_heap in Hg as [_ Hh].
  set (g1 := match questions (quiz game) !! currentQuestion game with
             | Some current => _ | None => _ end).
  assert (Hp1 : players g1.1 = players game ∧
                (answers g1.1 = answers game ∨ answers g1.1 = [])).
  { subst g1. destruct (questions (quiz game) !! currentQuestion game);
      simpl; auto. }
  destruct g1 as [game1 out1]. simpl in Hp1. destruct Hp1 as [Hp1 Ha1]. simpl.
  destruct (questions (quiz game1) !! S (currentQuestion game1)); unfold state_of; simpl.
  - rewrite startQuestionTimer_activeGames, startQuestionTimer_length. simpl.
    rewrite length_insert. repeat split.
    eapply playersKept_trans; [|apply playersKept_startQuestionTimer].
    simpl. eapply playersKept_insert; eauto.
  - rewrite length_insert. repeat split.
    eapply playersKept_insert; eauto.
Qed.

Lemma startCountdown_effect (s : Server) (gameId : string) :
  let s' := state_of (startCountdown s gameId) in
  activeGames s' = activeGames s ∧ heap s' = heap s.
Proof.
  simpl. unfold startCountdown.
  now destruct (getGame s gameId) as [[r game]|].
Qed.

Lemma runCallback_effect (s : Server) (cb : Callback) :
  let s' := state_of (runCallback s cb) in
  activeGames s' = activeGames s ∧
  length (heap s') = length (heap s) ∧
  playersKept (heap s) (heap s').
Proof.
  simpl. destruct cb as [gameId r question|gameId r|gameId r]; simpl.
  - destruct (heap s !! r) as [game|] eqn:Hh; unfold state_of; simpl;
      [|repeat split; apply playersKept_refl].
    rewrite length_insert. repeat split.
    eapply playersKept_insert; eauto.
  - destruct (heap s !! r) as [game|] eqn:Hh;
      [|repeat split; apply playersKept_refl].
    destruct (questions (quiz game) !! S (currentQuestion game));
      unfold state_of; simpl.
    + rewrite startQuestionTimer_activeGames, startQuestionTimer_length. simpl.
      rewrite length_insert. repeat split.
      eapply playersKept_trans; [|apply playersKept_startQuestionTimer].
      simpl. eapply playersKept_insert; eauto.
    + rewrite length_insert. repeat split.
      eapply playersKept_insert; eauto.
  - destruct (heap s !! r) as [game|] eqn:Hh;
      [|repeat split; apply playersKept_refl].
    destruct (questions (quiz game) !! currentQuestion game);
      unfold state_of; simpl; [|repeat split; apply playersKept_refl].
    rewrite startQuestionTimer_activeGames, startQuestionTimer_length.
    repeat split. apply playersKept_startQuestionTimer.
Qed.

Lemma fire_effect (s : Server) (h : nat) :
  let s' := state_of (fire s h) in
  activeGames s' = activeGames s ∧
  length (heap s') = length (heap s) ∧
  playersKept (heap s) (heap s').
Proof.
  simpl. unfold fire.
  destruct (List.find _ (timeouts s)) as [t|];
    [|repeat split; apply playersKept_refl].
  apply (runCallback_effect (clearTimeout s h) (callback t)).
Qed.

Lemma objStep_refl (i : Input) (g : Game) : objStep i g g.
Proof. apply objKept; auto. Qed.

Lemma playersKept_objStep (i : Input) (h h' : list Game) (r : nat) (g' : Game) :
  playersKept h h' → h' !! r = Some g' →
  ∃ g, h !! r = Some g ∧ objStep i g g'.
Proof.
  intros Hk H'. destruct (Hk r g' H') as (g & Hg & Hp & Ha).
  exists g. split; [exact Hg | now apply objKept].
Qed.

Lemma insert_objStep (i : Input) (h : list Game) (r0 : nat) (g0 gX : Game) :
  h !! r0 = Some g0 → objStep i g0 gX →
  ∀ r g', <[r0 := gX]> h !! r = Some g' →
          ∃ g, h !! r = Some g ∧ objStep i g g'.
Proof.
  intros H0 Hs r g' H'.
  apply list_lookup_insert_Some in H' as [(-> & <- & _)|[_ H']].
  - eauto.
  - exists g'. split; [exact H' | apply objStep_refl].
Qed.

Lemma submitAnswer_objects (s : Server) (socketId gameId : string) (a : Z)
  (r : nat) (g' : Game) :
  heap (state_of (submitAnswer s socketId gameId a)) !! r = Some g' →
  ∃ g, heap s !! r = Some g ∧
       objStep (Cmd socketId (SubmitAnswer gameId a)) g g'.
Proof.
  unfold submitAnswer.
  destruct (getGame s gameId) as [[r0 game]|] eqn:Hg;
    [|intros H; exists g'; split; [exact H | apply objStep_refl]].
  apply getGame_heap in Hg as [_ Hh].
  destruct (JsMap.get (players game) socketId) as [player|] eqn:Hp;
    [|intros H; exists g'; split; [exact H | apply objStep_refl]].
  destruct (JsMap.has (answers game) socketId);
    [intros H; exists g'; split; [exact H | apply objStep_refl]|].
  simpl.
  destruct (questions (quiz game) !! currentQuestion game) as [current|];
    [destruct (Z.eqb a (correctAnswer current))|];
    unfold state_of; simpl; apply insert_objStep with (g0 := game); try exact Hh;
    eapply objSubmit; simpl; eauto.
Qed.

Lemma joinGame_heap (s : Server) (socketId gameId name : string) :
  heap (state_of (joinGame s socketId gameId name))
  = match getGame s gameId with
    | None => heap s
    | Some (r, game) =>
        <[r := set_players game
                 (JsMap.set (players game) socketId (mkPlayer socketId name 0))]>
          (heap s)
    end.
Proof.
  unfold joinGame. now destruct (getGame s gameId) as [[r game]|].
Qed.

Lemma joinGame_objects (s : Server) (socketId gameId name : string)
  (r : nat) (g' : Game) :
  heap (state_of (joinGame s socketId gameId name)) !! r = Some g' →
  ∃ g, heap s !! r = Some g ∧
       objStep (Cmd socketId (JoinGame gameId name)) g g'.
Proof.
  rewrite joinGame_heap.
  destruct (getGame s gameId) as [[r0 game]|] eqn:Hg;
    [|intros H; exists g'; split; [exact H | apply objStep_refl]].
  apply getGame_heap in Hg as [_ Hh].
  apply insert_objStep with (g0 := game); [exact Hh|].
  now apply objJoin.
Qed.

Lemma delete_absent {V : Type} (m : JsMap.t V) (k : string) :
  JsMap.get m k = None → JsMap.delete m k = m.
Proof.
  induction m as [|[k' v'] m IH]; simpl; [reflexivity|].
  destruct (String.eqb k' k); [discriminate|].
  intros H. now rewrite IH.
Qed.

Lemma delete_delete {V : Type} (m : JsMap.t V) (k : string) :
  JsMap.delete (JsMap.delete m k) k = JsMap.delete m k.
Proof. apply delete_absent, get_delete_eq. Qed.

(** One round of the [forEach] of [disconnect]: the object visited has
    lost the key, the others are as they were. *)
Lemma disconnectGame_heap (socketId : string) (h : list Game) (out : list Emit)
  (entry : string * nat) (r : nat) (g' : Game) :
  (disconnectGame socketId (h, out) entry).1 !! r = Some g' →
  ∃ g, h !! r = Some g ∧ answers g' = answers g ∧
       (r = entry.2 → players g' = JsMap.delete (players g) socketId) ∧
       (r ≠ entry.2 → players g' = players g).
Proof.
  unfold disconnectGame. simpl.
  destruct (h !! entry.2) as [game|] eqn:Hh.
  - destruct (JsMap.has (players game) socketId) eqn:Hhas; simpl.
    + intros H. apply list_lookup_insert_Some in H as [(<- & <- & _)|[Hne H]].
      * exists game. simpl. split_and!; [exact Hh | reflexivity | reflexivity | congruence].
      * exists g'. split_and!; [exact H | reflexivity | congruence | reflexivity].
    + intros H. exists g'. split_and!; [exact H | reflexivity | | reflexivity].
      intros ->. assert (game = g') by congruence. subst.
      symmetry. apply delete_absent. now apply has_false.
  - simpl. intros H. exists g'.
    split_and!; [exact H | reflexivity | | reflexivity].
    intros ->. congruence.
Qed.

Lemma disconnect_fold_heap (socketId : string) (entries : list (string * nat)) :
  ∀ (h : list Game) (out : list Emit) (r : nat) (g' : Game),
    (fold_left (disconnectGame socketId) entries (h, out)).1 !! r = Some g' →
    ∃ g, h !! r = Some g ∧ answers g' = answers g ∧
         (In r (map snd entries) →
          players g' = JsMap.delete (players g) socketId) ∧
         (¬ In r (map snd entries) → players g' = players g).
Proof.
  induction entries as [|e entries IH]; simpl; intros h out r g' H.
  - exists g'. split_and!; [exact H | reflexivity | tauto | reflexivity].
  - destruct (disconnectGame socketId (h, out) e) as [h1 out1] eqn:E1.
    destruct (IH h1 out1 r g' H) as (g1 & H1 & Ha1 & Hin1 & Hout1).
    assert (H1' : (disconnectGame socketId (h, out) e).1 !! r = Some g1)
      by now rewrite E1.
    destruct (disconnectGame_heap socketId h out e r g1 H1')
      as (g & Hg & Ha & Heq & Hne).
    exists g. split; [exact Hg|]. split; [congruence|]. split.
    + intros [He|Hin].
      * destruct (in_dec Nat.eq_dec r (map snd entries)) as [Hi|Hi].
        -- rewrite (Hin1 Hi), (Heq (eq_sym He)). apply delete_delete.
        -- rewrite (Hout1 Hi). apply Heq. now symmetry.
      * rewrite (Hin1 Hin).
        destruct (Nat.eq_dec r e.2) as [He|He].
        -- rewrite (Heq He). apply delete_delete.
        -- now rewrite (Hne He).
    + intros Hn. rewrite Hout1 by tauto. apply Hne. intros ->. tauto.
Qed.

Lemma disconnectGame_length (socketId : string) (acc : list Game * list Emit)
  (entry : string * nat) :
  length (disconnectGame socketId acc entry).1 = length acc.1.
Proof.
  unfold disconnectGame. destruct (acc.1 !! entry.2) as [game|]; [|reflexivity].
  destruct (JsMap.has (players game) socketId); [|reflexivity].
  simpl. apply length_insert.
Qed.

Lemma disconnect_fold_length (socketId : string) (entries : list (string * nat)) :
  ∀ acc, length (fold_left (disconnectGame socketId) entries acc).1
         = length acc.1.
Proof.
  induction entries as [|e entries IH]; simpl; intros acc; [reflexivity|].
  rewrite IH. apply disconnectGame_length.
Qed.

Lemma disconnect_objects (s : Server) (socketId : string) (r : nat) (g' : Game) :
  heap (state_of (disconnect s socketId)) !! r = Some g' →
  ∃ g, heap s !! r = Some g ∧ objStep (Cmd socketId Disconnect) g g' ∧
       ((∃ c, JsMap.get (activeGames s) c = Some r) →
        players g' = JsMap.delete (players g) socketId).
Proof.
  unfold disconnect, state_of. simpl. intros H.
  destruct (disconnect_fold_heap socketId _ _ _ _ _ H)
    as (g & Hg & Ha & Hin & Hout).
  exists g. split; [exact Hg|]. split.
  - destruct (in_dec Nat.eq_dec r (map snd (JsMap.entries (activeGames s))))
      as [Hi|Hi].
    + apply objLeave; auto.
    + apply objKept; auto.
  - intros [c Hc]. apply Hin. apply get_Some_In in Hc.
    apply in_map_iff. exists (c, r). split; [reflexivity | exact Hc].
Qed.

(** Every object of the store after a step is an object of the store
    before it, changed as [objStep] allows, or the object [createGame]
    has just allocated. *)
Lemma step_objects (s : Server) (i : Input) (r : nat) (g' : Game) :
  heap (state_of (step s i)) !! r = Some g' →
  (∃ g, heap s !! r = Some g ∧ objStep i g g') ∨
  (heap s !! r = None ∧
   ∃ socketId random qz, i = Cmd socketId (CreateGame random qz) ∧
                         g' = newGame qz).
Proof.
  destruct i as [socketId [random qz|gameId name|gameId a|gameId|gameId|]|h];
    simpl; intros H.
  - unfold createGame, state_of in H. simpl in H.
    apply lookup_app_Some in H as [H|[Hge H]].
    + left. exists g'. split; [exact H | apply objStep_refl].
    + right. split; [now apply lookup_ge_None|].
      exists socketId, random, qz. split; [reflexivity|].
      destruct (r - length (heap s)); simpl in H; [|discriminate].
      now injection H as <-.
  - left. now apply joinGame_objects.
  - left. now apply submitAnswer_objects.
  - left. eapply playersKept_objStep; [apply nextQuestion_effect | exact H].
  - left. destruct (startCountdown_effect s gameId) as [_ Heq].
    simpl in Heq. rewrite Heq in H.
    exists g'. split; [exact H | apply objStep_refl].
  - left. destruct (disconnect_objects s socketId r g' H) as (g & Hg & Hs & _).
    eauto.
  - left. eapply playersKept_objStep; [apply fire_effect | exact H].
Qed.

(** ** Scores *)

Local Open Scope Z_scope.

(** C6 (counterexample).  A player with 1000 points who sends
    [joinGame] again is on record with 0 points afterwards. *)
Lemma rejoin_score_counterexample :
  scoreOf answeredB 0 "p1" = Some 1000 ∧
  scoreOf (run answeredB [Cmd "p1" (JoinGame "k3x9ab" "alice")]).1 0 "p1"
    = Some 0 ∧
  ¬ (1000 ≤ 0).
Proof.
  split; [reflexivity|]. split; [reflexivity|]. lia.
Qed.

Lemma objStep_score (p : string) (i : Input) (g g' : Game) (player' : Player) :
  objStep i g g' → isJoinOf p i = false →
  JsMap.get (players g') p = Some player' →
  ∃ player, JsMap.get (players g) p = Some player ∧
            score player ≤ score player'.
Proof.
  intros Hs Hj Hp. destruct Hs as
    [i g g' Hpl _|socketId gameId name g g' Hpl _
    |socketId gameId a pl g g' Hget Hpl _|socketId g g' Hpl _].
  - rewrite Hpl in Hp. exists player'. split; [exact Hp | lia].
  - simpl in Hj. apply String.eqb_neq in Hj.
    rewrite Hpl, get_set_ne in Hp by exact Hj.
    exists player'. split; [exact Hp | lia].
  - destruct Hpl as [Hpl|Hpl]; rewrite Hpl in Hp.
    + exists player'. split; [exact Hp | lia].
    + destruct (String.eqb_spec socketId p) as [->|Hne].
      * rewrite get_set_eq in Hp. injection Hp as <-.
        exists pl. split; [exact Hget | simpl; lia].
      * rewrite get_set_ne in Hp by exact Hne.
        exists player'. split; [exact Hp | lia].
  - rewrite Hpl in Hp.
    destruct (String.eqb_spec socketId p) as [->|Hne].
    + rewrite get_delete_eq in Hp. discriminate.
    + rewrite get_delete_ne in Hp by exact Hne.
      exists player'. split; [exact Hp | lia].
Qed.

Lemma step_score (s : Server) (i : Input) (r : nat) (p : string) (y : Z) :
  isJoinOf p i = false →
  scoreOf (state_of (step s i)) r p = Some y →
  ∃ x, scoreOf s r p = Some x ∧ x ≤ y.
Proof.
  intros Hj. unfold scoreOf at 1.
  destruct (heap (state_of (step s i)) !! r) as [g'|] eqn:Hh; [|discriminate].
  destruct (JsMap.get (players g') p) as [player'|] eqn:Hp; [|discriminate].
  intros [= <-].
  destruct (step_objects s i r g' Hh)
    as [(g & Hg & Hs)|(_ & socketId & random & qz & _ & ->)].
  - destruct (objStep_score p i g g' player' Hs Hj Hp) as (player & Hget & Hle).
    exists (score player). unfold scoreOf. rewrite Hg, Hget. auto.
  - discriminate.
Qed.

Lemma run_score (tr : list Input) :
  ∀ (s : Server) (r : nat) (p : string) (y : Z),
    forallb (fun i => negb (isJoinOf p i)) tr = true →
    scoreOf (run s tr).1 r p = Some y →
    ∃ x, scoreOf s r p = Some x ∧ x ≤ y.
Proof.
  induction tr as [|i tr IH]; simpl; intros s r p y Hall Hy.
  - exists y. split; [exact Hy | lia].
  - apply andb_true_iff in Hall as [Hi Hall].
    apply negb_true_iff in Hi.
    destruct (IH _ r p y Hall Hy) as (x1 & H1 & Hle1).
    destruct (step_score s i r p x1 Hi H1) as (x & Hx & Hle).
    exists x. split; [exact Hx | lia].
Qed.

(** C6 (amended).  Over any sequence of inputs (commands of any
    connection and timeouts firing) in which connection [p] sends no
    [joinGame], the score on record under [p] in a session does not
    decrease: if it is [x] before and [y] after, then [x <= y]. *)
Theorem score_monotone_without_rejoin
  (s : Server) (tr : list Input) (r : nat) (p : string) (x y : Z) :
  forallb (fun i => negb (isJoinOf p i)) tr = true →
  scoreOf s r p = Some x →
  scoreOf (run s tr).1 r p = Some y →
  x ≤ y.
Proof.
  intros Hall Hx Hy.
  destruct (run_score tr s r p y Hall Hy) as (x' & Hx' & Hle).
  congruence.
Qed.

Lemma score_monotone_without_rejoin_witness :
  scoreOf shownB 0 "p1" = Some 0 ∧
  scoreOf (run shownB [Cmd "p1" (SubmitAnswer "k3x9ab" 3);
                       Cmd "host" (NextQuestion "k3x9ab");
                       Cmd "p1" (SubmitAnswer "k3x9ab" 0);
                       Fire 2; Fire 3]).1 0 "p1" = Some 2000 ∧
  0 ≤ 2000.
Proof.
  split; [reflexivity|]. split; [reflexivity|].
  exact (score_monotone_without_rejoin shownB
           [Cmd "p1" (SubmitAnswer "k3x9ab" 3);
            Cmd "host" (NextQuestion "k3x9ab");
            Cmd "p1" (SubmitAnswer "k3x9ab" 0);
            Fire 2; Fire 3] 0 "p1" 0 2000 eq_refl eq_refl eq_refl).
Defined.

Local Close Scope Z_scope.

(** ** The registry *)

Lemma submitAnswer_registry (s : Server) (socketId gameId : string) (a : Z) :
  let s' := state_of (submitAnswer s socketId gameId a) in
  activeGames s' = activeGames s ∧ length (heap s') = length (heap s).
Proof.
  simpl. unfold submitAnswer.
  destruct (getGame s gameId) as [[r game]|]; [|auto].
  destruct (JsMap.get (players game) socketId); [|auto].
  destruct (JsMap.has (answers game) socketId); [auto|]. simpl.
  destruct (questions (quiz game) !! currentQuestion game) as [current|];
    [destruct (Z.eqb a (correctAnswer current))|];
    unfold state_of; simpl; rewrite length_insert; auto.
Qed.

Lemma joinGame_registry (s : Server) (socketId gameId name : string) :
  let s' := state_of (joinGame s socketId gameId name) in
  activeGames s' = activeGames s ∧ length (heap s') = length (heap s).
Proof.
  simpl. split.
  - unfold joinGame. now destruct (getGame s gameId) as [[r game]|].
  - rewrite joinGame_heap. destruct (getGame s gameId) as [[r game]|];
      [apply length_insert | reflexivity].
Qed.

Lemma disconnect_registry (s : Server) (socketId : string) :
  let s' := state_of (disconnect s socketId) in
  activeGames s' = activeGames s ∧ length (heap s') = length (heap s).
Proof.
  simpl. unfold disconnect, state_of. simpl. split; [reflexivity|].
  apply disconnect_fold_length.
Qed.

(** Only [createGame] touches the registry or the size of the store. *)
Lemma step_registry (s : Server) (i : Input) :
  (∃ socketId random qz, i = Cmd socketId (CreateGame random qz)) ∨
  (activeGames (state_of (step s i)) = activeGames s ∧
   length (heap (state_of (step s i))) = length (heap s)).
Proof.
  destruct i as [socketId [random qz|gameId name|gameId a|gameId|gameId|]|h];
    simpl.
  - left. eauto.
  - right. apply joinGame_registry.
  - right. apply submitAnswer_registry.
  - right. destruct (nextQuestion_effect s gameId) as (H1 & H2 & _). auto.
  - right. destruct (startCountdown_effect s gameId) as (H1 & H2).
    simpl in *. now rewrite H1, H2.
  - right. apply disconnect_registry.
  - right. destruct (fire_effect s h) as (H1 & H2 & _). auto.
Qed.

Lemma registryOk_initial : registryOk initial.
Proof. split; simpl; intros; discriminate. Qed.

Lemma registryOk_step (s : Server) (i : Input) :
  registryOk s → registryOk (state_of (step s i)).
Proof.
  intros [Hlt Hinj].
  destruct (step_registry s i) as [(socketId & random & qz & ->)|[Ha Hl]].
  - simpl. unfold createGame, state_of. simpl. split; simpl.
    + intros c r. rewrite length_app. simpl.
      destruct (String.eqb_spec random c) as [->|Hne].
      * rewrite get_set_eq. intros [= <-]. lia.
      * rewrite get_set_ne by exact Hne. intros H. apply Hlt in H. lia.
    + intros c c' r.
      destruct (String.eqb_spec random c) as [<-|Hne];
        destruct (String.eqb_spec random c') as [<-|Hne'];
        rewrite ?get_set_eq, ?get_set_ne by assumption.
      * reflexivity.
      * intros [= <-] H. apply Hlt in H. lia.
      * intros H [= <-]. apply Hlt in H. lia.
      * apply Hinj.
  - split.
    + intros c r. rewrite Ha, Hl. apply Hlt.
    + intros c c' r. rewrite Ha. apply Hinj.
Qed.

Lemma run_snoc (s : Server) (tr : list Input) (i : Input) :
  run s (tr ++ [i])
  = (state_of (step (run s tr).1 i),
     (run s tr).2 ++ emitted (step (run s tr).1 i)).
Proof.
  revert s. induction tr as [|j tr IH]; intros s; simpl.
  - now rewrite app_nil_r.
  - rewrite IH. simpl. now rewrite app_assoc.
Qed.

Lemma registryOk_run (tr : list Input) : registryOk (run initial tr).1.
Proof.
  induction tr as [|i tr IH] using rev_ind.
  - apply registryOk_initial.
  - rewrite run_snoc. simpl. now apply registryOk_step.
Qed.

(** ** Who is in the player map *)

Lemma joinedAndPresent_snoc (tr : list Input) (i : Input) (c p : string) :
  joinedAndPresent (tr ++ [i]) c p ↔
  ((∃ name, i = Cmd p (JoinGame c name)) ∧
   is_Some (getGame (run initial tr).1 c)) ∨
  (joinedAndPresent tr c p ∧ i ≠ Cmd p Disconnect ∧
   ∀ socketId qz, i ≠ Cmd socketId (CreateGame c qz)).
Proof.
  split.
  - intros (tr1 & name & tr2 & Heq & Hs & Hd & Hc).
    induction tr2 as [|x tr2 _] using rev_ind.
    + apply app_inj_tail in Heq as [-> ->]. left. eauto.
    + change (tr1 ++ Cmd p (JoinGame c name) :: tr2 ++ [x])
        with (tr1 ++ (Cmd p (JoinGame c name) :: tr2) ++ [x]) in Heq.
      rewrite app_assoc in Heq. apply app_inj_tail in Heq as [-> ->].
      right. split; [|split].
      * exists tr1, name, tr2. split_and!; [reflexivity | exact Hs | |].
        -- intros H. apply Hd, in_or_app. now left.
        -- intros socketId qz H. apply (Hc socketId qz), in_or_app. now left.
      * intros ->. apply Hd, in_or_app. right. now left.
      * intros socketId qz ->. apply (Hc socketId qz), in_or_app. right. now left.
  - intros [[[name ->] Hs]|[(tr1 & name & tr2 & -> & Hs & Hd & Hc) [Hnd Hnc]]].
    + exists tr, name, []. split_and!; [reflexivity | exact Hs | |]; simpl; tauto.
    + exists tr1, name, (tr2 ++ [i]). split_and!.
      * now rewrite <- app_assoc.
      * exact Hs.
      * intros H. apply in_app_or in H as [H|[H|[]]]; [tauto|congruence].
      * intros socketId qz H. apply in_app_or in H as [H|[H|[]]].
        -- exact (Hc socketId qz H).
        -- exact (Hnc socketId qz H).
Qed.

Lemma objStep_keys (i : Input) (g g' : Game) :
  objStep i g g' →
  (∀ socketId gameId name, i ≠ Cmd socketId (JoinGame gameId name)) →
  (∀ socketId, i ≠ Cmd socketId Disconnect) →
  ∀ p, In p (JsMap.keys (players g')) ↔ In p (JsMap.keys (players g)).
Proof.
  intros Hs Hj Hd p. destruct Hs as
    [i g g' Hpl _|socketId gameId name g g' Hpl _
    |socketId gameId a pl g g' Hget Hpl _|socketId g g' Hpl _].
  - now rewrite Hpl.
  - now destruct (Hj socketId gameId name).
  - destruct Hpl as [->| ->]; [reflexivity|].
    rewrite keys_set_present; [reflexivity|]. apply get_Some_keys. eauto.
  - now destruct (Hd socketId).
Qed.

(** Reading the session bound to [c] after a step, in a state whose
    registry is in order: either [createGame] has just bound [c] to an
    empty game, or the session was there before and its player map has
    gained the joining connection, lost the disconnecting one, or kept
    its keys. *)
Lemma step_members (s : Server) (i : Input) (c : string) (r : nat) (g' : Game) :
  registryOk s →
  getGame (state_of (step s i)) c = Some (r, g') →
  ((∃ socketId qz, i = Cmd socketId (CreateGame c qz)) ∧ players g' = []) ∨
  (∃ g, getGame s c = Some (r, g) ∧
        (∀ socketId qz, i ≠ Cmd socketId (CreateGame c qz)) ∧
        ∀ p, In p (JsMap.keys (players g')) ↔
             (∃ name, i = Cmd p (JoinGame c name)) ∨
             (In p (JsMap.keys (players g)) ∧ i ≠ Cmd p Disconnect)).
Proof.
  intros [Hlt Hinj] Hg'. apply getGame_heap in Hg' as [Ha' Hh'].
  destruct (step_registry s i) as [(socketId & random & qz & ->)|[Ha Hl]].
  - (* createGame *)
    simpl in Ha', Hh'. unfold createGame, state_of in Ha', Hh'. simpl in Ha', Hh'.
    destruct (String.eqb_spec random c) as [->|Hne].
    + left. split; [eauto|].
      rewrite get_set_eq in Ha'. injection Ha' as <-.
      rewrite lookup_app_r, Nat.sub_diag in Hh' by lia.
      now injection Hh' as <-.
    + right. rewrite get_set_ne in Ha' by exact Hne.
      rewrite lookup_app_l in Hh' by (eapply Hlt; eauto).
      exists g'. split_and!.
      * unfold getGame. now rewrite Ha', Hh'.
      * intros socketId' qz' [= _ E _]. congruence.
      * intros p. split; [intros H; right; split; [exact H | discriminate]|].
        intros [[name H]|[H _]]; [discriminate | exact H].
  - (* the registry is untouched *)
    rewrite Ha in Ha'. right.
    destruct i as [socketId [random qz|gameId name|gameId a|gameId|gameId|]|h].
    + (* createGame grows the store, against the length equation *)
      simpl in Hl. unfold createGame, state_of in Hl. simpl in Hl.
      rewrite length_app in Hl. simpl in Hl. lia.
    + (* joinGame *)
      simpl in Hh'. rewrite joinGame_heap in Hh'.
      destruct (getGame s gameId) as [[r0 g0]|] eqn:Hg0.
      * apply getGame_heap in Hg0 as [Ha0 Hh0].
        apply list_lookup_insert_Some in Hh' as [(<- & <- & _)|[Hne Hh']].
        -- assert (gameId = c) by (eapply Hinj; eauto). subst gameId.
           exists g0. split_and!.
           ++ unfold getGame. now rewrite Ha', Hh0.
           ++ discriminate.
           ++ intros p. simpl. rewrite keys_set. split.
              ** intros [->|H]; [left; eauto | right; split; [exact H | discriminate]].
              ** intros [[name' [= -> ->]]|[H _]]; auto.
        -- exists g'. split_and!.
           ++ unfold getGame. now rewrite Ha', Hh'.
           ++ discriminate.
           ++ intros p. split; [intros H; right; split; [exact H | discriminate]|].
              intros [[name' [= -> -> ->]]|[H _]]; [|exact H].
              congruence.
      * exists g'. split_and!.
        -- unfold getGame. now rewrite Ha', Hh'.
        -- discriminate.
        -- intros p. split; [intros H; right; split; [exact H | discriminate]|].
           intros [[name' [= -> -> ->]]|[H _]]; [|exact H].
           unfold getGame in Hg0. now rewrite Ha', Hh' in Hg0.
    + (* submitAnswer *)
      simpl in Hh'.
      destruct (submitAnswer_objects s socketId gameId a r g' Hh') as (g & Hg & Hs).
      exists g. split_and!.
      * unfold getGame. now rewrite Ha', Hg.
      * discriminate.
      * intros p. rewrite (objStep_keys _ g g' Hs) by discriminate.
        split; [intros H; right; split; [exact H | discriminate]|].
        intros [[name H]|[H _]]; [discriminate | exact H].
    + (* nextQuestion *)
      simpl in Hh'. destruct (nextQuestion_effect s gameId) as (_ & _ & Hk).
      destruct (Hk r g' Hh') as (g & Hg & Hp & _).
      exists g. split_and!.
      * unfold getGame. now rewrite Ha', Hg.
      * discriminate.
      * intros p. rewrite Hp.
        split; [intros H; right; split; [exact H | discriminate]|].
        intros [[name H]|[H _]]; [discriminate | exact H].
    + (* startCountdown *)
      simpl in Hh'. destruct (startCountdown_effect s gameId) as (_ & Heq).
      simpl in Heq. rewrite Heq in Hh'.
      exists g'. split_and!.
      * unfold getGame. now rewrite Ha', Hh'.
      * discriminate.
      * intros p.
        split; [intros H; right; split; [exact H | discriminate]|].
        intros [[name H]|[H _]]; [discriminate | exact H].
    + (* disconnect *)
      simpl in Hh'.
      destruct (disconnect_objects s socketId r g' Hh') as (g & Hg & _ & Hdel).
      exists g. split_and!.
      * unfold getGame. now rewrite Ha', Hg.
      * discriminate.
      * intros p. rewrite Hdel by eauto. rewrite keys_delete. split.
        -- intros [H Hne]. right. split; [exact H | congruence].
        -- intros [[name H]|[H Hne]]; [discriminate|].
           split; [exact H | congruence].
    + (* a timeout fires *)
      simpl in Hh'. destruct (fire_effect s h) as (_ & _ & Hk).
      destruct (Hk r g' Hh') as (g & Hg & Hp & _).
      exists g. split_and!.
      * unfold getGame. now rewrite Ha', Hg.
      * discriminate.
      * intros p. rewrite Hp.
        split; [intros H; right; split; [exact H | discriminate]|].
        intros [[name H]|[H _]]; [discriminate | exact H].
Qed.

Lemma members_joined (tr : list Input) :
  ∀ c r g p,
    getGame (run initial tr).1 c = Some (r, g) →
    In p (JsMap.keys (players g)) ↔ joinedAndPresent tr c p.
Proof.
  induction tr as [|i tr IH] using rev_ind; intros c r g p Hg.
  - discriminate.
  - rewrite run_snoc in Hg. simpl in Hg.
    rewrite joinedAndPresent_snoc.
    destruct (step_members _ i c r g (registryOk_run tr) Hg)
      as [[(socketId & qz & ->) Hnil]|(g0 & Hg0 & Hnc & Hiff)].
    + rewrite Hnil. simpl. split; [tauto|].
      intros [[[name H] _]|(_ & _ & H)]; [discriminate|].
      exact (H socketId qz eq_refl).
    + rewrite Hiff, (IH c r g0 p Hg0). split.
      * intros [Hj|[Hjp Hnd]]; [left; split; [exact Hj | rewrite Hg0; eauto]|].
        right. auto.
      * intros [[Hj _]|(Hjp & Hnd & _)]; auto.
Qed.

(** ** A connection that never joins *)

Lemma objStep_stranger (h : string) (i : Input) (g g' : Game) :
  objStep i g g' → isJoinOf h i = false → stranger h g → stranger h g'.
Proof.
  intros Hs Hj [Hp Ha]. destruct Hs as
    [i g g' Hpl Han|socketId gameId name g g' Hpl Han
    |socketId gameId a pl g g' Hget Hpl Han|socketId g g' Hpl Han].
  - split; [now rewrite Hpl|].
    destruct Han as [-> | ->]; [exact Ha | intros k a []].
  - simpl in Hj. apply String.eqb_neq in Hj.
    split; [|now rewrite Han].
    rewrite Hpl. intros k player Hin.
    apply In_set in Hin as [[= -> ->]|Hin]; [now split | eauto].
  - assert (Hne : socketId ≠ h ∧ player_id pl ≠ h)
      by (apply Hp, get_Some_In; exact Hget).
    split.
    + destruct Hpl as [-> | ->]; [exact Hp|].
      intros k player Hin.
      apply In_set in Hin as [[= -> ->]|Hin]; [exact Hne | eauto].
    + rewrite Han. intros k a' Hin.
      apply In_set in Hin as [[= -> ->]|Hin]; [tauto | eauto].
  - split; [|now rewrite Han].
    rewrite Hpl. intros k player Hin. apply In_delete in Hin as [Hin _]. eauto.
Qed.

Lemma stranger_newGame (h : string) (qz : Quiz) : stranger h (newGame qz).
Proof. split; simpl; intros ? ? []. Qed.

Lemma step_strangerToAll (h : string) (s : Server) (i : Input) :
  isJoinOf h i = false → strangerToAll h s →
  strangerToAll h (state_of (step s i)).
Proof.
  intros Hj Hs r g' Hg'.
  destruct (step_objects s i r g' Hg')
    as [(g & Hg & Hstep)|(_ & socketId & random & qz & _ & ->)].
  - eapply objStep_stranger; eauto.
  - apply stranger_newGame.
Qed.

Lemma stranger_roster (h : string) (g : Game) :
  stranger h g → ¬ In h (map player_id (JsMap.values (players g))).
Proof.
  intros [Hp _] Hin. unfold JsMap.values in Hin.
  apply in_map_iff in Hin as (player & Hid & Hin).
  apply in_map_iff in Hin as ([k player'] & Heq & Hin). simpl in Heq. subst.
  destruct (Hp k player Hin) as [_ Hne]. congruence.
Qed.

Lemma stranger_correctPlayers (h : string) (g : Game) (question : Question) :
  stranger h g → ¬ In h (correctPlayersOf (answers g) question).
Proof.
  intros [_ Ha] Hin. apply correctPlayersOf_spec in Hin.
  exact (Ha _ _ Hin eq_refl).
Qed.

Lemma stranger_reveal (h : string) (g : Game) (question : Question) :
  stranger h g →
  ¬ mentions h (RevealAnswer (correctAnswer question)
                             (correctPlayersOf (answers g) question)
                             (JsMap.values (players g))).
Proof.
  intros Hs [H|H].
  - exact (stranger_correctPlayers h g question Hs H).
  - exact (stranger_roster h g Hs H).
Qed.

Lemma disconnect_fold_clean (h socketId : string) (entries : list (string * nat)) :
  ∀ (heap0 : list Game) (out : list Emit),
    (∀ r g, heap0 !! r = Some g → stranger h g) →
    (∀ e, In e out → ¬ mentions h e.2) →
    ∀ e, In e (fold_left (disconnectGame socketId) entries (heap0, out)).2 →
         ¬ mentions h e.2.
Proof.
  induction entries as [|entry entries IH]; simpl; intros heap0 out Hs Ho;
    [exact Ho|].
  destruct (disconnectGame socketId (heap0, out) entry) as [heap1 out1] eqn:E.
  apply IH.
  - intros r g1 H1.
    assert (H1' : (disconnectGame socketId (heap0, out) entry).1 !! r = Some g1)
      by now rewrite E.
    destruct (disconnectGame_heap socketId heap0 out entry r g1 H1')
      as (g & Hg & Ha & Heq & Hne).
    destruct (Hs r g Hg) as [Hp Han]. split; [|now rewrite Ha].
    destruct (Nat.eq_dec r entry.2) as [Hr|Hr].
    + rewrite (Heq Hr). intros k player Hin.
      apply In_delete in Hin as [Hin _]. eauto.
    + now rewrite (Hne Hr).
  - unfold disconnectGame in E. simpl in E.
    destruct (heap0 !! entry.2) as [game|] eqn:Hh;
      [|injection E as <- <-; exact Ho].
    destruct (JsMap.has (players game) socketId) eqn:Hhas;
      [|injection E as <- <-; exact Ho].
    injection E as <- <-. intros e Hin.
    apply in_app_or in Hin as [Hin|[<-|[]]]; [now apply Ho|].
    simpl. apply has_true in Hhas as [player Hget].
    apply get_Some_In in Hget. destruct (Hs _ _ Hh) as [Hp _].
    destruct (Hp _ _ Hget) as [Hne _]. exact Hne.
Qed.

Lemma runCallback_clean (h : string) (s : Server) (cb : Callback) :
  strangerToAll h s →
  ∀ e, In e (emitted (runCallback s cb)) → ¬ mentions h e.2.
Proof.
  intros Hs e. unfold emitted.
  destruct cb as [gameId r question|gameId r|gameId r]; simpl;
    (destruct (heap s !! r) as [game|] eqn:Hh; simpl; [|intros []]).
  - intros [<-|[]]. simpl. apply stranger_reveal. eauto.
  - destruct (questions (quiz game) !! S (currentQuestion game)); simpl;
      intros [<-|[]]; simpl; [tauto|].
    apply (stranger_roster h game). eauto.
  - destruct (questions (quiz game) !! currentQuestion game); simpl;
      [intros [<-|[]]; simpl; tauto | intros []].
Qed.

Lemma step_clean (h : string) (s : Server) (i : Input) :
  isJoinOf h i = false → strangerToAll h s →
  ∀ e, In e (emitted (step s i)) → ¬ mentions h e.2.
Proof.
  intros Hj Hs e. unfold emitted.
  destruct i as [socketId [random qz|gameId name|gameId a|gameId|gameId|]|t];
    simpl.
  - intros [<-|[]]. simpl. tauto.
  - unfold joinGame. simpl in Hj. apply String.eqb_neq in Hj.
    destruct (getGame s gameId) as [[r game]|]; simpl;
      intros [<-|[]]; simpl; tauto.
  - unfold submitAnswer.
    destruct (getGame s gameId) as [[r game]|] eqn:Hg; [|intros []].
    apply getGame_heap in Hg as [_ Hh].
    destruct (JsMap.get (players game) socketId) as [player|] eqn:Hp; [|intros []].
    destruct (JsMap.has (answers game) socketId); [intros []|]. simpl.
    destruct (questions (quiz game) !! currentQuestion game) as [current|];
      [destruct (Z.eqb a (correctAnswer current))|]; simpl;
      [|intros []|intros []].
    intros [<-|[]]. simpl. apply get_Some_In in Hp.
    destruct (Hs r game Hh) as [Hpl _]. destruct (Hpl _ _ Hp) as [Hne _].
    exact Hne.
  - unfold nextQuestion.
    destruct (getGame s gameId) as [[r game]|] eqn:Hg; [|intros []].
    apply getGame_heap in Hg as [_ Hh]. pose proof (Hs r game Hh) as Hst.
    destruct (questions (quiz game) !! currentQuestion game) as [current|];
      simpl;
      destruct (questions (quiz game) !! S (currentQuestion game)); simpl.
    + intros [<-|[<-|[]]]; simpl; [now apply stranger_reveal | tauto].
    + intros [<-|[<-|[]]]; simpl;
        [now apply stranger_reveal | now apply stranger_roster].
    + intros [<-|[]]; simpl; tauto.
    + intros [<-|[]]; simpl. now apply stranger_roster.
  - unfold startCountdown.
    destruct (getGame s gameId) as [[r game]|]; simpl; [|intros []].
    intros [<-|[]]. simpl. tauto.
  - unfold disconnect. simpl.
    apply disconnect_fold_clean; [exact Hs | intros ? []].
  - unfold fire. destruct (List.find _ (timeouts s)) as [to|]; [|intros []].
    apply (runCallback_clean h (clearTimeout s t) (callback to)). exact Hs.
Qed.

Lemma run_clean (h : string) (tr : list Input) :
  ∀ s, forallb (fun i => negb (isJoinOf h i)) tr = true →
       strangerToAll h s →
       strangerToAll h (run s tr).1 ∧
       ∀ e, In e (run s tr).2 → ¬ mentions h e.2.
Proof.
  induction tr as [|i tr IH]; simpl; intros s Hall Hs.
  - split; [exact Hs | intros e []].
  - apply andb_true_iff in Hall as [Hi Hall]. apply negb_true_iff in Hi.
    destruct (IH (state_of (step s i)) Hall (step_strangerToAll h s i Hi Hs))
      as [Hs' He'].
    split; [exact Hs'|].
    intros e Hin. apply in_app_or in Hin as [Hin|Hin].
    + exact (step_clean h s i Hi Hs e Hin).
    + exact (He' e Hin).
Qed.

Lemma strangerToAll_initial (h : string) : strangerToAll h initial.
Proof. intros r g H. destruct r; discriminate. Qed.

Lemma createGame_session (s : Server) (socketId random : string) (qz : Quiz) :
  getGame (state_of (createGame s socketId random qz)) random
  = Some (length (heap s), newGame qz).
Proof.
  unfold createGame, state_of, getGame. simpl. rewrite get_set_eq.
  rewrite lookup_app_r by lia. now rewrite Nat.sub_diag.
Qed.

(** C10. After any run from the empty server:
    - the player map of the session bound to a code holds exactly the
      connections that have sent a [joinGame] for that code which found
      the session, and have not disconnected since (the session being
      the one bound to the code since then);
    - a [createGame] binds its code to a session with an empty player
      map: the creating connection is not made a player;
    - a connection that has sent no [joinGame] is a key of no player
      map, is in no roster emitted ([playerJoined], [revealAnswer],
      [gameOver]), is never among the correct players and never gets a
      [scoreUpdate] or a [playerLeft]. *)
Theorem player_map_is_who_joined (tr : list Input) :
  let s := (run initial tr).1 in
  (∀ c r g p,
     getGame s c = Some (r, g) →
     In p (JsMap.keys (players g)) ↔ joinedAndPresent tr c p) ∧
  (∀ socketId random qz,
     let s' := state_of (step s (Cmd socketId (CreateGame random qz))) in
     is_Some (getGame s' random) ∧ members s' random = []) ∧
  (∀ h,
     forallb (fun i => negb (isJoinOf h i)) tr = true →
     (∀ r g, heap s !! r = Some g → ¬ In h (JsMap.keys (players g))) ∧
     (∀ e, In e (run initial tr).2 → ¬ mentions h e.2)).
Proof.
  simpl. split_and!.
  - apply members_joined.
  - intros socketId random qz. unfold members.
    rewrite createGame_session. split; [eauto | reflexivity].
  - intros h Hall.
    destruct (run_clean h tr initial Hall (strangerToAll_initial h)) as [Hs He].
    split; [|exact He].
    intros r g Hg Hin. apply get_Some_keys in Hin as [player Hget].
    apply get_Some_In in Hget.
    destruct (Hs r g Hg) as [Hp _]. destruct (Hp _ _ Hget) as [Hne _].
    now apply Hne.
Qed.

Lemma player_map_is_who_joined_witness :
  members (run initial gameA).1 "k3x9ab" = ["p2"] ∧
  joinedAndPresent gameA "k3x9ab" "p2" ∧
  ¬ joinedAndPresent gameA "k3x9ab" "p1" ∧
  (∀ e, In e (run initial gameA).2 → ¬ mentions "host" e.2).
Proof.
  destruct (player_map_is_who_joined gameA) as (Hin & _ & Hhost).
  pose proof (Hin "k3x9ab" 0
                (mkGame [("p2", mkPlayer "p2" "bob" 0)] 1 quizA
                        [] (Some 1))) as Hm.
  split; [reflexivity|]. split; [|split].
  - apply (Hm "p2" eq_refl). simpl. now left.
  - intros H. apply (Hm "p1" eq_refl) in H. simpl in H.
    destruct H as [H|[]]. discriminate.
  - exact (proj2 (Hhost "host" eq_refl)).
Defined.

(** * Further properties of the server *)

(** ** Every step is made of field writes *)

Lemma heapUpdates_refl (h : list Game) : heapUpdates h h.
Proof. intros r g' H. exists g'. split; [exact H | apply rtc_refl]. Qed.

Lemma heapUpdates_trans (h1 h2 h3 : list Game) :
  heapUpdates h1 h2 → heapUpdates h2 h3 → heapUpdates h1 h3.
Proof.
  intros H12 H23 r g3 H3.
  destruct (H23 r g3 H3) as (g2 & H2 & U2).
  destruct (H12 r g2 H2) as (g1 & H1 & U1).
  exists g1. split; [exact H1 | eapply rtc_trans; eauto].
Qed.

Lemma heapUpdates_insert (h : list Game) (r : nat) (g gX : Game) :
  h !! r = Some g → rtc update g gX → heapUpdates h (<[r := gX]> h).
Proof.
  intros Hr Hu r' g' H'.
  apply list_lookup_insert_Some in H' as [(-> & <- & _)|[_ H']].
  - eauto.
  - exists g'. split; [exact H' | apply rtc_refl].
Qed.

Lemma heapUpdates_startQuestionTimer (s : Server) (gameId : string) :
  heapUpdates (heap s) (heap (startQuestionTimer s gameId)).
Proof.
  destruct (startQuestionTimer_heap s gameId) as [->|(r & g & h & Hr & ->)].
  - apply heapUpdates_refl.
  - eapply heapUpdates_insert; [exact Hr|]. apply rtc_once, updTimer.
Qed.

Lemma nextQuestion_updates (s : Server) (gameId : string) :
  heapUpdates (heap s) (heap (state_of (nextQuestion s gameId))).
Proof.
  unfold nextQuestion.
  destruct (getGame s gameId) as [[r game]|] eqn:Hg; [|apply heapUpdates_refl].
  apply getGame_heap in Hg as [_ Hh].
  set (g1 := match questions (quiz game) !! currentQuestion game with
             | Some current => _ | None => _ end).
  assert (Hu : rtc update game g1.1).
  { subst g1. destruct (questions (quiz game) !! currentQuestion game); simpl;
      [apply rtc_once, updClear | apply rtc_refl]. }
  destruct g1 as [game1 out1]. simpl in Hu. simpl.
  assert (Hu2 : rtc update game
                    (set_currentQuestion game1 (S (currentQuestion game1))))
    by (eapply rtc_r; [exact Hu | apply updNext]).
  destruct (questions (quiz game1) !! S (currentQuestion game1));
    unfold state_of; simpl.
  - eapply heapUpdates_trans; [|apply heapUpdates_startQuestionTimer].
    simpl. eapply heapUpdates_insert; eauto.
  - eapply heapUpdates_insert; eauto.
Qed.

Lemma runCallback_updates (s : Server) (cb : Callback) :
  heapUpdates (heap s) (heap (state_of (runCallback s cb))).
Proof.
  destruct cb as [gameId r question|gameId r|gameId r]; simpl;
    (destruct (heap s !! r) as [game|] eqn:Hh; [|apply heapUpdates_refl]).
  - unfold state_of. simpl.
    eapply heapUpdates_insert; [exact Hh | apply rtc_once, updClear].
  - destruct (questions (quiz game) !! S (currentQuestion game));
      unfold state_of; simpl.
    + eapply heapUpdates_trans; [|apply heapUpdates_startQuestionTimer].
      simpl. eapply heapUpdates_insert; [exact Hh | apply rtc_once, updNext].
    + eapply heapUpdates_insert; [exact Hh | apply rtc_once, updNext].
  - destruct (questions (quiz game) !! currentQuestion game);
      unfold state_of; simpl;
      [apply heapUpdates_startQuestionTimer | apply heapUpdates_refl].
Qed.

Lemma submitAnswer_updates (s : Server) (socketId gameId : string) (a : Z) :
  heapUpdates (heap s) (heap (state_of (submitAnswer s socketId gameId a))).
Proof.
  unfold submitAnswer.
  destruct (getGame s gameId) as [[r game]|] eqn:Hg; [|apply heapUpdates_refl].
  apply getGame_heap in Hg as [_ Hh].
  destruct (JsMap.get (players game) socketId) as [player|] eqn:Hp;
    [|apply heapUpdates_refl].
  destruct (JsMap.has (answers game) socketId); [apply heapUpdates_refl|].
  simpl.
  destruct (questions (quiz game) !! currentQuestion game) as [current|];
    [destruct (Z.eqb a (correctAnswer current))|];
    unfold state_of; simpl; (eapply heapUpdates_insert; [exact Hh|]).
  - eapply rtc_l; [apply updAnswer|]. apply rtc_once.
    apply (updScore (set_answers game _) socketId player). exact Hp.
  - apply rtc_once, updAnswer.
  - apply rtc_once, updAnswer.
Qed.

Lemma disconnect_fold_updates (socketId : string) (entries : list (string * nat)) :
  ∀ (h : list Game) (out : list Emit),
    heapUpdates h (fold_left (disconnectGame socketId) entries (h, out)).1.
Proof.
  induction entries as [|e entries IH]; simpl; intros h out.
  - apply heapUpdates_refl.
  - destruct (disconnectGame socketId (h, out) e) as [h1 out1] eqn:E.
    eapply heapUpdates_trans; [|apply IH].
    unfold disconnectGame in E. simpl in E.
    destruct (h !! e.2) as [game|] eqn:Hh;
      [|injection E as <- <-; apply heapUpdates_refl].
    destruct (JsMap.has (players game) socketId);
      [|injection E as <- <-; apply heapUpdates_refl].
    injection E as <- <-.
    eapply heapUpdates_insert; [exact Hh | apply rtc_once, updLeave].
Qed.

(** Every object of the store after a step is an object of the store
    before it after some of the field writes, or the object
    [createGame] has just allocated. *)
Lemma step_updates (s : Server) (i : Input) (r : nat) (g' : Game) :
  heap (state_of (step s i)) !! r = Some g' →
  (∃ g, heap s !! r = Some g ∧ rtc update g g') ∨
  (heap s !! r = None ∧ ∃ qz, g' = newGame qz).
Proof.
  destruct i as [socketId [random qz|gameId name|gameId a|gameId|gameId|]|h];
    simpl; intros H.
  - unfold createGame, state_of in H. simpl in H.
    apply lookup_app_Some in H as [H|[Hge H]].
    + left. exists g'. split; [exact H | apply rtc_refl].
    + right. split; [now apply lookup_ge_None|]. exists qz.
      destruct (r - length (heap s)); simpl in H; [|discriminate].
      now injection H as <-.
  - left. rewrite joinGame_heap in H.
    destruct (getGame s gameId) as [[r0 game]|] eqn:Hg.
    + apply getGame_heap in Hg as [_ Hh].
      eapply heapUpdates_insert; [exact Hh | apply rtc_once, updJoin | exact H].
    + exists g'. split; [exact H | apply rtc_refl].
  - left. exact (submitAnswer_updates s socketId gameId a r g' H).
  - left. exact (nextQuestion_updates s gameId r g' H).
  - left. destruct (startCountdown_effect s gameId) as [_ Heq].
    simpl in Heq. rewrite Heq in H.
    exists g'. split; [exact H | apply rtc_refl].
  - left. revert H. unfold disconnect, state_of. simpl.
    apply disconnect_fold_updates.
  - left. revert H. unfold fire.
    destruct (List.find _ (timeouts s)) as [t|].
    + apply (runCallback_updates (clearTimeout s h) (callback t)).
    + intros H. exists g'. split; [exact H | apply rtc_refl].
Qed.

(** Objects of the store stay where they are. *)
Lemma step_heap_length (s : Server) (i : Input) :
  (length (heap s) ≤ length (heap (state_of (step s i))))%nat.
Proof.
  destruct (step_registry s i) as [(socketId & random & qz & ->)|[_ Hl]].
  - simpl. unfold createGame, state_of. simpl. rewrite length_app. lia.
  - lia.
Qed.

(** A property of game objects that the new game has and every field
    write keeps holds of every object after any run from the empty
    server. *)
Lemma run_object_invariant (P : Game → Prop) :
  (∀ qz, P (newGame qz)) →
  (∀ g g', update g g' → P g → P g') →
  ∀ tr r g, heap (run initial tr).1 !! r = Some g → P g.
Proof.
  intros Hnew Hupd tr.
  induction tr as [|i tr IH] using rev_ind; intros r g Hg.
  - destruct r; discriminate.
  - rewrite run_snoc in Hg. simpl in Hg.
    destruct (step_updates _ i r g Hg) as [(g0 & Hg0 & Hu)|(_ & qz & ->)].
    + apply IH in Hg0. clear Hg. induction Hu; eauto.
    + apply Hnew.
Qed.

(** ** Rosters *)

Lemma keys_set_NoDup {V : Type} (m : JsMap.t V) (k : string) (v : V) :
  List.NoDup (JsMap.keys m) → List.NoDup (JsMap.keys (JsMap.set m k v)).
Proof.
  induction m as [|[k' v'] m IH]; simpl; intros Hnd.
  - constructor; [tauto | constructor].
  - apply NoDup_cons_iff in Hnd as [Hni Hnd].
    destruct (String.eqb_spec k' k) as [->|Hne]; simpl.
    + now constructor.
    + constructor; [|now apply IH].
      fold (JsMap.keys (JsMap.set m k v)). rewrite keys_set.
      intros [H|H]; [congruence | exact (Hni H)].
Qed.

Lemma keys_delete_NoDup {V : Type} (m : JsMap.t V) (k : string) :
  List.NoDup (JsMap.keys m) → List.NoDup (JsMap.keys (JsMap.delete m k)).
Proof.
  induction m as [|[k' v'] m IH]; simpl; intros Hnd; [constructor|].
  apply NoDup_cons_iff in Hnd as [Hni Hnd].
  destruct (String.eqb k' k); simpl; [now apply IH|].
  constructor; [|now apply IH].
  fold (JsMap.keys (JsMap.delete m k)). rewrite keys_delete. tauto.
Qed.

Lemma update_mapsOk (g g' : Game) : update g g' → mapsOk g → mapsOk g'.
Proof.
  intros Hu (Hp & Ha & Hid).
  destruct Hu as [g socketId name|g socketId player Hget|g socketId
                 |g socketId a|g|g|g h]; unfold mapsOk; simpl.
  - split_and!; [now apply keys_set_NoDup | exact Ha |].
    intros k pl Hin. apply In_set in Hin as [[= -> ->]|Hin]; [reflexivity | eauto].
  - split_and!; [now apply keys_set_NoDup | exact Ha |].
    intros k pl Hin. apply In_set in Hin as [[= -> ->]|Hin]; [|eauto].
    simpl. apply Hid. now apply get_Some_In.
  - split_and!; [now apply keys_delete_NoDup | exact Ha |].
    intros k pl Hin. apply In_delete in Hin as [Hin _]. eauto.
  - split_and!; [exact Hp | now apply keys_set_NoDup | exact Hid].
  - split_and!; [exact Hp | constructor | exact Hid].
  - split_and!; assumption.
  - split_and!; assumption.
Qed.

Lemma mapsOk_newGame (qz : Quiz) : mapsOk (newGame qz).
Proof. split_and!; simpl; [constructor | constructor | intros ? ? []]. Qed.

Lemma roster_ids (m : JsMap.t Player) :
  (∀ k player, In (k, player) m → player_id player = k) →
  map player_id (JsMap.values m) = JsMap.keys m.
Proof.
  induction m as [|[k pl] m IH]; simpl; intros Hid; [reflexivity|].
  rewrite (Hid k pl) by now left. f_equal. apply IH. intros; apply Hid; now right.
Qed.

Lemma filter_keys_NoDup {V : Type} (f : string * V → bool) (m : JsMap.t V) :
  List.NoDup (map fst m) → List.NoDup (map fst (List.filter f m)).
Proof.
  induction m as [|e m IH]; simpl; intros Hnd; [constructor|].
  apply NoDup_cons_iff in Hnd as [Hni Hnd].
  destruct (f e); simpl; [|now apply IH].
  constructor; [|now apply IH].
  intros Hin. apply Hni. apply in_map_iff in Hin as (e' & He & Hin).
  apply filter_In in Hin as [Hin _]. apply in_map_iff. eauto.
Qed.

(** X1. After any run from the empty server, in every game object the
    ids of the roster sent to the clients
    ([Array.from(game.players.values())]) are the keys of the player
    map, in order, and no id occurs twice; the list of correct players
    computed for any question has no id twice either. *)
Theorem rosters_have_distinct_ids (tr : list Input) (r : nat) (g : Game) :
  heap (run initial tr).1 !! r = Some g →
  map player_id (JsMap.values (players g)) = JsMap.keys (players g) ∧
  List.NoDup (map player_id (JsMap.values (players g))) ∧
  ∀ question, List.NoDup (correctPlayersOf (answers g) question).
Proof.
  intros Hg.
  destruct (run_object_invariant mapsOk mapsOk_newGame update_mapsOk tr r g Hg)
    as (Hp & Ha & Hid).
  split_and!.
  - now apply roster_ids.
  - now rewrite roster_ids.
  - intros question. unfold correctPlayersOf, JsMap.entries.
    now apply filter_keys_NoDup.
Qed.

Lemma rosters_have_distinct_ids_witness :
  map player_id
      [mkPlayer "p1" "alice" 1000; mkPlayer "p2" "bob" 0] = ["p1"; "p2"] ∧
  List.NoDup
    (map player_id
         (JsMap.values
            [("p1", mkPlayer "p1" "alice" 1000); ("p2", mkPlayer "p2" "bob" 0)])).
Proof.
  destruct (rosters_have_distinct_ids
              (opening quizB ++ [Cmd "p1" (SubmitAnswer "k3x9ab" 3);
                                 Cmd "p2" (JoinGame "k3x9ab" "bob")])
              0
              (mkGame [("p1", mkPlayer "p1" "alice" 1000);
                       ("p2", mkPlayer "p2" "bob" 0)]
                      0 quizB [("p1", 3%Z)] (Some 1))
              eq_refl) as (H1 & H2 & _).
  split; [exact H1 | exact H2].
Defined.

(** ** Scores on record *)

Lemma update_scoresOk (g g' : Game) : update g g' → scoresOk g → scoresOk g'.
Proof.
  intros Hu Hs.
  destruct Hu as [g socketId name|g socketId player Hget|g socketId
                 |g socketId a|g|g|g h]; unfold scoresOk; simpl; try exact Hs.
  - intros k pl Hin. apply In_set in Hin as [[= -> ->]|Hin]; [|eauto].
    exists 0. reflexivity.
  - intros k pl Hin. apply In_set in Hin as [[= -> ->]|Hin]; [|eauto].
    destruct (Hs socketId player) as [n Hn]; [now apply get_Some_In|].
    exists (S n). simpl. rewrite Hn. lia.
  - intros k pl Hin. apply In_delete in Hin as [Hin _]. eauto.
Qed.

Lemma scoresOk_newGame (qz : Quiz) : scoresOk (newGame qz).
Proof. intros ? ? []. Qed.

Lemma disconnect_fold_events (socketId : string) (entries : list (string * nat)) :
  ∀ (h : list Game) (out : list Emit) (e : Emit),
    In e (fold_left (disconnectGame socketId) entries (h, out)).2 →
    In e out ∨ ∃ c, e = (ToRoom c, PlayerLeft socketId).
Proof.
  induction entries as [|entry entries IH]; simpl; intros h out e H.
  - now left.
  - destruct (disconnectGame socketId (h, out) entry) as [h1 out1] eqn:E.
    destruct (IH h1 out1 e H) as [Hin|Hex]; [|now right].
    unfold disconnectGame in E. simpl in E.
    destruct (h !! entry.2) as [game|]; [|injection E as <- <-; now left].
    destruct (JsMap.has (players game) socketId);
      [|injection E as <- <-; now left].
    injection E as <- <-.
    apply in_app_or in Hin as [Hin|[<-|[]]]; [now left | right; eauto].
Qed.

Lemma step_scoreUpdate (s : Server) (i : Input) (t : Target) (p : string) (sc : Z) :
  In (t, ScoreUpdate p sc) (emitted (step s i)) →
  ∃ r g player, heap s !! r = Some g ∧ In (p, player) (players g) ∧
                sc = (score player + 1000)%Z.
Proof.
  unfold emitted.
  destruct i as [socketId [random qz|gameId name|gameId a|gameId|gameId|]|h];
    simpl.
  - intros [[=]|[]].
  - unfold joinGame. destruct (getGame s gameId) as [[r game]|]; simpl;
      intros [[=]|[]].
  - unfold submitAnswer.
    destruct (getGame s gameId) as [[r game]|] eqn:Hg; [|intros []].
    apply getGame_heap in Hg as [_ Hh].
    destruct (JsMap.get (players game) socketId) as [player|] eqn:Hp; [|intros []].
    destruct (JsMap.has (answers game) socketId); [intros []|]. simpl.
    destruct (questions (quiz game) !! currentQuestion game) as [current|];
      [destruct (Z.eqb a (correctAnswer current))|]; simpl;
      [|intros []|intros []].
    intros [[= <- <- <-]|[]]. exists r, game, player.
    split_and!; [exact Hh | now apply get_Some_In | reflexivity].
  - unfold nextQuestion.
    destruct (getGame s gameId) as [[r game]|]; [|intros []].
    destruct (questions (quiz game) !! currentQuestion game); simpl;
      destruct (questions (quiz game) !! S (currentQuestion game)); simpl;
      intros H; repeat (destruct H as [[=]|H]); destruct H.
  - unfold startCountdown.
    destruct (getGame s gameId) as [[r game]|]; simpl; [|intros []].
    intros [[=]|[]].
  - unfold disconnect. simpl. intros H.
    apply disconnect_fold_events in H as [[]|[c [=]]].
  - unfold fire. destruct (List.find _ (timeouts s)) as [to|]; [|intros []].
    destruct (callback to) as [gameId r question|gameId r|gameId r]; simpl;
      (destruct (heap s !! r) as [game|]; simpl; [|intros []]).
    + intros [[=]|[]].
    + destruct (questions (quiz game) !! S (currentQuestion game)); simpl;
        intros [[=]|[]].
    + destruct (questions (quiz game) !! currentQuestion game); simpl;
        [intros [[=]|[]] | intros []].
Qed.

(** X2. After any run from the empty server every score on record is
    [1000 * n] for a natural number [n] (so it is never negative), and
    every [scoreUpdate] emitted during the run carries [1000 * (n + 1)]
    for a natural [n]. *)
Theorem scores_are_multiples_of_1000 (tr : list Input) :
  (∀ r g k player,
     heap (run initial tr).1 !! r = Some g → In (k, player) (players g) →
     ∃ n : nat, score player = (1000 * Z.of_nat n)%Z) ∧
  (∀ t p sc,
     In (t, ScoreUpdate p sc) (run initial tr).2 →
     ∃ n : nat, sc = (1000 * Z.of_nat (S n))%Z).
Proof.
  split.
  - intros r g k player Hg.
    exact (run_object_invariant scoresOk scoresOk_newGame update_scoresOk
             tr r g Hg k player).
  - induction tr as [|i tr IH] using rev_ind; intros t p sc Hin.
    + destruct Hin.
    + rewrite run_snoc in Hin. simpl in Hin.
      apply in_app_or in Hin as [Hin|Hin]; [eauto|].
      apply step_scoreUpdate in Hin as (r & g & player & Hg & Hp & ->).
      destruct (run_object_invariant scoresOk scoresOk_newGame update_scoresOk
                  tr r g Hg p player Hp) as [n Hn].
      exists n. rewrite Hn. lia.
Qed.

Lemma scores_are_multiples_of_1000_witness :
  (∃ n : nat, 2000%Z = (1000 * Z.of_nat n)%Z) ∧
  (∃ n : nat, 1000%Z = (1000 * Z.of_nat (S n))%Z).
Proof.
  pose (tr := opening quizB ++
              [Cmd "p1" (SubmitAnswer "k3x9ab" 3);
               Cmd "host" (NextQuestion "k3x9ab");
               Cmd "p1" (SubmitAnswer "k3x9ab" 0)]).
  destruct (scores_are_multiples_of_1000 tr) as [Hs He].
  split.
  - apply (Hs 0 (mkGame [("p1", mkPlayer "p1" "alice" 2000)] 1 quizB
                        [("p1", 0%Z)] (Some 2))
              "p1" (mkPlayer "p1" "alice" 2000) eq_refl).
    now left.
  - apply (He (ToRoom "k3x9ab") "p1" 1000%Z).
    simpl. do 4 right. now left.
Defined.

(** ** Quiz content and question index *)

Lemma update_quiz_index (g g' : Game) :
  rtc update g g' →
  quiz g' = quiz g ∧ (currentQuestion g ≤ currentQuestion g')%nat.
Proof.
  induction 1 as [g|g g1 g' Hu _ [IHq IHc]]; [split; [reflexivity | lia]|].
  destruct Hu; simpl in *; split; try exact IHq; lia.
Qed.

Lemma step_quiz_index (s : Server) (i : Input) (r : nat) (g : Game) :
  heap s !! r = Some g →
  ∃ g', heap (state_of (step s i)) !! r = Some g' ∧
        quiz g' = quiz g ∧ (currentQuestion g ≤ currentQuestion g')%nat.
Proof.
  intros Hg.
  destruct (lookup_lt_is_Some_2 (heap (state_of (step s i))) r) as [g' Hg'].
  { pose proof (step_heap_length s i). apply lookup_lt_Some in Hg. lia. }
  exists g'. split; [exact Hg'|].
  destruct (step_updates s i r g' Hg') as [(g0 & Hg0 & Hu)|(Hn & _)];
    [|congruence].
  assert (g0 = g) by congruence. subst g0. now apply update_quiz_index.
Qed.

(** X3. No command and no timeout ever removes a game object, changes
    the quiz it was created with, or moves its question index back:
    over any sequence of inputs from any state, an object of the store
    is still there afterwards, with the same quiz and an index that is
    at least what it was. *)
Theorem quiz_fixed_index_forward
  (s : Server) (tr : list Input) (r : nat) (g : Game) :
  heap s !! r = Some g →
  ∃ g', heap (run s tr).1 !! r = Some g' ∧
        quiz g' = quiz g ∧ (currentQuestion g ≤ currentQuestion g')%nat.
Proof.
  revert s g. induction tr as [|i tr IH]; simpl; intros s g Hg.
  - exists g. split_and!; [exact Hg | reflexivity | lia].
  - destruct (step_quiz_index s i r g Hg) as (g1 & Hg1 & Hq1 & Hc1).
    destruct (IH _ g1 Hg1) as (g' & Hg' & Hq & Hc).
    exists g'. split_and!; [exact Hg' | congruence | lia].
Qed.

Lemma quiz_fixed_index_forward_witness :
  ∃ g', heap (run shownB [Cmd "host" (NextQuestion "k3x9ab"); Fire 2; Fire 3;
                          Cmd "p1" Disconnect]).1 !! 0 = Some g' ∧
        quiz g' = quizB ∧ (0 ≤ currentQuestion g')%nat.
Proof.
  exact (quiz_fixed_index_forward shownB
           [Cmd "host" (NextQuestion "k3x9ab"); Fire 2; Fire 3;
            Cmd "p1" Disconnect] 0
           (mkGame [("p1", mkPlayer "p1" "alice" 0)] 0 quizB [] (Some 1))
           eq_refl).
Defined.

(** ** Timer bookkeeping *)

Lemma In_pending_filter (P : Timeout → Prop) `{∀ t, Decision (P t)}
  (ts : list Timeout) (t : Timeout) :
  In t (filter P ts) ↔ P t ∧ In t ts.
Proof.
  rewrite <- !list_elem_of_In. apply list_elem_of_filter.
Qed.

Lemma NoDup_pending_filter (P : Timeout → Prop) `{∀ t, Decision (P t)}
  (ts : list Timeout) :
  List.NoDup (map handle ts) → List.NoDup (map handle (filter P ts)).
Proof.
  induction ts as [|t ts IH]; simpl; intros Hnd; [constructor|].
  apply NoDup_cons_iff in Hnd as [Hni Hnd].
  rewrite filter_cons. destruct (decide (P t)); simpl; [|now apply IH].
  constructor; [|now apply IH].
  intros Hin. apply Hni. apply in_map_iff in Hin as (t' & He & Hin).
  apply In_pending_filter in Hin as [_ Hin]. apply in_map_iff. eauto.
Qed.

Lemma timersOkOn_insert (h : list Game) (ts : list Timeout) (next r : nat)
  (g gX : Game) :
  timersOkOn h ts next → h !! r = Some g → timer gX = timer g →
  timersOkOn (<[r := gX]> h) ts next.
Proof.
  intros (H1 & H2 & H3 & H4) Hr Ht. split_and!; [exact H1 | exact H2 | |].
  - intros r' g' x Hg' Hx.
    apply list_lookup_insert_Some in Hg' as [(-> & <- & _)|[_ Hg']].
    + rewrite Ht in Hx. eauto.
    + eauto.
  - intros t gameId r' question Hin Hcb.
    destruct (H4 t gameId r' question Hin Hcb) as (g' & Hg' & Hx).
    destruct (decide (r = r')) as [->|Hne].
    + exists gX. rewrite list_lookup_insert_eq by (eapply lookup_lt_Some; eauto).
      split; [reflexivity|]. congruence.
    + exists g'. now rewrite list_lookup_insert_ne.
Qed.

Lemma timersOk_putGame (s : Server) (r : nat) (g gX : Game) :
  timersOk s → heap s !! r = Some g → timer gX = timer g →
  timersOk (putGame s r gX).
Proof. apply timersOkOn_insert. Qed.

Lemma timersOkOn_alloc (h : list Game) (ts : list Timeout) (next : nat)
  (g : Game) :
  timersOkOn h ts next → timer g = None → timersOkOn (h ++ [g]) ts next.
Proof.
  intros (H1 & H2 & H3 & H4) Ht. split_and!; [exact H1 | exact H2 | |].
  - intros r' g' x Hg' Hx.
    apply lookup_app_Some in Hg' as [Hg'|[_ Hg']]; [eauto|].
    destruct (r' - length h); simpl in Hg'; [|discriminate].
    injection Hg' as <-. congruence.
  - intros t gameId r' question Hin Hcb.
    destruct (H4 t gameId r' question Hin Hcb) as (g' & Hg' & Hx).
    exists g'. split; [|exact Hx].
    rewrite lookup_app_l; [exact Hg' | eapply lookup_lt_Some; eauto].
Qed.

Lemma timersOk_setTimeout (s : Server) (cb : Callback) (ms : Z) :
  isQuestionTimeout cb = false → timersOk s → timersOk (setTimeout s cb ms).2.
Proof.
  intros Hcb (H1 & H2 & H3 & H4). unfold timersOk, timersOkOn. simpl.
  split_and!.
  - intros t Hin. apply in_app_or in Hin as [Hin|[<-|[]]]; simpl; [|lia].
    apply H1 in Hin. lia.
  - rewrite map_app. simpl.
    apply List.NoDup_app; [exact H2 | repeat constructor; tauto |].
    intros x Hx [<-|[]]. apply in_map_iff in Hx as (t & He & Hin).
    apply H1 in Hin. lia.
  - intros r g x Hg Hx. specialize (H3 r g x Hg Hx). lia.
  - intros t gameId r question Hin Hq.
    apply in_app_or in Hin as [Hin|[<-|[]]]; [eauto|].
    simpl in Hq. subst cb. discriminate.
Qed.

Lemma timersOk_clearTimeout (s : Server) (h : nat) :
  timersOk s → timersOk (clearTimeout s h).
Proof.
  intros (H1 & H2 & H3 & H4). unfold timersOk, timersOkOn. simpl.
  split_and!.
  - intros t Hin. apply In_pending_filter in Hin as [_ Hin]. auto.
  - now apply NoDup_pending_filter.
  - exact H3.
  - intros t gameId r question Hin Hq.
    apply In_pending_filter in Hin as [_ Hin]. eauto.
Qed.

(** Scheduling the question timeout of [r] and storing its handle, in a
    state with no pending question timeout of [r]. *)
Lemma timersOk_schedule (s : Server) (gameId : string) (r : nat) (game : Game)
  (question : Question) (ms : Z) :
  timersOk s → heap s !! r = Some game →
  (∀ t gameId' question', In t (timeouts s) →
     callback t ≠ QuestionTimeout gameId' r question') →
  timersOk (putGame (setTimeout s (QuestionTimeout gameId r question) ms).2 r
                    (set_timer game (Some (nextHandle s)))).
Proof.
  intros (H1 & H2 & H3 & H4) Hg Hfree.
  assert (Hlt : r < length (heap s)) by (eapply lookup_lt_Some; eauto).
  unfold timersOk, timersOkOn. simpl. split_and!.
  - intros t Hin. apply in_app_or in Hin as [Hin|[<-|[]]]; simpl; [|lia].
    apply H1 in Hin. lia.
  - rewrite map_app. simpl.
    apply List.NoDup_app; [exact H2 | repeat constructor; tauto |].
    intros x Hx [<-|[]]. apply in_map_iff in Hx as (t & He & Hin).
    apply H1 in Hin. lia.
  - intros r' g' x Hg' Hx.
    apply list_lookup_insert_Some in Hg' as [(-> & <- & _)|[_ Hg']].
    + simpl in Hx. injection Hx as <-. lia.
    + specialize (H3 r' g' x Hg' Hx). lia.
  - intros t gameId' r' question' Hin Hcb.
    apply in_app_or in Hin as [Hin|[<-|[]]].
    + destruct (H4 t gameId' r' question' Hin Hcb) as (g' & Hg' & Hx).
      destruct (decide (r = r')) as [->|Hne].
      * now destruct (Hfree t gameId' question' Hin).
      * exists g'. now rewrite list_lookup_insert_ne.
    + simpl in Hcb. injection Hcb as <- <- <-. simpl.
      exists (set_timer game (Some (nextHandle s))).
      rewrite list_lookup_insert_eq by exact Hlt. split; reflexivity.
Qed.

Lemma timersOk_startQuestionTimer (s : Server) (gameId : string) :
  timersOk s → timersOk (startQuestionTimer s gameId).
Proof.
  intros Hok. unfold startQuestionTimer.
  destruct (getGame s gameId) as [[r game]|] eqn:Hg; [|exact Hok].
  apply getGame_heap in Hg as [_ Hh].
  destruct (questions (quiz game) !! currentQuestion game) as [question|];
    [|exact Hok].
  destruct (timer game) as [h0|] eqn:Ht.
  - apply (timersOk_schedule (clearTimeout s h0) gameId r game question);
      [now apply timersOk_clearTimeout | exact Hh |].
    intros t gameId' question' Hin Hcb. simpl in Hin.
    apply In_pending_filter in Hin as [Hne Hin].
    destruct Hok as (_ & _ & _ & H4).
    destruct (H4 t gameId' r question' Hin Hcb) as (g' & Hg' & Hx).
    congruence.
  - apply (timersOk_schedule s gameId r game question); [exact Hok | exact Hh |].
    intros t gameId' question' Hin Hcb.
    destruct Hok as (_ & _ & _ & H4).
    destruct (H4 t gameId' r question' Hin Hcb) as (g' & Hg' & Hx).
    congruence.
Qed.

Lemma timersOk_disconnect_fold (socketId : string) (ts : list Timeout)
  (next : nat) (entries : list (string * nat)) :
  ∀ (h : list Game) (out : list Emit),
    timersOkOn h ts next →
    timersOkOn (fold_left (disconnectGame socketId) entries (h, out)).1 ts next.
Proof.
  induction entries as [|e entries IH]; simpl; intros h out Hok; [exact Hok|].
  destruct (disconnectGame socketId (h, out) e) as [h1 out1] eqn:E.
  apply IH. unfold disconnectGame in E. simpl in E.
  destruct (h !! e.2) as [game|] eqn:Hh; [|now injection E as <- <-].
  destruct (JsMap.has (players game) socketId); [|now injection E as <- <-].
  injection E as <- <-. now apply timersOkOn_insert with (g := game).
Qed.

Lemma timersOk_nextQuestion (s : Server) (gameId : string) :
  timersOk s → timersOk (state_of (nextQuestion s gameId)).
Proof.
  intros Hok. unfold nextQuestion.
  destruct (getGame s gameId) as [[r game]|] eqn:Hg; [|exact Hok].
  apply getGame_heap in Hg as [_ Hh].
  set (g1 := match questions (quiz game) !! currentQuestion game with
             | Some current => _ | None => _ end).
  assert (Ht : timer g1.1 = timer game)
    by (subst g1; now destruct (questions (quiz game) !! currentQuestion game)).
  destruct g1 as [game1 out1]. simpl in Ht. simpl.
  assert (Hput : timersOk (putGame s r (set_currentQuestion game1
                                          (S (currentQuestion game1)))))
    by (now apply timersOk_putGame with (g := game)).
  destruct (questions (quiz game1) !! S (currentQuestion game1));
    unfold state_of; simpl; [now apply timersOk_startQuestionTimer | exact Hput].
Qed.

Lemma timersOk_runCallback (s : Server) (cb : Callback) :
  timersOk s → timersOk (state_of (runCallback s cb)).
Proof.
  intros Hok. destruct cb as [gameId r question|gameId r|gameId r]; simpl;
    (destruct (heap s !! r) as [game|] eqn:Hh; [|exact Hok]).
  - apply (timersOk_setTimeout
             (putGame s r (set_answers game (JsMap.clear (answers game))))
             (RevealPause gameId r) 3000 eq_refl).
    now apply timersOk_putGame with (g := game).
  - assert (Hput : timersOk (putGame s r (set_currentQuestion game
                                            (S (currentQuestion game)))))
      by (now apply timersOk_putGame with (g := game)).
    destruct (questions (quiz game) !! S (currentQuestion game));
      unfold state_of; simpl;
      [now apply timersOk_startQuestionTimer | exact Hput].
  - destruct (questions (quiz game) !! currentQuestion game);
      unfold state_of; simpl;
      [now apply timersOk_startQuestionTimer | exact Hok].
Qed.

Lemma timersOk_step (s : Server) (i : Input) :
  timersOk s → timersOk (state_of (step s i)).
Proof.
  intros Hok.
  destruct i as [socketId [random qz|gameId name|gameId a|gameId|gameId|]|h];
    simpl.
  - unfold createGame, state_of, timersOk. simpl.
    now apply timersOkOn_alloc.
  - unfold joinGame.
    destruct (getGame s gameId) as [[r game]|] eqn:Hg; [|exact Hok].
    apply getGame_heap in Hg as [_ Hh].
    unfold state_of, timersOk. simpl.
    now apply timersOkOn_insert with (g := game).
  - unfold submitAnswer.
    destruct (getGame s gameId) as [[r game]|] eqn:Hg; [|exact Hok].
    apply getGame_heap in Hg as [_ Hh].
    destruct (JsMap.get (players game) socketId) as [player|]; [|exact Hok].
    destruct (JsMap.has (answers game) socketId); [exact Hok|]. simpl.
    destruct (questions (quiz game) !! currentQuestion game) as [current|];
      [destruct (Z.eqb a (correctAnswer current))|];
      unfold state_of; simpl; now apply timersOk_putGame with (g := game).
  - now apply timersOk_nextQuestion.
  - unfold startCountdown.
    destruct (getGame s gameId) as [[r game]|]; [|exact Hok].
    apply (timersOk_setTimeout s (CountdownDone gameId r) 5000 eq_refl Hok).
  - unfold disconnect, state_of, timersOk. simpl.
    now apply timersOk_disconnect_fold.
  - unfold fire. destruct (List.find _ (timeouts s)) as [t|]; [|exact Hok].
    apply timersOk_runCallback. now apply timersOk_clearTimeout.
Qed.

Lemma timersOk_run (tr : list Input) : timersOk (run initial tr).1.
Proof.
  induction tr as [|i tr IH] using rev_ind.
  - split_and!; simpl; [intros ? [] | constructor | |intros ? ? ? ? []].
    intros r g x Hg. destruct r; discriminate.
  - rewrite run_snoc. simpl. now apply timersOk_step.
Qed.

Lemma same_handle_same_timeout (ts : list Timeout) (t1 t2 : Timeout) :
  List.NoDup (map handle ts) → In t1 ts → In t2 ts →
  handle t1 = handle t2 → t1 = t2.
Proof.
  induction ts as [|t ts IH]; simpl; intros Hnd H1 H2 He; [destruct H1|].
  apply NoDup_cons_iff in Hnd as [Hni Hnd].
  destruct H1 as [<-|H1], H2 as [<-|H2]; auto.
  - destruct Hni. rewrite He. now apply in_map.
  - destruct Hni. rewrite <- He. now apply in_map.
Qed.

(** X4. After any run from the empty server, a game object has at most
    one question timeout pending, and it is the one whose handle the
    object keeps in [game.timer] (what [clearTimeout(game.timer)] in
    [startQuestionTimer] achieves); pending handles are pairwise
    distinct.  The reveal pause and the countdown timeouts are outside
    this bookkeeping. *)
Theorem one_question_timeout_per_game (tr : list Input) :
  let s := (run initial tr).1 in
  List.NoDup (map handle (timeouts s)) ∧
  (∀ t gameId r question,
     In t (timeouts s) → callback t = QuestionTimeout gameId r question →
     ∃ g, heap s !! r = Some g ∧ timer g = Some (handle t)) ∧
  (∀ t1 t2 gameId1 gameId2 r question1 question2,
     In t1 (timeouts s) → In t2 (timeouts s) →
     callback t1 = QuestionTimeout gameId1 r question1 →
     callback t2 = QuestionTimeout gameId2 r question2 →
     t1 = t2).
Proof.
  simpl. destruct (timersOk_run tr) as (H1 & H2 & H3 & H4).
  split_and!; [exact H2 | exact H4 |].
  intros t1 t2 gameId1 gameId2 r question1 question2 Hi1 Hi2 Hc1 Hc2.
  destruct (H4 t1 _ _ _ Hi1 Hc1) as (g1 & Hg1 & Hx1).
  destruct (H4 t2 _ _ _ Hi2 Hc2) as (g2 & Hg2 & Hx2).
  apply (same_handle_same_timeout _ t1 t2 H2 Hi1 Hi2). congruence.
Qed.

Lemma one_question_timeout_per_game_witness :
  ∃ g, heap (run initial (opening quizB ++
                          [Fire 1; Cmd "host" (NextQuestion "k3x9ab")])).1 !! 0
       = Some g ∧
       timer g = Some 3.
Proof.
  destruct (one_question_timeout_per_game
              (opening quizB ++ [Fire 1; Cmd "host" (NextQuestion "k3x9ab")]))
    as (_ & H & _).
  apply (H (mkTimeout 3 10000 (QuestionTimeout "k3x9ab" 0 q2)) "k3x9ab" 0 q2);
    [simpl; right; now left | reflexivity].
Defined.

(** ** Sessions are created by createGame and never removed *)

Lemma getGame_is_Some (s : Server) (c : string) :
  registryOk s →
  is_Some (getGame s c) ↔ is_Some (JsMap.get (activeGames s) c).
Proof.
  intros [Hlt _]. unfold getGame.
  destruct (JsMap.get (activeGames s) c) as [r|] eqn:E.
  - destruct (lookup_lt_is_Some_2 (heap s) r (Hlt c r E)) as [g ->].
    split; eauto.
  - split; intros [? ?]; discriminate.
Qed.

(** X5. After any run from the empty server, a code has a session
    exactly when some [createGame] of the run drew it: no command and no
    timeout removes a session, neither at game over nor when its last
    player leaves. *)
Theorem session_exists_iff_created (tr : list Input) (c : string) :
  is_Some (getGame (run initial tr).1 c) ↔
  ∃ socketId qz, In (Cmd socketId (CreateGame c qz)) tr.
Proof.
  rewrite getGame_is_Some by apply registryOk_run.
  induction tr as [|i tr IH] using rev_ind.
  - simpl. split; [intros [? ?]; discriminate | intros (? & ? & [])].
  - rewrite run_snoc. simpl.
    destruct (step_registry (run initial tr).1 i)
      as [(socketId & random & qz & ->)|[Ha Hl]].
    + simpl. unfold createGame, state_of. simpl.
      destruct (String.eqb_spec random c) as [->|Hne].
      * rewrite get_set_eq. split; [|eauto].
        intros _. exists socketId, qz. apply in_or_app. right. now left.
      * rewrite get_set_ne by exact Hne. rewrite IH. split.
        -- intros (s0 & q0 & Hin). exists s0, q0. apply in_or_app. now left.
        -- intros (s0 & q0 & Hin). apply in_app_or in Hin as [Hin|[[=]|[]]];
             [eauto | congruence].
    + rewrite Ha, IH. split.
      * intros (s0 & q0 & Hin). exists s0, q0. apply in_or_app. now left.
      * intros (s0 & q0 & Hin). apply in_app_or in Hin as [Hin|[->|[]]]; [eauto|].
        exfalso. simpl in Hl. unfold createGame, state_of in Hl. simpl in Hl.
        rewrite length_app in Hl. simpl in Hl. lia.
Qed.

(** ** disconnect *)

Lemma refs_set (m : JsMap.t nat) (k : string) (v x : nat) :
  In x (map snd (JsMap.set m k v)) → x = v ∨ In x (map snd m).
Proof.
  intros Hin. apply in_map_iff in Hin as ([c r] & <- & Hin).
  apply In_set in Hin as [[= -> ->]|Hin]; [now left|].
  right. apply in_map_iff. exists (c, r). auto.
Qed.

Lemma refs_set_NoDup (m : JsMap.t nat) (k : string) (v : nat) :
  List.NoDup (map snd m) → ¬ In v (map snd m) →
  List.NoDup (map snd (JsMap.set m k v)).
Proof.
  induction m as [|[k' v'] m IH]; simpl; intros Hnd Hv.
  - constructor; [tauto | constructor].
  - apply NoDup_cons_iff in Hnd as [Hni Hnd].
    destruct (String.eqb k' k); simpl.
    + constructor; [tauto | exact Hnd].
    + constructor; [|apply IH; tauto].
      intros Hin. apply refs_set in Hin as [->|Hin]; tauto.
Qed.

Lemma registryDistinct_step (s : Server) (i : Input) :
  registryDistinct s → registryDistinct (state_of (step s i)).
Proof.
  intros (Hk & Hr & Hlt).
  destruct (step_registry s i) as [(socketId & random & qz & ->)|[Ha Hl]].
  - simpl. unfold createGame, state_of, registryDistinct. simpl. split_and!.
    + now apply keys_set_NoDup.
    + apply refs_set_NoDup; [exact Hr|].
      intros Hin. apply in_map_iff in Hin as ([c r] & Heq & Hin).
      simpl in Heq. subst r. apply Hlt in Hin. lia.
    + intros c r Hin. rewrite length_app. simpl.
      apply In_set in Hin as [[= -> ->]|Hin]; [lia|].
      apply Hlt in Hin. lia.
  - unfold registryDistinct. rewrite Ha, Hl. split_and!; assumption.
Qed.


Lemma In_get {V : Type} (m : JsMap.t V) (k : string) (v : V) :
  List.NoDup (JsMap.keys m) → In (k, v) m → JsMap.get m k = Some v.
Proof.
  induction m as [|[k' v'] m IH]; simpl; intros Hnd Hin; [destruct Hin|].
  apply NoDup_cons_iff in Hnd as [Hni Hnd].
  destruct Hin as [[= -> ->]|Hin].
  - now rewrite String.eqb_refl.
  - destruct (String.eqb_spec k' k) as [->|Hne]; [|now apply IH].
    destruct Hni. apply in_map_iff. exists (k, v). auto.
Qed.


Lemma flat_map_agree {A B : Type} (f g : A → list B) (l : list A) :
  (∀ a, In a l → f a = g a) → flat_map f l = flat_map g l.
Proof.
  induction l as [|a l IH]; simpl; intros H; [reflexivity|].
  rewrite (H a) by now left. f_equal. apply IH. intros; apply H; now right.
Qed.

Lemma disconnectGame_other (socketId : string) (h : list Game) (out : list Emit)
  (entry : string * nat) (r : nat) :
  r ≠ entry.2 → (disconnectGame socketId (h, out) entry).1 !! r = h !! r.
Proof.
  intros Hne. unfold disconnectGame. simpl.
  destruct (h !! entry.2) as [game|]; [|reflexivity].
  destruct (JsMap.has (players game) socketId); [|reflexivity].
  simpl. apply list_lookup_insert_ne. congruence.
Qed.

Lemma disconnect_fold_emits (socketId : string) (entries : list (string * nat)) :
  ∀ (h : list Game) (out : list Emit),
    List.NoDup (map snd entries) →
    (fold_left (disconnectGame socketId) entries (h, out)).2
    = out ++ flat_map (leftEvent socketId h) entries.
Proof.
  induction entries as [|e entries IH]; simpl; intros h out Hnd.
  - now rewrite app_nil_r.
  - apply NoDup_cons_iff in Hnd as [Hni Hnd].
    destruct (disconnectGame socketId (h, out) e) as [h1 out1] eqn:E.
    rewrite (IH h1 out1 Hnd).
    assert (Hout : out1 = out ++ leftEvent socketId h e).
    { unfold disconnectGame, leftEvent in *. simpl in E.
      destruct (h !! e.2) as [game|];
        [|injection E as <- <-; now rewrite app_nil_r].
      destruct (JsMap.has (players game) socketId);
        injection E as <- <-; [reflexivity | now rewrite app_nil_r]. }
    rewrite Hout, <- app_assoc. f_equal. f_equal.
    apply flat_map_agree. intros e' Hin. unfold leftEvent.
    assert (Hne : e'.2 ≠ e.2).
    { intros Heq. apply Hni. rewrite <- Heq. now apply in_map. }
    pose proof (disconnectGame_other socketId h out e e'.2 Hne) as Hsame.
    rewrite E in Hsame. simpl in Hsame. now rewrite Hsame.
Qed.

Lemma left_events_by_code (s : Server) (socketId : string)
  (entries : list (string * nat)) :
  (∀ c r, In (c, r) entries → JsMap.get (activeGames s) c = Some r) →
  flat_map (leftEvent socketId (heap s)) entries
  = map (fun c => (ToRoom c, PlayerLeft socketId))
        (List.filter (fun c => isMember s c socketId) (map fst entries)).
Proof.
  induction entries as [|[c r] entries IH]; simpl; intros Hget; [reflexivity|].
  rewrite IH by (intros; apply Hget; now right).
  assert (Hm : isMember s c socketId
               = match heap s !! r with
                 | Some game => JsMap.has (players game) socketId
                 | None => false
                 end).
  { unfold isMember, getGame. rewrite (Hget c r) by now left.
    now destruct (heap s !! r). }
  rewrite Hm. unfold leftEvent. simpl.
  destruct (heap s !! r) as [game|]; [|reflexivity].
  now destruct (JsMap.has (players game) socketId).
Qed.



(** ** What submitAnswer ignores, and what commands to an unknown code do *)

(** X7. [submitAnswer] is ignored exactly in its three early returns:
    no session under the code, the sender not in the player map, or an
    answer of the sender already on record.  Then it returns with the
    state as it was and emits nothing.  In every other case the state
    changes: the answer is written into the record, whether or not the
    handler then returns. *)
Theorem submitAnswer_ignored_iff
  (s : Server) (socketId gameId : string) (a : Z) :
  let o := step s (Cmd socketId (SubmitAnswer gameId a)) in
  (submitIgnored s socketId gameId → o = (s, [], Returned)) ∧
  (¬ submitIgnored s socketId gameId →
   state_of o ≠ s ∧
   ∃ r game', getGame (state_of o) gameId = Some (r, game') ∧
              JsMap.get (answers game') socketId = Some a).
Proof.
  simpl. unfold submitIgnored. split.
  - unfold submitAnswer.
    destruct (getGame s gameId) as [[r game]|]; [|reflexivity].
    intros [Hp|Ha]; [now rewrite Hp|].
    rewrite Ha. now destruct (JsMap.get (players game) socketId).
  - destruct (getGame s gameId) as [[r game]|] eqn:Hg; [|tauto].
    intros Hn.
    destruct (JsMap.get (players game) socketId) as [player|] eqn:Hp; [|tauto].
    destruct (JsMap.has (answers game) socketId) eqn:Ha; [tauto|].
    destruct (submitAnswer_records s socketId gameId a r game player Hg Hp Ha)
      as (game1 & Hg1 & Ha1).
    assert (Hget : JsMap.get (answers game1) socketId = Some a)
      by (rewrite Ha1; apply get_set_eq).
    split; [|eauto].
    intros Heq. rewrite Heq, Hg in Hg1. injection Hg1 as <-.
    apply has_false in Ha. congruence.
Qed.

(** X8. A command addressed to a code with no session leaves the whole
    server state as it is: [joinGame] answers the error
    "Game not found" to the caller alone, and [submitAnswer],
    [nextQuestion] and [startCountdown] emit nothing. *)
Theorem unknown_code_is_harmless (s : Server) (socketId gameId : string) :
  getGame s gameId = None →
  (∀ name, step s (Cmd socketId (JoinGame gameId name))
           = (s, [(ToSocket socketId, ErrorMsg "Game not found")], Returned)) ∧
  (∀ a, step s (Cmd socketId (SubmitAnswer gameId a)) = (s, [], Returned)) ∧
  step s (Cmd socketId (NextQuestion gameId)) = (s, [], Returned) ∧
  step s (Cmd socketId (StartCountdownCmd gameId)) = (s, [], Returned).
Proof.
  intros Hg. simpl.
  unfold joinGame, submitAnswer, nextQuestion, startCountdown.
  rewrite Hg. auto.
Qed.

Lemma unknown_code_is_harmless_witness :
  step shownA (Cmd "p9" (JoinGame "zzzzzz" "eve"))
  = (shownA, [(ToSocket "p9", ErrorMsg "Game not found")], Returned).
Proof.
  exact (proj1 (unknown_code_is_harmless shownA "p9" "zzzzzz" eq_refl) "eve").
Defined.

(** ** nextQuestion after the last question *)

Lemma set_currentQuestion_twice (g : Game) (a b : nat) :
  set_currentQuestion (set_currentQuestion g a) b = set_currentQuestion g b.
Proof. reflexivity. Qed.

Lemma nextQuestion_past_end (s : Server) (gameId : string) (r : nat) (game : Game) :
  getGame s gameId = Some (r, game) →
  questions (quiz game) !! currentQuestion game = None →
  nextQuestion s gameId
  = (putGame s r (set_currentQuestion game (S (currentQuestion game))),
     [(ToRoom gameId, GameOver (JsMap.values (players game)))], Returned).
Proof.
  intros Hg Hq. unfold nextQuestion. rewrite Hg, Hq. simpl.
  assert (Hq' : questions (quiz game) !! S (currentQuestion game) = None).
  { apply lookup_ge_None in Hq. apply lookup_ge_None. lia. }
  now rewrite Hq'.
Qed.

(** X9. Once the index of a session has passed the last question, every
    further [nextQuestion] emits [gameOver] with the roster again and
    nothing else, and increments the index once more; the player map,
    the answer record and the pending timeouts are not touched, so a
    timeout still pending at game over is never cancelled this way. *)
Theorem nextQuestion_after_the_end
  (socketId gameId : string) (n : nat) :
  ∀ (s : Server) (r : nat) (game : Game),
    getGame s gameId = Some (r, game) →
    questions (quiz game) !! currentQuestion game = None →
    let res := run s (repeat (Cmd socketId (NextQuestion gameId)) n) in
    res.2 = repeat (ToRoom gameId, GameOver (JsMap.values (players game))) n ∧
    getGame res.1 gameId
      = Some (r, set_currentQuestion game (n + currentQuestion game)) ∧
    timeouts res.1 = timeouts s.
Proof.
  induction n as [|n IH]; intros s r game Hg Hq; simpl.
  - split_and!; [reflexivity | | reflexivity].
    rewrite Hg. now destruct game.
  - rewrite (nextQuestion_past_end s gameId r game Hg Hq).
    unfold state_of, emitted. simpl.
    assert (Hq' : questions (quiz game) !! S (currentQuestion game) = None).
    { apply lookup_ge_None in Hq. apply lookup_ge_None. lia. }
    destruct (IH (putGame s r (set_currentQuestion game (S (currentQuestion game))))
                 r (set_currentQuestion game (S (currentQuestion game)))
                 (getGame_putGame s gameId r game _ Hg) Hq')
      as (He & Hg2 & Ht).
    split_and!.
    + f_equal. exact He.
    + rewrite Hg2. simpl. rewrite set_currentQuestion_twice.
      do 3 f_equal. lia.
    + rewrite Ht. reflexivity.
Qed.

Lemma nextQuestion_after_the_end_witness :
  (run overA (repeat (Cmd "host" (NextQuestion "k3x9ab")) 3)).2
  = repeat (ToRoom "k3x9ab", GameOver [mkPlayer "p1" "alice" 0]) 3 ∧
  map handle (timeouts (run overA (repeat (Cmd "host" (NextQuestion "k3x9ab")) 3)).1)
  = [1].
Proof.
  destruct (nextQuestion_after_the_end "host" "k3x9ab" 3 overA 0
              (mkGame [("p1", mkPlayer "p1" "alice" 0)] 1 quizA [] (Some 1))
              eq_refl eq_refl) as (He & _ & Ht).
  split; [exact He|]. now rewrite Ht.
Defined.

(** ** Answers before the first question is shown *)

Lemma getGame_socket_join (s : Server) (socketId room c : string) :
  getGame (socket_join s socketId room) c = getGame s c.
Proof. reflexivity. Qed.

(** X10. The server keeps no lobby state: a new game has index 0, so
    an answer is accepted as soon as a player has joined, before any
    [startCountdown] or [newQuestion].  From any state, [createGame],
    then [joinGame] by a connection, then [submitAnswer] of that
    connection with the correct index of the first question emit
    [gameCreated], [playerJoined] and [scoreUpdate] with 1000 points. *)
Theorem answer_scores_before_start
  (s : Server) (host p random name : string) (qz : Quiz) (q0 : Question) :
  questions qz !! 0 = Some q0 →
  (run s [Cmd host (CreateGame random qz);
          Cmd p (JoinGame random name);
          Cmd p (SubmitAnswer random (correctAnswer q0))]).2
  = [(ToSocket host, GameCreated random);
     (ToRoom random, PlayerJoined (mkPlayer p name 0));
     (ToRoom random, ScoreUpdate p 1000)].
Proof.
  intros Hq.
  set (s1 := state_of (createGame s host random qz)).
  set (g2 := set_players (newGame qz)
               (JsMap.set (players (newGame qz)) p (mkPlayer p name 0))).
  set (s2 := socket_join (putGame s1 (length (heap s)) g2) p random).
  assert (H1 : getGame s1 random = Some (length (heap s), newGame qz))
    by apply createGame_session.
  assert (E2 : joinGame s1 p random name
               = (s2, [(ToRoom random, PlayerJoined (mkPlayer p name 0))],
                  Returned))
    by (unfold joinGame; now rewrite H1).
  assert (H2 : getGame s2 random = Some (length (heap s), g2)).
  { unfold s2. rewrite getGame_socket_join.
    now apply getGame_putGame with (g := newGame qz). }
  assert (E3 : emitted (submitAnswer s2 p random (correctAnswer q0))
               = [(ToRoom random, ScoreUpdate p 1000)]).
  { unfold submitAnswer. rewrite H2. unfold g2. simpl.
    rewrite String.eqb_refl. simpl. rewrite Hq, Z.eqb_refl. reflexivity. }
  change ((run s [Cmd host (CreateGame random qz);
                  Cmd p (JoinGame random name);
                  Cmd p (SubmitAnswer random (correctAnswer q0))]).2)
    with (emitted (createGame s host random qz)
          ++ emitted (joinGame s1 p random name)
          ++ emitted (submitAnswer (state_of (joinGame s1 p random name))
                                   p random (correctAnswer q0))
          ++ []).
  rewrite E2. unfold state_of at 1. simpl fst. rewrite E3. reflexivity.
Qed.

Lemma answer_scores_before_start_witness :
  (run initial [Cmd "host" (CreateGame "k3x9ab" quizB);
                Cmd "p1" (JoinGame "k3x9ab" "alice");
                Cmd "p1" (SubmitAnswer "k3x9ab" 3)]).2
  = [(ToSocket "host", GameCreated "k3x9ab");
     (ToRoom "k3x9ab", PlayerJoined (mkPlayer "p1" "alice" 0));
     (ToRoom "k3x9ab", ScoreUpdate "p1" 1000)].
Proof.
  exact (answer_scores_before_start initial "host" "p1" "k3x9ab" "alice"
           quizB q1 eq_refl).
Defined.

(** ** The start sequence of the host client *)

Lemma nextQuestion_emits (s : Server) (gameId : string) (r : nat) (game : Game)
  (current : Question) :
  getGame s gameId = Some (r, game) →
  questions (quiz game) !! currentQuestion game = Some current →
  emitted (nextQuestion s gameId)
  = [(ToRoom gameId,
      RevealAnswer (correctAnswer current)
                   (correctPlayersOf (answers game) current)
                   (JsMap.values (players game)));
     (ToRoom gameId,
      match questions (quiz game) !! S (currentQuestion game) with
      | None => GameOver (JsMap.values (players game))
      | Some next => NewQuestion next (timeLimit next)
      end)].
Proof.
  intros Hg Hq. unfold nextQuestion. rewrite Hg, Hq. simpl.
  now destruct (questions (quiz game) !! S (currentQuestion game)).
Qed.

Lemma state_of_mk (s : Server) (out : list Emit) (c : Completion) :
  state_of (s, out, c) = s.
Proof. reflexivity. Qed.

Lemma emitted_mk (s : Server) (out : list Emit) (c : Completion) :
  emitted (s, out, c) = out.
Proof. reflexivity. Qed.

Lemma run_three (s : Server) (i1 i2 i3 : Input) :
  (run s [i1; i2; i3]).2
  = emitted (step s i1)
    ++ emitted (step (state_of (step s i1)) i2)
    ++ emitted (step (state_of (step (state_of (step s i1)) i2)) i3).
Proof. simpl. now rewrite app_nil_r. Qed.

Lemma find_fresh (ts : list Timeout) (t : Timeout) :
  (∀ t', In t' ts → handle t' ≠ handle t) →
  List.find (fun t' => Nat.eqb (handle t') (handle t)) (ts ++ [t]) = Some t.
Proof.
  induction ts as [|t0 ts IH]; simpl; intros Hne.
  - now rewrite Nat.eqb_refl.
  - destruct (Nat.eqb_spec (handle t0) (handle t)) as [He|_].
    + now destruct (Hne t0 (or_introl eq_refl)).
    + apply IH. intros t' Hin. apply Hne. now right.
Qed.

(** X11. The host client sends [startCountdown] and, when its own
    countdown ends, [nextQuestion] (App.tsx, the [startCountdown]
    listener).  On a game at index 0 with at least two questions, when
    the server's countdown timeout fires before that [nextQuestion]
    arrives, the room gets [startCountdown], [newQuestion] for question
    0, then at once [revealAnswer] for question 0 and [newQuestion] for
    question 1: the [nextQuestion] handler reveals the question that
    has just been shown, without waiting for its time limit. *)
Theorem start_sequence_reveals_first_question
  (s : Server) (host gameId : string) (r : nat) (game : Game)
  (q0 q1' : Question) (rest : list Question) :
  timersOk s →
  getGame s gameId = Some (r, game) →
  currentQuestion game = 0 →
  questions (quiz game) = q0 :: q1' :: rest →
  (run s [Cmd host (StartCountdownCmd gameId);
          Fire (nextHandle s);
          Cmd host (NextQuestion gameId)]).2
  = [(ToRoom gameId, StartCountdown);
     (ToRoom gameId, NewQuestion q0 (timeLimit q0));
     (ToRoom gameId,
      RevealAnswer (correctAnswer q0)
                   (correctPlayersOf (answers game) q0)
                   (JsMap.values (players game)));
     (ToRoom gameId, NewQuestion q1' (timeLimit q1'))].
Proof.
  intros Hok Hg Hc Hqs.
  pose proof (getGame_heap _ _ _ _ Hg) as [Ha Hh].
  set (t0 := mkTimeout (nextHandle s) 5000 (CountdownDone gameId r)).
  set (s1 := (setTimeout s (CountdownDone gameId r) 5000).2).
  assert (E1 : startCountdown s gameId
               = (s1, [(ToRoom gameId, StartCountdown)], Returned))
    by (unfold startCountdown; now rewrite Hg).
  assert (Hfind : List.find (fun t => Nat.eqb (handle t) (nextHandle s))
                            (timeouts s1) = Some t0).
  { apply (find_fresh (timeouts s) t0). intros t' Hin.
    destruct Hok as (H1 & _). apply H1 in Hin. simpl. lia. }
  assert (Hq0 : questions (quiz game) !! currentQuestion game = Some q0)
    by (now rewrite Hc, Hqs).
  assert (Hq1 : questions (quiz game) !! S (currentQuestion game) = Some q1')
    by (now rewrite Hc, Hqs).
  set (s1' := clearTimeout s1 (nextHandle s)).
  assert (E2 : fire s1 (nextHandle s)
               = (startQuestionTimer s1' gameId,
                  [(ToRoom gameId, NewQuestion q0 (timeLimit q0))], Returned)).
  { rewrite (fire_pending s1 (nextHandle s) t0 Hfind). simpl.
    change (heap (clearTimeout s1 (nextHandle s))) with (heap s).
    now rewrite Hh, Hq0. }
  destruct (startQuestionTimer_lookup s1' gameId r game Hh)
    as (g' & Hg' & Hp' & Hc' & Hqz' & Han').
  assert (H2 : getGame (startQuestionTimer s1' gameId) gameId = Some (r, g')).
  { unfold getGame. rewrite startQuestionTimer_activeGames.
    change (activeGames s1') with (activeGames s). now rewrite Ha, Hg'. }
  assert (E3 : emitted (nextQuestion (startQuestionTimer s1' gameId) gameId)
               = [(ToRoom gameId,
                   RevealAnswer (correctAnswer q0)
                                (correctPlayersOf (answers game) q0)
                                (JsMap.values (players game)));
                  (ToRoom gameId, NewQuestion q1' (timeLimit q1'))]).
  { rewrite (nextQuestion_emits _ gameId r g' q0 H2)
      by (now rewrite Hqz', Hc').
    now rewrite Hqz', Hc', Hq1, Han', Hp'. }
  rewrite run_three.
  change (step s (Cmd host (StartCountdownCmd gameId)))
    with (startCountdown s gameId).
  rewrite E1, state_of_mk, emitted_mk.
  change (step s1 (Fire (nextHandle s))) with (fire s1 (nextHandle s)).
  rewrite E2, state_of_mk, emitted_mk.
  change (step (startQuestionTimer s1' gameId) (Cmd host (NextQuestion gameId)))
    with (nextQuestion (startQuestionTimer s1' gameId) gameId).
  rewrite E3. reflexivity.
Qed.

Lemma start_sequence_reveals_first_question_witness :
  (run lobbyB [Cmd "host" (StartCountdownCmd "k3x9ab");
               Fire 0;
               Cmd "host" (NextQuestion "k3x9ab")]).2
  = [(ToRoom "k3x9ab", StartCountdown);
     (ToRoom "k3x9ab", NewQuestion q1 5);
     (ToRoom "k3x9ab", RevealAnswer 3 [] [mkPlayer "p1" "alice" 0]);
     (ToRoom "k3x9ab", NewQuestion q2 10)].
Proof.
  exact (start_sequence_reveals_first_question lobbyB "host" "k3x9ab" 0
           (mkGame [("p1", mkPlayer "p1" "alice" 0)] 0 quizB [] None)
           q1 q2 []
           (timersOk_run [Cmd "host" (CreateGame "k3x9ab" quizB);
                          Cmd "p1" (JoinGame "k3x9ab" "alice")])
           eq_refl eq_refl eq_refl).
Defined.

(** * The client's player list against the server's roster *)

(** ** Rosters after [set] and [delete] *)

Lemma values_set_fresh {V : Type} (m : JsMap.t V) (k : string) (v : V) :
  JsMap.get m k = None → JsMap.values (JsMap.set m k v) = JsMap.values m ++ [v].
Proof.
  induction m as [|[k' v'] m IH]; simpl; [reflexivity|].
  destruct (String.eqb k' k); [discriminate|].
  intros H. simpl. f_equal. now apply IH.
Qed.

Lemma values_set_score (m : JsMap.t Player) (p : string) (player : Player) (sc : Z) :
  List.NoDup (JsMap.keys m) →
  (∀ k q, In (k, q) m → player_id q = k) →
  JsMap.get m p = Some player →
  JsMap.values (JsMap.set m p (mkPlayer (player_id player) (username player) sc))
  = map (fun q => if String.eqb (player_id q) p
                  then mkPlayer (player_id q) (username q) sc else q)
        (JsMap.values m).
Proof.
  induction m as [|[k q] m IH]; simpl; intros Hnd Hid Hget; [discriminate|].
  apply NoDup_cons_iff in Hnd as [Hni Hnd].
  pose proof (Hid k q (or_introl eq_refl)) as Hk.
  destruct (String.eqb_spec k p) as [->|Hne].
  - injection Hget as ->. simpl. rewrite Hk, String.eqb_refl. f_equal.
    symmetry. rewrite <- (map_id (JsMap.values m)) at 2.
    apply map_ext_in. intros q' Hin. unfold JsMap.values in Hin.
    apply in_map_iff in Hin as ([k' q''] & Heq & Hin). simpl in Heq. subst q''.
    destruct (String.eqb_spec (player_id q') p) as [He|_]; [|reflexivity].
    destruct Hni. rewrite <- He, (Hid k' q') by now right.
    apply in_map_iff. exists (k', q'). auto.
  - simpl. rewrite Hk. apply String.eqb_neq in Hne. rewrite Hne. f_equal.
    apply IH; [exact Hnd | intros; apply Hid; now right | exact Hget].
Qed.

Lemma values_delete (m : JsMap.t Player) (p : string) :
  (∀ k q, In (k, q) m → player_id q = k) →
  JsMap.values (JsMap.delete m p)
  = List.filter (fun q => negb (String.eqb (player_id q) p)) (JsMap.values m).
Proof.
  induction m as [|[k q] m IH]; simpl; intros Hid; [reflexivity|].
  rewrite (Hid k q) by now left.
  destruct (String.eqb k p); simpl.
  - apply IH. intros; apply Hid; now right.
  - f_equal. apply IH. intros; apply Hid; now right.
Qed.

(** ** The roster of a session across handlers *)

Lemma rosterOf_insert (s s' : Server) (c c0 : string) (r0 : nat) (g0 gX : Game) :
  registryOk s → getGame s c0 = Some (r0, g0) →
  activeGames s' = activeGames s → heap s' = <[r0 := gX]> (heap s) →
  rosterOf s' c
  = if String.eqb c0 c then JsMap.values (players gX) else rosterOf s c.
Proof.
  intros [Hlt Hinj] Hg0 Ha Hh. apply getGame_heap in Hg0 as [Ha0 Hh0].
  unfold rosterOf, getGame. rewrite Ha, Hh.
  destruct (String.eqb_spec c0 c) as [->|Hne].
  - rewrite Ha0, list_lookup_insert_eq by (eapply lookup_lt_Some; eauto).
    reflexivity.
  - destruct (JsMap.get (activeGames s) c) as [r|] eqn:Hc; [|reflexivity].
    rewrite list_lookup_insert_ne; [reflexivity|].
    intros ->. apply Hne. eapply Hinj; eauto.
Qed.

Lemma rosterOf_kept (s s' : Server) (c : string) :
  activeGames s' = activeGames s →
  length (heap s') = length (heap s) →
  playersKept (heap s) (heap s') →
  rosterOf s' c = rosterOf s c.
Proof.
  intros Ha Hl Hk. unfold rosterOf, getGame. rewrite Ha.
  destruct (JsMap.get (activeGames s) c) as [r|]; [|reflexivity].
  destruct (heap s' !! r) as [g'|] eqn:Hg'.
  - destruct (Hk r g' Hg') as (g & Hg & Hp & _). now rewrite Hg, Hp.
  - apply lookup_ge_None in Hg'. rewrite Hl in Hg'.
    apply lookup_ge_None in Hg'. now rewrite Hg'.
Qed.

Lemma roomEvents_app (c : string) (out1 out2 : list Emit) :
  roomEvents c (out1 ++ out2) = roomEvents c out1 ++ roomEvents c out2.
Proof. apply flat_map_app. Qed.

Lemma clientPlayers_app (view : list Player) (evs1 evs2 : list Event) :
  clientPlayers view (evs1 ++ evs2)
  = clientPlayers (clientPlayers view evs1) evs2.
Proof. apply fold_left_app. Qed.

Lemma roomEvents_room (c c' : string) (e : Event) :
  roomEvents c [(ToRoom c', e)] = if String.eqb c' c then [e] else [].
Proof. simpl. now destruct (String.eqb c' c). Qed.

(** ** The invariant of the comparison *)

Lemma mapsOk_step (s : Server) (i : Input) :
  (∀ r g, heap s !! r = Some g → mapsOk g) →
  ∀ r g, heap (state_of (step s i)) !! r = Some g → mapsOk g.
Proof.
  intros Hall r g' Hg'.
  destruct (step_updates s i r g' Hg') as [(g & Hg & Hu)|(_ & qz & ->)].
  - apply Hall in Hg. induction Hu; eauto using update_mapsOk.
  - apply mapsOk_newGame.
Qed.

Lemma startQuestionTimer_timeouts (s : Server) (gameId : string) (t : Timeout) :
  In t (timeouts (startQuestionTimer s gameId)) →
  In t (timeouts s) ∨
  (callbackGameId (callback t) = gameId ∧
   JsMap.get (activeGames s) gameId = Some (callbackGame (callback t))).
Proof.
  unfold startQuestionTimer.
  destruct (getGame s gameId) as [[r game]|] eqn:Hg; [|now left].
  apply getGame_heap in Hg as [Ha _].
  destruct (questions (quiz game) !! currentQuestion game) as [question|];
    [|now left].
  destruct (timer game) as [h0|]; simpl; intros Hin;
    apply in_app_or in Hin as [Hin|[<-|[]]]; simpl; auto.
  apply In_pending_filter in Hin as [_ Hin]. now left.
Qed.

Lemma timersBound_startQuestionTimer (s : Server) (gameId c : string) :
  timersBound s c → timersBound (startQuestionTimer s gameId) c.
Proof.
  intros Hb t Hin Hc. rewrite startQuestionTimer_activeGames.
  apply startQuestionTimer_timeouts in Hin as [Hin|[Hid Hget]]; [auto|].
  congruence.
Qed.

Lemma timersBound_nextQuestion (s : Server) (gameId c : string) :
  timersBound s c → timersBound (state_of (nextQuestion s gameId)) c.
Proof.
  intros Hb. unfold nextQuestion.
  destruct (getGame s gameId) as [[r game]|]; [|exact Hb].
  destruct (match questions (quiz game) !! currentQuestion game with
            | Some current => _ | None => _ end) as [game1 out1].
  destruct (questions (quiz (set_currentQuestion game1 (S (currentQuestion game1))))
              !! currentQuestion (set_currentQuestion game1
                                    (S (currentQuestion game1))));
    unfold state_of; simpl; [|exact Hb].
  apply timersBound_startQuestionTimer. exact Hb.
Qed.

Lemma timersBound_fire (s : Server) (h : nat) (c : string) :
  timersBound s c → timersBound (state_of (fire s h)) c.
Proof.
  intros Hb. unfold fire.
  destruct (List.find _ (timeouts s)) as [t0|] eqn:Hf; [|exact Hb].
  apply find_some in Hf as [Hin0 _].
  assert (Hb0 : timersBound (clearTimeout s h) c).
  { intros t Hin. simpl in Hin. apply In_pending_filter in Hin as [_ Hin].
    now apply Hb. }
  destruct (callback t0) as [gameId r question|gameId r|gameId r] eqn:Hcb; simpl.
  - destruct (heap s !! r) as [game|]; [|exact Hb0].
    unfold state_of. simpl. intros t Hin Hc. simpl in Hin.
    apply in_app_or in Hin as [Hin|[<-|[]]].
    + apply In_pending_filter in Hin as [_ Hin]. now apply Hb.
    + simpl in *. specialize (Hb t0 Hin0). rewrite Hcb in Hb. now apply Hb.
  - destruct (heap s !! r) as [game|]; [|exact Hb0].
    destruct (questions (quiz game) !! S (currentQuestion game));
      unfold state_of; simpl; [|exact Hb0].
    apply timersBound_startQuestionTimer. exact Hb0.
  - destruct (heap s !! r) as [game|]; [|exact Hb0].
    destruct (questions (quiz game) !! currentQuestion game);
      unfold state_of; simpl; [|exact Hb0].
    apply timersBound_startQuestionTimer. exact Hb0.
Qed.

Lemma hasSession_get (s : Server) (c : string) (r : nat) :
  registryOk s → JsMap.get (activeGames s) c = Some r → hasSession s c = true.
Proof.
  intros [Hlt _] Hget. unfold hasSession, getGame. rewrite Hget.
  destruct (lookup_lt_is_Some_2 (heap s) r (Hlt c r Hget)) as [g ->].
  reflexivity.
Qed.

Lemma timersBound_step (s : Server) (c : string) (i : Input) :
  registryOk s → calmInput s c i = true →
  timersBound s c → timersBound (state_of (step s i)) c.
Proof.
  intros Hreg Hcalm Hb.
  destruct i as [socketId [random qz|gameId name|gameId a|gameId|gameId|]|h];
    simpl.
  - intros t Hin Hc. unfold createGame, state_of in *. simpl in *.
    specialize (Hb t Hin Hc).
    destruct (String.eqb_spec random c) as [->|Hne].
    + rewrite (hasSession_get s c _ Hreg Hb) in Hcalm. discriminate.
    + now rewrite get_set_ne.
  - unfold joinGame. destruct (getGame s gameId) as [[r game]|]; exact Hb.
  - unfold submitAnswer.
    destruct (getGame s gameId) as [[r game]|]; [|exact Hb].
    destruct (JsMap.get (players game) socketId); [|exact Hb].
    destruct (JsMap.has (answers game) socketId); [exact Hb|]. simpl.
    destruct (questions (quiz game) !! currentQuestion game) as [current|];
      [destruct (Z.eqb a (correctAnswer current))|]; exact Hb.
  - now apply timersBound_nextQuestion.
  - unfold startCountdown.
    destruct (getGame s gameId) as [[r game]|] eqn:Hg; [|exact Hb].
    apply getGame_heap in Hg as [Ha _].
    unfold state_of. simpl. intros t Hin Hc. simpl in Hin.
    apply in_app_or in Hin as [Hin|[<-|[]]]; [now apply Hb|].
    simpl in *. now subst.
  - exact Hb.
  - now apply timersBound_fire.
Qed.

Lemma viewInv_step (s : Server) (c : string) (i : Input) :
  calmInput s c i = true → viewInv s c → viewInv (state_of (step s i)) c.
Proof.
  intros Hcalm (Hreg & Hdis & Hmaps & Hb). split_and!.
  - now apply registryOk_step.
  - now apply registryDistinct_step.
  - now apply mapsOk_step.
  - now apply timersBound_step.
Qed.

Lemma viewInv_initial (c : string) : viewInv initial c.
Proof.
  split_and!.
  - apply registryOk_initial.
  - split_and!; simpl; [constructor | constructor | intros ? ? []].
  - intros r g H. destruct r; discriminate.
  - intros t [].
Qed.

(** ** One step, seen from the room *)

Lemma In_roomEvents (c : string) (out : list Emit) (e : Event) :
  In e (roomEvents c out) ↔ In (ToRoom c, e) out.
Proof.
  unfold roomEvents. rewrite in_flat_map. split.
  - intros ([t e'] & Hin & He). simpl in He. destruct t as [c'|x]; [|destruct He].
    destruct (String.eqb_spec c' c) as [->|_]; [|destruct He].
    destruct He as [<-|[]]. exact Hin.
  - intros Hin. exists (ToRoom c, e). split; [exact Hin|].
    simpl. rewrite String.eqb_refl. now left.
Qed.

Lemma clientPlayers_fixed (view : list Player) (evs : list Event) :
  (∀ e, In e evs → onEvent view e = view) → clientPlayers view evs = view.
Proof.
  induction evs as [|e evs IH]; simpl; intros H; [reflexivity|].
  unfold clientPlayers in *. simpl. rewrite (H e) by now left.
  apply IH. intros; apply H; now right.
Qed.

Lemma view_fixed (view : list Player) (c : string) (out : list Emit) :
  (∀ e, In (ToRoom c, e) out → onEvent view e = view) →
  clientPlayers view (roomEvents c out) = view.
Proof.
  intros H. apply clientPlayers_fixed. intros e Hin.
  apply H. now apply In_roomEvents.
Qed.

Lemma rosterOf_getGame (s : Server) (c : string) (r : nat) (g : Game) :
  getGame s c = Some (r, g) → rosterOf s c = JsMap.values (players g).
Proof. intros H. unfold rosterOf. now rewrite H. Qed.

Lemma view_create (s : Server) (c socketId random : string) (qz : Quiz) :
  registryOk s →
  calmInput s c (Cmd socketId (CreateGame random qz)) = true →
  rosterOf (state_of (createGame s socketId random qz)) c = rosterOf s c.
Proof.
  intros [Hlt _] Hcalm. simpl in Hcalm.
  destruct (String.eqb_spec random c) as [->|Hne].
  - simpl in Hcalm. apply negb_true_iff in Hcalm.
    unfold rosterOf at 1. rewrite createGame_session.
    unfold rosterOf, hasSession in *. now destruct (getGame s c).
  - unfold rosterOf, getGame, createGame, state_of. simpl.
    rewrite get_set_ne by exact Hne.
    destruct (JsMap.get (activeGames s) c) as [r|] eqn:Hc; [|reflexivity].
    now rewrite lookup_app_l by (eapply Hlt; eauto).
Qed.

Lemma view_join (s : Server) (c socketId gameId name : string) :
  registryOk s →
  calmInput s c (Cmd socketId (JoinGame gameId name)) = true →
  rosterOf (state_of (joinGame s socketId gameId name)) c
  = clientPlayers (rosterOf s c)
      (roomEvents c (emitted (joinGame s socketId gameId name))).
Proof.
  intros Hreg Hcalm. simpl in Hcalm.
  destruct (getGame s gameId) as [[r0 g0]|] eqn:Hg0.
  - rewrite (rosterOf_insert s _ c gameId r0 g0
               (set_players g0 (JsMap.set (players g0) socketId
                                          (mkPlayer socketId name 0)))
               Hreg Hg0).
    + unfold joinGame, emitted. rewrite Hg0. simpl.
      destruct (String.eqb_spec gameId c) as [->|Hne]; [|reflexivity].
      simpl in Hcalm. apply negb_true_iff in Hcalm.
      unfold isMember in Hcalm. rewrite Hg0 in Hcalm.
      rewrite (rosterOf_getGame s c r0 g0 Hg0). simpl.
      apply values_set_fresh. now apply has_false.
    + unfold joinGame. now rewrite Hg0.
    + rewrite joinGame_heap. now rewrite Hg0.
  - unfold joinGame, emitted, state_of. now rewrite Hg0.
Qed.

Lemma view_submit (s : Server) (c socketId gameId : string) (a : Z) :
  registryOk s → (∀ r g, heap s !! r = Some g → mapsOk g) →
  rosterOf (state_of (submitAnswer s socketId gameId a)) c
  = clientPlayers (rosterOf s c)
      (roomEvents c (emitted (submitAnswer s socketId gameId a))).
Proof.
  intros Hreg Hmaps. unfold submitAnswer.
  destruct (getGame s gameId) as [[r0 g0]|] eqn:Hg0; [|reflexivity].
  destruct (JsMap.get (players g0) socketId) as [player|] eqn:Hp; [|reflexivity].
  destruct (JsMap.has (answers g0) socketId); [reflexivity|]. simpl.
  pose proof (getGame_heap _ _ _ _ Hg0) as [_ Hh0].
  destruct (Hmaps r0 g0 Hh0) as (Hnd & _ & Hid).
  destruct (questions (quiz g0) !! currentQuestion g0) as [current|];
    [destruct (Z.eqb a (correctAnswer current))|];
    unfold state_of, emitted; simpl.
  - erewrite rosterOf_insert; [|exact Hreg|exact Hg0|reflexivity|reflexivity].
    destruct (String.eqb_spec gameId c) as [->|Hne]; [|reflexivity].
    rewrite (rosterOf_getGame s c r0 g0 Hg0). simpl.
    now apply values_set_score.
  - erewrite rosterOf_insert; [|exact Hreg|exact Hg0|reflexivity|reflexivity].
    destruct (String.eqb_spec gameId c) as [->|Hne]; [|reflexivity].
    now rewrite (rosterOf_getGame s c r0 g0 Hg0).
  - erewrite rosterOf_insert; [|exact Hreg|exact Hg0|reflexivity|reflexivity].
    destruct (String.eqb_spec gameId c) as [->|Hne]; [|reflexivity].
    now rewrite (rosterOf_getGame s c r0 g0 Hg0).
Qed.

Lemma view_nextQuestion (s : Server) (c gameId : string) :
  rosterOf (state_of (nextQuestion s gameId)) c
  = clientPlayers (rosterOf s c)
      (roomEvents c (emitted (nextQuestion s gameId))).
Proof.
  destruct (nextQuestion_effect s gameId) as (Ha & Hl & Hk). cbv zeta in Ha, Hl, Hk.
  rewrite (rosterOf_kept s _ c Ha Hl Hk). symmetry. apply view_fixed.
  unfold nextQuestion, emitted.
  destruct (getGame s gameId) as [[r game]|] eqn:Hg; [|intros e []].
  destruct (questions (quiz game) !! currentQuestion game) as [current|]; simpl;
    destruct (questions (quiz game) !! S (currentQuestion game)); simpl;
    intros e Hin; repeat (destruct Hin as [[= <- <-]|Hin]); try destruct Hin;
    try reflexivity; simpl; symmetry; now apply rosterOf_getGame with (r := r).
Qed.

Lemma view_startCountdown (s : Server) (c gameId : string) :
  rosterOf (state_of (startCountdown s gameId)) c
  = clientPlayers (rosterOf s c)
      (roomEvents c (emitted (startCountdown s gameId))).
Proof.
  unfold startCountdown.
  destruct (getGame s gameId) as [[r game]|]; [|reflexivity].
  unfold state_of, emitted. simpl.
  now destruct (String.eqb gameId c).
Qed.

Lemma view_fire (s : Server) (c : string) (h : nat) :
  registryOk s → timersBound s c →
  rosterOf (state_of (fire s h)) c
  = clientPlayers (rosterOf s c) (roomEvents c (emitted (fire s h))).
Proof.
  intros Hreg Hb.
  destruct (fire_effect s h) as (Ha & Hl & Hk). cbv zeta in Ha, Hl, Hk.
  rewrite (rosterOf_kept s _ c Ha Hl Hk). symmetry. apply view_fixed.
  unfold fire, emitted.
  destruct (List.find _ (timeouts s)) as [t0|] eqn:Hf; [|intros e []].
  apply find_some in Hf as [Hin0 _]. specialize (Hb t0 Hin0).
  destruct (callback t0) as [gameId r question|gameId r|gameId r]; simpl in *.
  - destruct (heap s !! r) as [game|]; simpl; [|intros e []].
    intros e [[= <- <-]|[]]. reflexivity.
  - destruct (heap s !! r) as [game|] eqn:Hh; simpl; [|intros e []].
    destruct (questions (quiz game) !! S (currentQuestion game)); simpl;
      intros e [[= -> <-]|[]]; [reflexivity|].
    simpl. symmetry. apply rosterOf_getGame with (r := r).
    unfold getGame. now rewrite (Hb eq_refl), Hh.
  - destruct (heap s !! r) as [game|]; simpl; [|intros e []].
    destruct (questions (quiz game) !! currentQuestion game); simpl;
      [|intros e []].
    intros e [[= <- <-]|[]]. reflexivity.
Qed.

Lemma roomEvents_left_absent (c p : string) (P : string → bool) (l : list string) :
  ¬ In c l →
  roomEvents c (map (fun c0 => (ToRoom c0, PlayerLeft p)) (List.filter P l)) = [].
Proof.
  induction l as [|x l IH]; simpl; intros Hni; [reflexivity|].
  destruct (P x); simpl; [|apply IH; tauto].
  destruct (String.eqb_spec x c) as [->|_]; [tauto|]. apply IH. tauto.
Qed.

Lemma roomEvents_left_present (c p : string) (P : string → bool) (l : list string) :
  List.NoDup l → In c l →
  roomEvents c (map (fun c0 => (ToRoom c0, PlayerLeft p)) (List.filter P l))
  = if P c then [PlayerLeft p] else [].
Proof.
  induction l as [|x l IH]; simpl; intros Hnd Hin; [destruct Hin|].
  apply NoDup_cons_iff in Hnd as [Hni Hnd].
  destruct Hin as [->|Hin].
  - destruct (P c) eqn:HP; simpl.
    + rewrite String.eqb_refl. simpl. f_equal.
      now apply roomEvents_left_absent.
    + now apply roomEvents_left_absent.
  - assert (x ≠ c) by (intros ->; tauto).
    destruct (P x); simpl; [|now apply IH].
    destruct (String.eqb_spec x c) as [->|_]; [tauto|]. now apply IH.
Qed.

Lemma disconnect_emitted (s : Server) (socketId : string) :
  registryDistinct s →
  emitted (disconnect s socketId)
  = map (fun c => (ToRoom c, PlayerLeft socketId))
        (List.filter (fun c => isMember s c socketId)
                     (JsMap.keys (activeGames s))).
Proof.
  intros (Hk & Hr & _). unfold disconnect, emitted. simpl.
  rewrite disconnect_fold_emits by exact Hr. simpl.
  apply left_events_by_code. intros c r Hin. now apply In_get.
Qed.

Lemma view_disconnect (s : Server) (c socketId : string) :
  registryDistinct s → (∀ r g, heap s !! r = Some g → mapsOk g) →
  rosterOf (state_of (disconnect s socketId)) c
  = clientPlayers (rosterOf s c)
      (roomEvents c (emitted (disconnect s socketId))).
Proof.
  intros Hdis Hmaps. rewrite (disconnect_emitted s socketId Hdis).
  destruct Hdis as (Hk & _ & _).
  destruct (disconnect_registry s socketId) as [Ha Hl]. cbv zeta in Ha, Hl.
  unfold rosterOf at 1. unfold getGame. rewrite Ha.
  destruct (JsMap.get (activeGames s) c) as [r|] eqn:Hc.
  - assert (Hin : In c (JsMap.keys (activeGames s)))
      by (apply get_Some_keys; eauto).
    rewrite (roomEvents_left_present c socketId _ _ Hk Hin).
    unfold isMember, rosterOf, getGame. rewrite Hc.
    destruct (heap (state_of (disconnect s socketId)) !! r) as [g'|] eqn:Hg'.
    + destruct (disconnect_objects s socketId r g' Hg') as (g & Hg & _ & Hdel).
      rewrite Hg. rewrite Hdel by eauto.
      destruct (Hmaps r g Hg) as (_ & _ & Hid).
      destruct (JsMap.has (players g) socketId) eqn:Hhas; simpl.
      * now apply values_delete.
      * f_equal. apply delete_absent. now apply has_false.
    + apply lookup_ge_None in Hg'. rewrite Hl in Hg'.
      apply lookup_ge_None in Hg'. now rewrite Hg'.
  - unfold rosterOf, getGame. rewrite Hc.
    rewrite roomEvents_left_absent; [reflexivity|].
    intros Hin. apply get_Some_keys in Hin as [r Hr]. congruence.
Qed.

Lemma view_step (s : Server) (c : string) (i : Input) :
  viewInv s c → calmInput s c i = true →
  rosterOf (state_of (step s i)) c
  = clientPlayers (rosterOf s c) (roomEvents c (emitted (step s i))).
Proof.
  intros (Hreg & Hdis & Hmaps & Hb) Hcalm.
  destruct i as [socketId [random qz|gameId name|gameId a|gameId|gameId|]|h];
    simpl.
  - now rewrite view_create.
  - now apply view_join.
  - now apply view_submit.
  - apply view_nextQuestion.
  - apply view_startCountdown.
  - now apply view_disconnect.
  - now apply view_fire.
Qed.

Lemma view_run (c : string) (tr : list Input) :
  ∀ s, viewInv s c → calm s c tr = true →
       clientPlayers (rosterOf s c) (roomEvents c (run s tr).2)
       = rosterOf (run s tr).1 c.
Proof.
  induction tr as [|i tr IH]; simpl; intros s Hinv Hcalm; [reflexivity|].
  apply andb_true_iff in Hcalm as [Hi Hcalm].
  rewrite roomEvents_app, clientPlayers_app.
  rewrite <- (view_step s c i Hinv Hi).
  apply IH; [now apply viewInv_step | exact Hcalm].
Qed.

(** The listeners alone, with no render in between, rebuild the roster
    entry for entry. *)
Lemma listeners_rebuild_roster (tr : list Input) (c : string) :
  calm initial c tr = true →
  clientPlayers [] (roomEvents c (run initial tr).2)
  = rosterOf (run initial tr).1 c.
Proof.
  intros Hcalm.
  exact (view_run c tr initial (viewInv_initial c) Hcalm).
Qed.

(** ** Renders between the events *)

Lemma insertByScore_perm (p : Player) (l : list Player) :
  Permutation (insertByScore p l) (p :: l).
Proof.
  induction l as [|q l IH]; simpl; [reflexivity|].
  destruct (Z.ltb (score p) (score q)); [|reflexivity].
  rewrite IH. apply perm_swap.
Qed.

Lemma sortByScore_perm (l : list Player) : Permutation (sortByScore l) l.
Proof.
  induction l as [|p l IH]; simpl; [reflexivity|].
  rewrite insertByScore_perm. now constructor.
Qed.

Lemma insertByScore_sorted (p : Player) (l : list Player) :
  StronglySorted (fun a b => (score b ≤ score a)%Z) l →
  StronglySorted (fun a b => (score b ≤ score a)%Z) (insertByScore p l).
Proof.
  induction l as [|q l IH]; simpl; intros Hs.
  - repeat constructor.
  - apply StronglySorted_inv in Hs as [Hs Hq].
    destruct (Z.ltb_spec (score p) (score q)) as [Hlt|Hge].
    + constructor; [now apply IH|].
      apply List.Forall_forall. intros x Hx.
      apply (Permutation_in _ (insertByScore_perm p l)) in Hx as [<-|Hx]; [lia|].
      rewrite List.Forall_forall in Hq. now apply Hq.
    + constructor; [now constructor|].
      constructor; [lia|].
      apply List.Forall_forall. intros x Hx. rewrite List.Forall_forall in Hq.
      specialize (Hq x Hx). lia.
Qed.

Lemma sortByScore_sorted (l : list Player) :
  StronglySorted (fun a b => (score b ≤ score a)%Z) (sortByScore l).
Proof.
  induction l as [|p l IH]; simpl; [constructor|].
  now apply insertByScore_sorted.
Qed.

Lemma filter_perm {A : Type} (f : A → bool) (l l' : list A) :
  Permutation l l' → Permutation (List.filter f l) (List.filter f l').
Proof.
  induction 1 as [|x l l' _ IH|x y l|l l' l'' _ IH1 _ IH2]; simpl.
  - reflexivity.
  - destruct (f x); [now constructor | exact IH].
  - destruct (f x), (f y); try reflexivity. apply perm_swap.
  - now rewrite IH1.
Qed.

Lemma onEvent_perm (view view' : list Player) (e : Event) :
  Permutation view view' → Permutation (onEvent view e) (onEvent view' e).
Proof.
  intros Hp. destruct e; simpl; try exact Hp.
  - now apply Permutation_app_tail.
  - now apply filter_perm.
  - now apply Permutation_map.
  - reflexivity.
Qed.

Lemma clientRun_perm (acts : list ClientAct) :
  ∀ view view', Permutation view view' →
    Permutation (clientRun view acts) (clientPlayers view' (heard acts)).
Proof.
  induction acts as [|a acts IH]; simpl; intros view view' Hp; [exact Hp|].
  destruct a as [e|]; simpl.
  - apply IH. now apply onEvent_perm.
  - apply IH. now rewrite sortByScore_perm.
Qed.

(** X12. The Players panel of the host.  A client that has been in the
    room of a session since its creation applies the listeners of
    MainApp to the events of that room, and every render sorts its
    player list in place by decreasing score.  After any run from the
    empty server in which the code is not drawn again while in use and
    no connection sends [joinGame] for it while already in its player
    map, and with renders anywhere between the events, the client's
    list holds exactly the players of the server's roster of that
    session, each as often, and what a render then displays is that
    roster ordered by decreasing score.  With no render in between the
    list equals the roster entry for entry. *)
Theorem host_list_tracks_roster
  (tr : list Input) (c : string) (acts : list ClientAct) :
  calm initial c tr = true →
  heard acts = roomEvents c (run initial tr).2 →
  Permutation (clientRun [] acts) (rosterOf (run initial tr).1 c) ∧
  Permutation (clientRun [] (acts ++ [Render])) (rosterOf (run initial tr).1 c) ∧
  StronglySorted (fun a b => (score b ≤ score a)%Z)
                 (clientRun [] (acts ++ [Render])) ∧
  clientPlayers [] (heard acts) = rosterOf (run initial tr).1 c.
Proof.
  intros Hcalm Hheard.
  pose proof (listeners_rebuild_roster tr c Hcalm) as Hexact.
  rewrite <- Hheard in Hexact.
  assert (Hperm : Permutation (clientRun [] acts)
                              (rosterOf (run initial tr).1 c)).
  { rewrite <- Hexact. now apply clientRun_perm. }
  split_and!; [exact Hperm | | | exact Hexact].
  - unfold clientRun. rewrite fold_left_app. simpl.
    now rewrite sortByScore_perm.
  - unfold clientRun. rewrite fold_left_app. simpl.
    apply sortByScore_sorted.
Qed.

Lemma host_list_tracks_roster_witness :
  let tr := opening quizB ++
            [Cmd "p2" (JoinGame "k3x9ab" "bob");
             Cmd "p2" (SubmitAnswer "k3x9ab" 3)] in
  rosterOf (run initial tr).1 "k3x9ab"
    = [mkPlayer "p1" "alice" 0; mkPlayer "p2" "bob" 1000] ∧
  Permutation
    (clientRun [] [Listen (PlayerJoined (mkPlayer "p1" "alice" 0)); Render;
                   Listen StartCountdown; Listen (NewQuestion q1 5);
                   Listen (PlayerJoined (mkPlayer "p2" "bob" 0)); Render;
                   Listen (ScoreUpdate "p2" 1000); Render])
    (rosterOf (run initial tr).1 "k3x9ab").
Proof.
  intros tr. split; [reflexivity|].
  exact (proj1 (host_list_tracks_roster tr "k3x9ab"
                  [Listen (PlayerJoined (mkPlayer "p1" "alice" 0)); Render;
                   Listen StartCountdown; Listen (NewQuestion q1 5);
                   Listen (PlayerJoined (mkPlayer "p2" "bob" 0)); Render;
                   Listen (ScoreUpdate "p2" 1000); Render]
                  eq_refl eq_refl)).
Defined.

(** * The question form of the client *)

Lemma imap_Forall {A B : Type} (P : A → Prop) (Q : B → Prop)
  (l : list A) :
  ∀ f : nat → A → B,
    (∀ i x, P x → Q (f i x)) → List.Forall P l → List.Forall Q (imap f l).
Proof.
  induction l as [|x l IH]; simpl; intros f Hf Hall; [constructor|].
  apply List.Forall_cons_iff in Hall as [Hx Hall].
  constructor; [now apply Hf|]. apply IH; [|exact Hall].
  intros i y. apply Hf.
Qed.

Lemma filterIndexed_Forall {A : Type} (P : A → Prop) (keep : nat → bool)
  (l : list A) :
  ∀ n, List.Forall P l → List.Forall P (filterIndexed keep n l).
Proof.
  induction l as [|x l IH]; simpl; intros n Hall; [constructor|].
  apply List.Forall_cons_iff in Hall as [Hx Hall].
  destruct (keep n); [constructor|]; auto.
Qed.

Lemma filterIndexed_all {A : Type} (keep : nat → bool) (l : list A) :
  ∀ n, (∀ i, (n ≤ i)%nat → keep i = true) → filterIndexed keep n l = l.
Proof.
  induction l as [|x l IH]; simpl; intros n Hk; [reflexivity|].
  rewrite Hk by lia. f_equal. apply IH. intros i Hi. apply Hk. lia.
Qed.

Lemma filterIndexed_drops_one {A : Type} (idx : nat) (l : list A) :
  ∀ n, (length l ≤ S (length (filterIndexed
                                (fun i => negb (Nat.eqb i idx)) n l)))%nat.
Proof.
  induction l as [|x l IH]; simpl; intros n; [lia|].
  destruct (Nat.eqb_spec n idx) as [->|Hne]; simpl.
  - rewrite filterIndexed_all; [lia|].
    intros i Hi. apply negb_true_iff, Nat.eqb_neq. lia.
  - specialize (IH (S n)). lia.
Qed.

Lemma filledIn_setField (q : PartialQuestion) (fv : FieldValue) :
  filledIn q → filledIn (setField q fv).
Proof.
  intros (Ho & Ht & Hc & Hl). destruct fv; simpl; split_and!; simpl; eauto.
Qed.

Lemma filledIn_blank : filledIn blankQuestion.
Proof. split_and!; simpl; eauto. Qed.

Lemma formAct_keeps (form : list PartialQuestion) (a : FormAct) :
  (1 ≤ length form)%nat ∧ List.Forall filledIn form →
  (1 ≤ length (formAct form a))%nat ∧ List.Forall filledIn (formAct form a).
Proof.
  intros [Hlen Hall]. destruct a as [idx fv|qIdx optIdx value| |idx]; simpl.
  - unfold handleQuestionChange. rewrite length_imap. split; [exact Hlen|].
    apply (imap_Forall filledIn filledIn); [|exact Hall].
    intros i q Hq. destruct (Nat.eqb i idx); [|exact Hq].
    now apply filledIn_setField.
  - unfold handleOptionChange. rewrite length_imap. split; [exact Hlen|].
    apply (imap_Forall filledIn filledIn); [|exact Hall].
    intros i q Hq. destruct (Nat.eqb i qIdx); [|exact Hq].
    destruct Hq as ((opts & Ho & Hl) & Ht & Hc & Htl).
    split_and!; simpl; try assumption.
    rewrite Ho. simpl. eexists. split; [reflexivity|]. now rewrite length_imap.
  - unfold addQuestion. rewrite length_app. simpl. split; [lia|].
    apply List.Forall_app. split; [exact Hall|].
    constructor; [apply filledIn_blank | constructor].
  - unfold removeQuestion. destruct (Nat.ltb_spec 1 (length form)) as [Hlt|_].
    + split; [|now apply filterIndexed_Forall].
      pose proof (filterIndexed_drops_one idx form 0). lia.
    + now split.
Qed.

Lemma form_reachable (acts : list FormAct) :
  ∀ form, (1 ≤ length form)%nat ∧ List.Forall filledIn form →
    (1 ≤ length (fold_left formAct acts form))%nat ∧
    List.Forall filledIn (fold_left formAct acts form).
Proof.
  induction acts as [|a acts IH]; simpl; intros form Hok; [exact Hok|].
  apply IH. now apply formAct_keeps.
Qed.

Lemma formQuestions_lookup (form : list PartialQuestion) (i : nat) (q : Question) :
  formQuestions form !! i = Some q →
  ∃ pq, form !! i = Some pq ∧
        question_id q = pretty (i + 1) ∧
        options q = default [""; ""; ""; ""] (p_options pq) ∧
        text q = default "" (p_text pq) ∧
        correctAnswer q = default 0%Z (p_correctAnswer pq) ∧
        timeLimit q = default 30%Z (p_timeLimit pq).
Proof.
  unfold formQuestions. rewrite list_lookup_imap.
  destruct (form !! i) as [pq|]; simpl; [|discriminate].
  intros [= <-]. exists pq. simpl. auto 10.
Qed.

(** X13. The question form of CreateGame.  After any sequence of form
    actions (field edits, option edits, adding and removing questions,
    with any indices) from the initial form, the form has at least one
    question, since [removeQuestion] does nothing on a form of one.  The
    quiz [createGame] builds from it has as many questions as the form,
    so it has a first question; the question at position [i] has id
    [i + 1] in decimal, exactly four options, and the text, correct
    index and time limit the form holds at that position; ids are
    pairwise distinct. *)
Theorem form_quiz_shape (acts : list FormAct) :
  let form := fold_left formAct acts initialForm in
  let qz := formQuiz form in
  (1 ≤ length form)%nat ∧
  length (questions qz) = length form ∧
  is_Some (questions qz !! 0) ∧
  (∀ i q, questions qz !! i = Some q →
     question_id q = pretty (i + 1) ∧ length (options q) = 4 ∧
     ∃ pq, form !! i = Some pq ∧
           p_text pq = Some (text q) ∧
           p_correctAnswer pq = Some (correctAnswer q) ∧
           p_timeLimit pq = Some (timeLimit q)) ∧
  (∀ i j q q', questions qz !! i = Some q → questions qz !! j = Some q' →
     question_id q = question_id q' → i = j).
Proof.
  simpl.
  destruct (form_reachable acts initialForm) as [Hlen Hall].
  { split; [simpl; lia|]. constructor; [apply filledIn_blank | constructor]. }
  set (form := fold_left formAct acts initialForm) in *.
  assert (Hl : length (formQuestions form) = length form)
    by (unfold formQuestions; apply length_imap).
  split_and!.
  - exact Hlen.
  - exact Hl.
  - apply lookup_lt_is_Some_2. lia.
  - intros i q Hq.
    destruct (formQuestions_lookup form i q Hq)
      as (pq & Hpq & Hid & Ho & Ht & Hc & Htl).
    rewrite List.Forall_forall in Hall.
    destruct (Hall pq) as ((opts & Hopts & Hlen4) & [t Ht'] & [ca Hc'] & [tl Htl']).
    { apply list_elem_of_In. eapply list_elem_of_lookup_2. exact Hpq. }
    split_and!; [exact Hid | rewrite Ho, Hopts; exact Hlen4 |].
    exists pq. rewrite Ht, Hc, Htl, Ht', Hc', Htl'. auto.
  - intros i j q q' Hq Hq' Heq.
    destruct (formQuestions_lookup form i q Hq) as (_ & _ & Hid & _).
    destruct (formQuestions_lookup form j q' Hq') as (_ & _ & Hid' & _).
    rewrite Hid, Hid' in Heq. apply (inj pretty) in Heq. lia.
Qed.

Lemma form_quiz_shape_witness :
  formQuiz (fold_left formAct
              [ChangeField 0 (TextValue "2 + 2 ?");
               ChangeOption 0 3 "4";
               ChangeField 0 (CorrectAnswerValue 3);
               AddQuestion;
               RemoveQuestion 1;
               RemoveQuestion 0] initialForm)
  = mkQuiz "1" "Custom Quiz"
           [mkQuestion "1" "2 + 2 ?" [""; ""; ""; "4"] 3 30] ∧
  question_id (mkQuestion "1" "2 + 2 ?" [""; ""; ""; "4"] 3 30) = pretty (0 + 1).
Proof.
  split; [reflexivity|].
  destruct (form_quiz_shape
              [ChangeField 0 (TextValue "2 + 2 ?");
               ChangeOption 0 3 "4";
               ChangeField 0 (CorrectAnswerValue 3);
               AddQuestion;
               RemoveQuestion 1;
               RemoveQuestion 0]) as (_ & _ & _ & H & _).
  exact (proj1 (H 0 (mkQuestion "1" "2 + 2 ?" [""; ""; ""; "4"] 3 30) eq_refl)).
Defined.

(** * Answers during the reveal pause *)

(** X14. Between [revealAnswer] and the next [newQuestion] the server
    still accepts answers.  With the 3000 ms pause timeout of a session
    pending and the answer record empty, a known player who submits the
    correct index of the question just revealed gets 1000 points, and
    when the pause then fires and [newQuestion] for the next question is
    emitted, the answer stays on record: a [submitAnswer] of that player
    for the new question, with any index, is ignored. *)
Theorem answer_during_pause_blocks_next
  (s : Server) (p c : string) (r h : nat) (game : Game) (player : Player)
  (t : Timeout) (current next : Question) (a' : Z) :
  getGame s c = Some (r, game) →
  JsMap.get (players game) p = Some player →
  JsMap.has (answers game) p = false →
  questions (quiz game) !! currentQuestion game = Some current →
  questions (quiz game) !! S (currentQuestion game) = Some next →
  List.find (fun t => Nat.eqb (handle t) h) (timeouts s) = Some t →
  callback t = RevealPause c r →
  let s2 := (run s [Cmd p (SubmitAnswer c (correctAnswer current)); Fire h]).1 in
  (run s [Cmd p (SubmitAnswer c (correctAnswer current)); Fire h]).2
  = [(ToRoom c, ScoreUpdate p (score player + 1000));
     (ToRoom c, NewQuestion next (timeLimit next))] ∧
  (∃ g', getGame s2 c = Some (r, g') ∧
         currentQuestion g' = S (currentQuestion game) ∧
         JsMap.get (answers g') p = Some (correctAnswer current)) ∧
  step s2 (Cmd p (SubmitAnswer c a')) = (s2, [], Returned).
Proof.
  intros Hg Hp Ha Hq Hn Hf Hcb.
  pose proof (getGame_heap _ _ _ _ Hg) as [Hreg Hh].
  assert (Hlt : r < length (heap s)) by (eapply lookup_lt_Some; eauto).
  set (g2 := set_players
               (set_answers game (JsMap.set (answers game) p (correctAnswer current)))
               (JsMap.set (players game) p
                  (mkPlayer (player_id player) (username player)
                            (score player + 1000)))).
  assert (E1 : submitAnswer s p c (correctAnswer current)
               = (putGame s r g2,
                  [(ToRoom c, ScoreUpdate p (score player + 1000))], Returned)).
  { unfold submitAnswer. rewrite Hg, Hp, Ha. simpl.
    now rewrite Hq, Z.eqb_refl. }
  set (s1 := putGame s r g2).
  set (g3 := set_currentQuestion g2 (S (currentQuestion g2))).
  set (s1' := putGame (clearTimeout s1 h) r g3).
  assert (E2 : fire s1 h
               = (startQuestionTimer s1' c,
                  [(ToRoom c, NewQuestion next (timeLimit next))], Returned)).
  { rewrite (fire_pending s1 h t Hf), Hcb. simpl.
    rewrite list_lookup_insert_eq by exact Hlt. simpl. now rewrite Hn. }
  assert (Hh3 : heap s1' !! r = Some g3).
  { unfold s1'. simpl. apply list_lookup_insert_eq.
    rewrite length_insert. exact Hlt. }
  destruct (startQuestionTimer_lookup s1' c r g3 Hh3)
    as (g' & Hg' & Hp' & Hc' & Hqz' & Han').
  assert (H2 : getGame (startQuestionTimer s1' c) c = Some (r, g')).
  { unfold getGame. rewrite startQuestionTimer_activeGames.
    change (activeGames s1') with (activeGames s). now rewrite Hreg, Hg'. }
  assert (Hrun : run s [Cmd p (SubmitAnswer c (correctAnswer current)); Fire h]
                 = (startQuestionTimer s1' c,
                    [(ToRoom c, ScoreUpdate p (score player + 1000));
                     (ToRoom c, NewQuestion next (timeLimit next))])).
  { simpl. rewrite E1, state_of_mk, emitted_mk. fold s1.
    rewrite E2, state_of_mk, emitted_mk. reflexivity. }
  rewrite Hrun. simpl fst. simpl snd. split_and!.
  - reflexivity.
  - exists g'. split_and!; [exact H2 | now rewrite Hc' |].
    rewrite Han'. simpl. apply get_set_eq.
  - apply (submitAnswer_answered_noop _ p c a' r g' H2).
    apply has_true. exists (correctAnswer current).
    rewrite Han'. simpl. apply get_set_eq.
Qed.

Lemma answer_during_pause_blocks_next_witness :
  let s := (run shownB [Fire 1]).1 in
  (run s [Cmd "p1" (SubmitAnswer "k3x9ab" 3); Fire 2]).2
  = [(ToRoom "k3x9ab", ScoreUpdate "p1" 1000);
     (ToRoom "k3x9ab", NewQuestion q2 10)] ∧
  step (run s [Cmd "p1" (SubmitAnswer "k3x9ab" 3); Fire 2]).1
       (Cmd "p1" (SubmitAnswer "k3x9ab" 0))
  = ((run s [Cmd "p1" (SubmitAnswer "k3x9ab" 3); Fire 2]).1, [], Returned).
Proof.
  intros s.
  destruct (answer_during_pause_blocks_next s "p1" "k3x9ab" 0 2
              (mkGame [("p1", mkPlayer "p1" "alice" 0)] 0 quizB [] (Some 1))
              (mkPlayer "p1" "alice" 0)
              (mkTimeout 2 3000 (RevealPause "k3x9ab" 0)) q1 q2 0%Z
              eq_refl eq_refl eq_refl eq_refl eq_refl eq_refl eq_refl)
    as (He & _ & Hno).
  split; [exact He | exact Hno].
Defined.
